(** * OTVision: frame grouping (track/preprocess.py) and the IOU tracker
      (track/iou.py), embedded as executable Rocq functions.

    Conventions of the embedding:
    - a Python [int] is a [Z]; a Python [float] is a rational [Q]
      (only comparisons, [max] and exact arithmetic are used on them);
    - a [datetime] is the number of microseconds since the epoch, a
      [timedelta] a number of microseconds, both [Z];
    - a [Path] is its posix string;
    - a Python exception is a value [Raise e] of the [result] type;
    - a [dict] whose iteration order matters is an association list
      updated with [dict_set], which keeps the position of a key that is
      already present, as Python does. *)

From Stdlib Require Import ZArith QArith Qminmax List String Ascii Bool Lia.
From Stdlib Require Import Permutation Sorted.
From Stdlib Require OrderedTypeEx.
Import ListNotations.

Open Scope Z_scope.

(** ** Exceptions and the error monad *)

Inductive exn : Type :=
| IndexError
| KeyError
| ValueError
| AssertionError
| UnboundLocalError
| TypeError.

Inductive result (A : Type) : Type :=
| Ok (a : A)
| Raise (e : exn).

Arguments Ok {A} a.
Arguments Raise {A} e.

Definition bind {A B : Type} (c : result A) (k : A -> result B) : result B :=
  match c with
  | Ok a => k a
  | Raise e => Raise e
  end.

Notation "x <- c ;; k" := (bind c (fun x => k))
  (at level 61, c at next level, right associativity).
Notation "' p <- c ;; k" := (bind c (fun x => let p := x in k))
  (at level 61, p pattern, c at next level, right associativity).

(** [for x in l: st = body(st, x)] with exceptions. *)
Fixpoint for_each {S A : Type} (body : S -> A -> result S) (st : S) (l : list A)
  : result S :=
  match l with
  | [] => Ok st
  | x :: l' => st' <- body st x ;; for_each body st' l'
  end.

(** [[f(x) for x in l]] with exceptions. *)
Fixpoint map_result {A B : Type} (f : A -> result B) (l : list A) : result (list B) :=
  match l with
  | [] => Ok []
  | x :: l' => y <- f x ;; ys <- map_result f l' ;; Ok (y :: ys)
  end.

(** ** Python list and dict primitives *)

(** [l[0]] *)
Definition list_first {A : Type} (l : list A) : result A :=
  match l with
  | [] => Raise IndexError
  | x :: _ => Ok x
  end.

(** [l[-1]] *)
Fixpoint list_last {A : Type} (l : list A) : result A :=
  match l with
  | [] => Raise IndexError
  | [x] => Ok x
  | _ :: l' => list_last l'
  end.

(** [d[k] = v] on an insertion-ordered dict. *)
Fixpoint dict_set {K V : Type} (eqb : K -> K -> bool) (k : K) (v : V)
  (d : list (K * V)) : list (K * V) :=
  match d with
  | [] => [(k, v)]
  | (k', v') :: d' =>
      if eqb k' k then (k, v) :: d' else (k', v') :: dict_set eqb k v d'
  end.

(** [d.get(k)] *)
Fixpoint dict_get {K V : Type} (eqb : K -> K -> bool) (k : K) (d : list (K * V))
  : option V :=
  match d with
  | [] => None
  | (k', v') :: d' => if eqb k' k then Some v' else dict_get eqb k d'
  end.

(** [sorted(l, key=...)]: a stable sort; [leb x y] is [key(x) <= key(y)]. *)
Fixpoint insert_sorted {A : Type} (leb : A -> A -> bool) (x : A) (l : list A)
  : list A :=
  match l with
  | [] => [x]
  | y :: l' => if leb x y then x :: y :: l' else y :: insert_sorted leb x l'
  end.

Definition sorted_by {A : Type} (leb : A -> A -> bool) (l : list A) : list A :=
  fold_right (insert_sorted leb) [] l.

(** The integers [start, start+1, ..., start+n-1]. *)
Fixpoint Zrange (start : Z) (n : nat) : list Z :=
  match n with
  | O => []
  | S n' => start :: Zrange (start + 1) n'
  end.

Definition datetime : Type := Z.
Definition timedelta : Type := Z.
Definition Path : Type := string.

Definition seconds (n : Z) : timedelta := n * 1000000.
Definition minutes (n : Z) : timedelta := seconds (60 * n).

(** * track/preprocess.py *)
Module Preprocess.

(** [datetime(1900, 1, 1)].  It has no time zone while the parsed dates are
    in UTC; this module reads it as a UTC date and does not model the
    difference.  [Zoned] models it for [GroupFrameRanges._merge_groups]. *)
Definition MISSING_START_DATE : datetime := -2208988800 * 1000000.
Definition MISSING_EXPECTED_DURATION : timedelta := minutes 15.

Record Detection : Type := mkDetection {
  label : string;
  conf : Q;
  x : Q;
  y : Q;
  w : Q;
  h : Q
}.

Record Frame : Type := mkFrame {
  frame : Z;
  occurrence : datetime;
  input_file_path : Path;
  detections : list Detection
}.

Definition derive_frame_number (self : Frame) (new_frame_number : Z) : Frame :=
  mkFrame new_frame_number (occurrence self) (input_file_path self)
          (detections self).

(** ** FrameRange *)
Module FrameRange.

Record t : Type := mk {
  files : list Path;
  start_date : datetime;
  end_date : datetime
}.

Definition _merge (first second : t) : t :=
  mk (files first ++ files second) (start_date first) (end_date second).

Definition merge (self other : t) : t :=
  if start_date self <? start_date other
  then _merge self other
  else _merge other self.

End FrameRange.

(** ** FrameGroup *)
Module FrameGroup.

Record t : Type := mk {
  frames : list Frame;
  order_key : string
}.

Definition start_date (self : t) : result datetime :=
  f <- list_first (frames self) ;; Ok (occurrence f).

Definition end_date (self : t) : result datetime :=
  f <- list_last (frames self) ;; Ok (occurrence f).

(** The loop of [_merge]: the state is [(all_frames, last_frame_number)]. *)
Fixpoint renumber (all_frames : list Frame) (last_frame_number : Z)
  (second : list Frame) : list Frame :=
  match second with
  | [] => all_frames
  | f :: rest =>
      let last_frame_number := last_frame_number + 1 in
      renumber (all_frames ++ [derive_frame_number f last_frame_number])
               last_frame_number rest
  end.

Definition _merge (self first second : t) : result t :=
  let all_frames := frames first in
  last_frame <- list_last all_frames ;;
  Ok (mk (renumber all_frames (frame last_frame) (frames second))
         (order_key self)).

Definition merge (self other : t) : result t :=
  s <- start_date self ;;
  o <- start_date other ;;
  if s <? o then _merge self self other else _merge self other self.

End FrameGroup.

(** ** Parsing and the two grouping passes.

    The readers of dates and numbers live in [OTVision.helpers.date] and in
    Python itself; [get_metadata] lives in [OTVision.helpers.files].  They are
    parameters of the section. *)
Section Parsing.

  (** A JSON scalar as the reader returns it. *)
Variable RawValue : Type.
  (** [isinstance(date, str) and ("-" in date)] *)
Variable is_date_string : RawValue -> bool.
Variable parse_date_string_to_utc_datime : RawValue -> result datetime.
Variable parse_timestamp_string_to_utc_datetime : RawValue -> result datetime.
  (** Python's [float(...)] and [int(...)] *)
Variable float : RawValue -> result Q.
Variable int : RawValue -> result Z.
  (** [Path.parent.as_posix()] *)
Variable parent : Path -> Path.

Definition parse_datetime (date : RawValue) : result datetime :=
    if is_date_string date
    then parse_date_string_to_utc_datime date
    else parse_timestamp_string_to_utc_datetime date.

  (** One entry of [data[frame][DETECTIONS]]. *)
Record RawDetection : Type := mkRawDetection {
    raw_class : string;
    raw_confidence : RawValue;
    raw_x : RawValue;
    raw_y : RawValue;
    raw_w : RawValue;
    raw_h : RawValue
  }.

  (** One value of [recording[DATA]]. *)
Record RawFrame : Type := mkRawFrame {
    raw_occurrence : RawValue;
    raw_detections : list RawDetection
  }.

  (** [metadata[VIDEO]]: both keys may be absent. *)
Record VideoMetadata : Type := mkVideoMetadata {
    recorded_start_date : option RawValue;
    expected_duration : option RawValue
  }.

Record Recording : Type := mkRecording {
    metadata_video : VideoMetadata;
    data : list (RawValue * RawFrame)
  }.

Variable Metadata : Type.
Variable get_metadata : Recording -> result Metadata.

  (** *** DetectionParser *)
Definition convert_detection (detection : RawDetection) : result Detection :=
    c <- float (raw_confidence detection) ;;
    vx <- float (raw_x detection) ;;
    vy <- float (raw_y detection) ;;
    vw <- float (raw_w detection) ;;
    vh <- float (raw_h detection) ;;
    Ok (mkDetection (raw_class detection) c vx vy vw vh).

Definition DetectionParser_convert (data_detections : list RawDetection)
    : result (list Detection) :=
    map_result convert_detection data_detections.

  (** *** FrameGroupParser *)
Definition frame_key_leb (a b : Frame) : bool :=
    (occurrence a <? occurrence b)
    || ((occurrence a =? occurrence b) && (frame a <=? frame b)).

Definition FrameGroupParser_order_key (input_file_path : Path) : string :=
    parent input_file_path.

Definition parse_frame (input_file_path : Path) (frame_offset : Z)
    (entry : RawValue * RawFrame) : result Frame :=
    let '(key, value) := entry in
    occ <- parse_datetime (raw_occurrence value) ;;
    dets <- DetectionParser_convert (raw_detections value) ;;
    k <- int key ;;
    Ok (mkFrame (k + frame_offset) occ input_file_path dets).

Definition FrameGroupParser_convert (input_file_path : Path)
    (input : list (RawValue * RawFrame)) (frame_offset : Z)
    : result FrameGroup.t :=
    frames <- map_result (parse_frame input_file_path frame_offset) input ;;
    Ok (FrameGroup.mk (sorted_by frame_key_leb frames)
                      (FrameGroupParser_order_key input_file_path)).

  (** *** Preprocess *)
Definition extract_start_date_from (video : VideoMetadata) : result datetime :=
    match recorded_start_date video with
    | Some d => parse_datetime d
    | None => Ok MISSING_START_DATE
    end.

Definition parse_one_group (frame_offset : Z)
    (st : list FrameGroup.t * list (string * Metadata))
    (item : Path * Recording)
    : result (list FrameGroup.t * list (string * Metadata)) :=
    let '(all_groups, metadata) := st in
    let '(file_path, recording) := item in
    file_metadata <- get_metadata recording ;;
    let metadata := dict_set String.eqb file_path file_metadata metadata in
    _ <- extract_start_date_from (metadata_video recording) ;;
    frame_group <- FrameGroupParser_convert file_path (data recording)
                                            frame_offset ;;
    Ok (all_groups ++ [frame_group], metadata).

Definition _parse_frame_groups (input : list (Path * Recording))
    (frame_offset : Z)
    : result (list FrameGroup.t * list (string * Metadata)) :=
    for_each (parse_one_group frame_offset) ([], []) input.

  (** The loop of [Preprocess._merge_groups]: the state is
      [(merged_groups, last_group)]. *)
Fixpoint merge_groups_loop (time_without_frames : timedelta)
    (merged_groups : list FrameGroup.t) (last_group : FrameGroup.t)
    (rest : list FrameGroup.t) : result (list FrameGroup.t) :=
    match rest with
    | [] => Ok (merged_groups ++ [last_group])
    | current_group :: rest' =>
        s <- FrameGroup.start_date current_group ;;
        e <- FrameGroup.end_date last_group ;;
        if s - e <=? time_without_frames
        then
          g <- FrameGroup.merge last_group current_group ;;
          merge_groups_loop time_without_frames merged_groups g rest'
        else
          merge_groups_loop time_without_frames
                            (merged_groups ++ [last_group]) current_group rest'
    end.

Definition _merge_groups (time_without_frames : timedelta)
    (all_groups : list FrameGroup.t) : result (list FrameGroup.t) :=
    match all_groups with
    | [] => Raise IndexError
    | last_group :: rest =>
        merge_groups_loop time_without_frames [] last_group rest
    end.

Definition process (time_without_frames : timedelta)
    (input : list (Path * Recording)) (frame_offset : Z)
    : result (list FrameGroup.t * list (string * Metadata)) :=
    '(all_groups, metadata) <- _parse_frame_groups input frame_offset ;;
    if (List.length all_groups =? 0)%nat
    then Ok ([], metadata)
    else
      merged <- _merge_groups time_without_frames all_groups ;;
      Ok (merged, metadata).

  (** *** GroupFrameRanges *)
Definition extract_expected_duration_from (video : VideoMetadata)
    : result timedelta :=
    match expected_duration video with
    | Some d => n <- int d ;; Ok (seconds n)
    | None => Ok MISSING_EXPECTED_DURATION
    end.

Definition parse_one_range (all_ranges : list FrameRange.t)
    (item : Path * VideoMetadata) : result (list FrameRange.t) :=
    let '(file_path, video) := item in
    start_date <- extract_start_date_from video ;;
    duration <- extract_expected_duration_from video ;;
    let end_date := start_date + duration in
    Ok (all_ranges ++ [FrameRange.mk [file_path] start_date end_date]).

Definition _parse_frame_ranges (input : list (Path * VideoMetadata))
    : result (list FrameRange.t) :=
    for_each parse_one_range [] input.

Fixpoint merge_ranges_loop (time_without_frames : timedelta)
    (merged_ranges : list FrameRange.t) (last_range : FrameRange.t)
    (rest : list FrameRange.t) : list FrameRange.t :=
    match rest with
    | [] => merged_ranges ++ [last_range]
    | current_range :: rest' =>
        if FrameRange.start_date current_range - FrameRange.end_date last_range
           <=? time_without_frames
        then merge_ranges_loop time_without_frames merged_ranges
               (FrameRange.merge last_range current_range) rest'
        else merge_ranges_loop time_without_frames
               (merged_ranges ++ [last_range]) current_range rest'
    end.

Definition range_start_leb (a b : FrameRange.t) : bool :=
    FrameRange.start_date a <=? FrameRange.start_date b.

Definition GroupFrameRanges_merge_groups (time_without_frames : timedelta)
    (all_ranges : list FrameRange.t) : result (list FrameRange.t) :=
    if (1 <=? List.length all_ranges)%nat
    then
      match sorted_by range_start_leb all_ranges with
      | [] => Raise IndexError
      | last_range :: rest =>
          Ok (merge_ranges_loop time_without_frames [] last_range rest)
      end
    else Raise AssertionError.

Definition group_files (time_without_frames : timedelta)
    (input : list (Path * VideoMetadata)) : result (list FrameRange.t) :=
    all_groups <- _parse_frame_ranges input ;;
    if (List.length all_groups =? 0)%nat
    then Ok []
    else GroupFrameRanges_merge_groups time_without_frames all_groups.

End Parsing.

End Preprocess.

(** * track/iou.py *)
Module Iou.

Open Scope Q_scope.

(** Boolean comparisons of Python floats: [a >= b] is [Qge_bool a b]. *)
Definition Qge_bool (a b : Q) : bool := Qle_bool b a.
Definition Qgt_bool (a b : Q) : bool := negb (Qle_bool a b).

(** [a == b] on two floats.  A float has one representation, so the
    embedding compares the two fractions as they are written. *)
Definition Q_eqb (a b : Q) : bool :=
  (Qnum a =? Qnum b)%Z && (Qden a =? Qden b)%positive.

(** A detection dict of [detections[frame_num]["classified"]]. *)
Module Det.
Record t : Type := mk {
    class : string;
    conf : Q;
    x : Q;
    y : Q;
    w : Q;
    h : Q
  }.

  (** [a == b] on two detection dicts. *)
Definition eqb (a b : t) : bool :=
    String.eqb (class a) (class b)
    && Q_eqb (conf a) (conf b)
    && Q_eqb (x a) (x b) && Q_eqb (y a) (y b)
    && Q_eqb (w a) (w b) && Q_eqb (h a) (h b).
End Det.

Definition BBox : Type := (Q * Q * Q * Q)%type.
Definition Point : Type := (Q * Q)%type.

Definition make_bbox (obj : Det.t) : BBox :=
  (Det.x obj - Det.w obj / 2,
   Det.y obj - Det.h obj / 2,
   Det.x obj + Det.w obj / 2,
   Det.y obj + Det.h obj / 2).

Definition center (obj : Det.t) : Point := (Det.x obj, Det.y obj).

(** A track dict of [tracks_active]. *)
Module Track.
Record t : Type := mk {
    frames : list Z;
    bboxes : list BBox;
    center : list Point;
    conf : list Q;
    class : list string;
    max_class : string;
    max_conf : Q;
    vehID : Z;
    start_frame : Z;
    age : Z
  }.
End Track.

(** One element of [tracks_geojson["features"]]; the key [max_class] of its
    properties is absent until the last loop of [track_iou] sets it. *)
Module Feature.
Record t : Type := mk {
    coordinates : list Point;
    max_conf : Q;
    ID : Z;
    start_frame : Z;
    max_class : option string
  }.
End Feature.

(** A detection of the output with the keys the tracker adds to it. *)
Module Annotated.
Record t : Type := mk {
    det : Det.t;
    first : bool;
    finished : bool
  }.
End Annotated.

(** [max(a, b)] on floats: [b] only when it is strictly greater. *)
Definition py_max (a b : Q) : Q := if Qgt_bool b a then b else a.

(** [max(best :: l, key=key)]: the first element whose key is maximal. *)
Fixpoint max_by {A : Type} (key : A -> Q) (best : A) (l : list A) : A :=
  match l with
  | [] => best
  | x :: l' => max_by key (if Qgt_bool (key x) (key best) then x else best) l'
  end.

(** [del dets[dets.index(d)]] *)
Fixpoint del_first (d : Det.t) (dets : list Det.t) : result (list Det.t) :=
  match dets with
  | [] => Raise ValueError
  | d' :: rest =>
      if Det.eqb d' d then Ok rest
      else rest' <- del_first d rest ;; Ok (d' :: rest')
  end.

(** ** [pd.Series(l).mode().iat[0]]: the most frequent value, the smallest
    one when several are as frequent. *)
Fixpoint count_string (s : string) (l : list string) : nat :=
  match l with
  | [] => O
  | s' :: l' => (if String.eqb s' s then 1 else 0) + count_string s l'
  end.

Definition mode_step (l : list string) (best : string) (s : string) : string :=
  let cs := count_string s l in
  let cb := count_string best l in
  if (cb <? cs)%nat then s
  else if (cs =? cb)%nat && String.ltb s best then s
  else best.

Definition mode (l : list string) : result string :=
  match l with
  | [] => Raise IndexError
  | s :: l' => Ok (fold_left (mode_step l) l' s)
  end.

(** The local variables of [track_iou] that live across frames. *)
Record State : Type := mkState {
  tracks_active : list Track.t;
  tracks_geojson : list Feature.t;
  vehID : Z;
  vehIDs_finished : list Z;
  new_detections : list (Z * list (Z * (Det.t * bool)));
  (** The loop variable [track] of the loop over [tracks_active]: unbound
      until that loop runs once, and bound, after it, to the track its last
      iteration handled. *)
  track : option Track.t
}.

(** The variables the loop over [tracks_active] of one frame reads and writes;
    [out] is [new_detections[frame_num]]. *)
Record Locals : Type := mkLocals {
  dets : list Det.t;
  updated_tracks : list Track.t;
  saved_tracks : list Track.t;
  out : list (Z * (Det.t * bool));
  geojson : list Feature.t;
  finished_ids : list Z;
  loop_track : option Track.t
}.

Section Tracker.

  (** [iou_util.iou] *)
Variable iou : BBox -> BBox -> Q.
Variables sigma_l sigma_h sigma_iou : Q.
Variables t_min t_miss_max : Z.

  (** [max(dets, key=lambda x: iou(track["bboxes"][-1], make_bbox(x)))],
      with [dets = d0 :: ds]. *)
Definition best_match_of (trk : Track.t) (d0 : Det.t) (ds : list Det.t)
    : result Det.t :=
    last_bbox <- list_last (Track.bboxes trk) ;;
    Ok (max_by (fun x => iou last_bbox (make_bbox x)) d0 ds).

  (** Lines 76-82: the track takes the detection. *)
Definition update_track (frame_num : Z) (trk : Track.t) (best_match : Det.t)
    : Track.t :=
    Track.mk (Track.frames trk ++ [frame_num])
             (Track.bboxes trk ++ [make_bbox best_match])
             (Track.center trk ++ [center best_match])
             (Track.conf trk ++ [Det.conf best_match])
             (Track.class trk ++ [Det.class best_match])
             (Track.max_class trk)
             (py_max (Track.max_conf trk) (Det.conf best_match))
             (Track.vehID trk)
             (Track.start_frame trk)
             0%Z.

Definition increment_age (trk : Track.t) : Track.t :=
    Track.mk (Track.frames trk) (Track.bboxes trk) (Track.center trk)
             (Track.conf trk) (Track.class trk) (Track.max_class trk)
             (Track.max_conf trk) (Track.vehID trk) (Track.start_frame trk)
             (Track.age trk + 1)%Z.

  (** [track["max_conf"] >= sigma_h
       and track["frames"][-1] - track["frames"][0] >= t_min] *)
Definition finish_condition (trk : Track.t) : result bool :=
    if Qge_bool (Track.max_conf trk) sigma_h
    then
      last_frame <- list_last (Track.frames trk) ;;
      first_frame <- list_first (Track.frames trk) ;;
      Ok (t_min <=? last_frame - first_frame)%Z
    else Ok false.

Definition make_feature (trk : Track.t) : result Feature.t :=
    first_frame <- list_first (Track.frames trk) ;;
    Ok (Feature.mk (Track.center trk) (Track.max_conf trk) (Track.vehID trk)
                   first_frame None).

  (** Lines 70-90: the attempt to extend the track.  Returns the track as it
      is afterwards, the locals, and whether the track was appended to
      [updated_tracks]. *)
Definition try_match (frame_num : Z) (loc : Locals) (trk : Track.t)
    : result (Track.t * Locals * bool) :=
    match dets loc with
    | [] => Ok (trk, loc, false)
    | d0 :: ds =>
        best_match <- best_match_of trk d0 ds ;;
        last_bbox <- list_last (Track.bboxes trk) ;;
        if Qge_bool (iou last_bbox (make_bbox best_match)) sigma_iou
        then
          let trk' := update_track frame_num trk best_match in
          dets' <- del_first best_match (dets loc) ;;
          Ok (trk',
              mkLocals dets'
                       (updated_tracks loc ++ [trk'])
                       (saved_tracks loc)
                       (dict_set Z.eqb (Track.vehID trk') (best_match, false)
                                 (out loc))
                       (geojson loc) (finished_ids loc) (loop_track loc),
              true)
        else Ok (trk, loc, false)
    end.

  (** Lines 93-117: what happens to a track that was not updated.  The test
      [track is not updated_tracks[-1]] is on object identity: the tracks of
      the pool are distinct objects, so it fails exactly when this iteration
      appended the track. *)
Definition age_or_finish (loc : Locals) (trk : Track.t)
    : result (Track.t * Locals) :=
    if (Track.age trk <? t_miss_max)%Z
    then
      let trk' := increment_age trk in
      Ok (trk',
          mkLocals (dets loc) (updated_tracks loc) (saved_tracks loc ++ [trk'])
                   (out loc) (geojson loc) (finished_ids loc) (loop_track loc))
    else
      c <- finish_condition trk ;;
      if c
      then
        feature <- make_feature trk ;;
        Ok (trk,
            mkLocals (dets loc) (updated_tracks loc) (saved_tracks loc)
                     (out loc) (geojson loc ++ [feature])
                     (finished_ids loc ++ [Track.vehID trk]) (loop_track loc))
      else Ok (trk, loc).

Definition bind_loop_track (trk : Track.t) (loc : Locals) : Locals :=
    mkLocals (dets loc) (updated_tracks loc) (saved_tracks loc) (out loc)
             (geojson loc) (finished_ids loc) (Some trk).

  (** One iteration of [for track in tracks_active]. *)
Definition track_body (frame_num : Z) (loc : Locals) (trk : Track.t)
    : result Locals :=
    '(trk1, loc1, was_updated) <- try_match frame_num loc trk ;;
    if was_updated
    then Ok (bind_loop_track trk1 loc1)
    else
      '(trk2, loc2) <- age_or_finish loc1 trk1 ;;
      Ok (bind_loop_track trk2 loc2).

  (** Lines 120-139: [for det in dets]; the state is
      [(vehID, new_tracks, new_detections[frame_num])]. *)
Definition new_track (frame_num : Z) (id : Z) (det : Det.t) : Track.t :=
    Track.mk [frame_num] [make_bbox det] [center det] [Det.conf det]
             [Det.class det] (Det.class det) (Det.conf det) id frame_num 0%Z.

Definition start_track (frame_num : Z)
    (st : Z * list Track.t * list (Z * (Det.t * bool))) (det : Det.t)
    : Z * list Track.t * list (Z * (Det.t * bool)) :=
    let '(id, new_tracks, o) := st in
    let id := (id + 1)%Z in
    (id, new_tracks ++ [new_track frame_num id det],
     dict_set Z.eqb id (det, true) o).

Definition start_locals (st : State) (detections_frame : list Det.t) : Locals :=
    mkLocals (filter (fun det => Qge_bool (Det.conf det) sigma_l) detections_frame)
             [] [] [] (tracks_geojson st) (vehIDs_finished st) (track st).

  (** One iteration of [for frame_num in detections]. *)
Definition frame_body (st : State) (item : Z * list Det.t) : result State :=
    let '(frame_num, detections_frame) := item in
    loc <- for_each (track_body frame_num) (start_locals st detections_frame)
                    (tracks_active st) ;;
    let '(id, new_tracks, o) :=
      fold_left (start_track frame_num) (dets loc) (vehID st, [], out loc) in
    Ok (mkState (updated_tracks loc ++ saved_tracks loc ++ new_tracks)
                (geojson loc) id (finished_ids loc)
                (dict_set Z.eqb frame_num o (new_detections st))
                (loop_track loc)).

Definition initial_state : State := mkState [] [] 0%Z [] [] None.

Definition run_frames (detections : list (Z * list Det.t)) : result State :=
    for_each frame_body initial_state detections.

  (** Lines 151-169: the features of the tracks still active. *)
Fixpoint remaining_features (tracks : list Track.t) : result (list Feature.t) :=
    match tracks with
    | [] => Ok []
    | trk :: rest =>
        c <- finish_condition trk ;;
        if c
        then
          feature <- make_feature trk ;;
          fs <- remaining_features rest ;;
          Ok (feature :: fs)
        else remaining_features rest
    end.

  (** Lines 173-176: every feature gets the mode of the classes of the track
      the variable [track] is bound to. *)
Definition set_max_class (trk : option Track.t) (feature : Feature.t)
    : result Feature.t :=
    match trk with
    | None => Raise UnboundLocalError
    | Some tr =>
        m <- mode (Track.class tr) ;;
        Ok (Feature.mk (Feature.coordinates feature) (Feature.max_conf feature)
                       (Feature.ID feature) (Feature.start_frame feature)
                       (Some m))
    end.

  (** Lines 179-184 *)
Definition set_finished (vehIDs_finished : list Z)
    (entry : Z * (Det.t * bool)) : Z * Annotated.t :=
    let '(id, (det, first)) := entry in
    (id, Annotated.mk det first (existsb (Z.eqb id) vehIDs_finished)).

Definition annotate (vehIDs_finished : list Z)
    (new_detections : list (Z * list (Z * (Det.t * bool))))
    : list (Z * list (Z * Annotated.t)) :=
    map (fun '(frame_num, frame_det) =>
           (frame_num, map (set_finished vehIDs_finished) frame_det))
        new_detections.

  (** [detections] is the list of the items of the input dict, in its order;
      its keys are integers, so that [int(frame_num)] is [frame_num]. *)
Definition track_iou (detections : list (Z * list Det.t))
    : result (list (Z * list (Z * Annotated.t)) * list Feature.t * list Z) :=
    st <- run_frames detections ;;
    rest <- remaining_features (tracks_active st) ;;
    features <- map_result (set_max_class (track st))
                           (tracks_geojson st ++ rest) ;;
    Ok (annotate (vehIDs_finished st) (new_detections st),
        features,
        vehIDs_finished st).

End Tracker.

(** Modelled from the spec: [iou_util.iou] is imported by iou.py and is not
    among the sources.  The spec describes it as the standard
    intersection-over-union of two corner boxes, 0 when the boxes do not
    overlap or when either box has zero area. *)
Definition iou (a b : BBox) : Q :=
  let '(ax1, ay1, ax2, ay2) := a in
  let '(bx1, by1, bx2, by2) := b in
  let ow := Qmin ax2 bx2 - Qmax ax1 bx1 in
  let oh := Qmin ay2 by2 - Qmax ay1 by1 in
  if Qle_bool ow 0 || Qle_bool oh 0 then 0
  else
    let inter := ow * oh in
    let union := (ax2 - ax1) * (ay2 - ay1) + (bx2 - bx1) * (by2 - by1) - inter in
    if Qle_bool union 0 then 0 else inter / union.

End Iou.

(** * Reference definitions and sample data used by the statements *)

Module PreprocessSamples.
Import Preprocess.

(** The frames of [second] with the numbers [n+1, n+2, ...], everything else
    unchanged. *)
Definition renumbered (n : Z) (second : list Frame) : list Frame :=
  map (fun p => derive_frame_number (fst p) (snd p))
      (combine second (Zrange (n + 1) (List.length second))).

(** What a frame carries besides its number. *)
Definition payload (f : Frame) : datetime * Path * list Detection :=
  (occurrence f, input_file_path f, detections f).

Definition frame_at (n : Z) (t : datetime) (file : Path) : Frame :=
  mkFrame n t file [].

(** Two frames recorded at seconds 0 and 1, numbered 1 and 2. *)
Definition group_a : FrameGroup.t :=
  FrameGroup.mk [frame_at 1 (seconds 0) "a/1.otdet"%string;
                 frame_at 2 (seconds 1) "a/1.otdet"%string] "a"%string.

(** Three frames of a second file starting 30 seconds later, numbered from 1. *)
Definition group_b : FrameGroup.t :=
  FrameGroup.mk [frame_at 1 (seconds 31) "a/2.otdet"%string;
                 frame_at 2 (seconds 32) "a/2.otdet"%string;
                 frame_at 3 (seconds 33) "a/2.otdet"%string] "a"%string.

(** One frame recorded 61 seconds after the last frame of [group_a]. *)
Definition group_c : FrameGroup.t :=
  FrameGroup.mk [frame_at 1 (seconds 62) "a/3.otdet"%string] "a"%string.

End PreprocessSamples.

Module IouSpec.
Import Iou.
Local Open Scope Z_scope.

(** The identifiers of a list of tracks. *)
Definition ids (tracks : list Track.t) : list Z := map Track.vehID tracks.

(** Last recorded frame number minus first recorded frame number. *)
Definition frame_span (trk : Track.t) : Z :=
  List.last (Track.frames trk) 0 - List.hd 0 (Track.frames trk).

(** The finalization criteria: peak confidence and frame span. *)
Definition qualifies (sigma_h : Q) (t_min : Z) (trk : Track.t) : Prop :=
  (sigma_h <= Track.max_conf trk)%Q /\ t_min <= frame_span trk.

(** Every track dict is created with one-element histories and only ever
    appended to. *)
Definition well_formed (trk : Track.t) : Prop :=
  Track.frames trk <> [] /\ Track.bboxes trk <> [] /\ Track.class trk <> [].

(** The track [trk] of the pool of [st] is no longer in the pool of [st']. *)
Definition leaves_pool (st st' : State) (trk : Track.t) : Prop :=
  In trk (tracks_active st)
  /\ ~ In (Track.vehID trk) (ids (tracks_active st')).

(** The feature [f] is the polyline of the track [trk]. *)
Definition feature_of (trk : Track.t) (f : Feature.t) : Prop :=
  Feature.ID f = Track.vehID trk
  /\ Feature.coordinates f = Track.center trk
  /\ Feature.max_conf f = Track.max_conf trk
  /\ Feature.start_frame f = List.hd 0 (Track.frames trk).

(** The tracks and output entries the loop over the unmatched detections
    creates, the last identifier given out being [id]. *)
Fixpoint fresh_tracks (frame_num id : Z) (ds : list Det.t) : list Track.t :=
  match ds with
  | [] => []
  | d :: rest =>
      new_track frame_num (id + 1) d :: fresh_tracks frame_num (id + 1) rest
  end.

Fixpoint fresh_entries (id : Z) (ds : list Det.t) : list (Z * (Det.t * bool)) :=
  match ds with
  | [] => []
  | d :: rest => (id + 1, (d, true)) :: fresh_entries (id + 1) rest
  end.

(** [d[k] = v] for each entry [(k, v)] in turn. *)
Definition set_entries (o es : list (Z * (Det.t * bool)))
  : list (Z * (Det.t * bool)) :=
  fold_left (fun o e => dict_set Z.eqb (fst e) (snd e) o) es o.

(** What holds of the state between two frames: the tracks of the pool are
    well formed and carry distinct identifiers, none above the counter, and
    no feature carries the identifier of a track of the pool. *)
Definition pool_inv (st : State) : Prop :=
  Forall well_formed (tracks_active st)
  /\ NoDup (ids (tracks_active st))
  /\ (forall t, In t (tracks_active st) -> Track.vehID t <= vehID st)
  /\ (forall f, In f (tracks_geojson st) ->
        Feature.ID f <= vehID st
        /\ ~ In (Feature.ID f) (ids (tracks_active st))).

(** The detection of an output entry. *)
Definition entry_det (e : Z * (Det.t * bool)) : Det.t := fst (snd e).

Section Outcomes.

Variable iou : BBox -> BBox -> Q.
Variables sigma_l sigma_h sigma_iou : Q.
Variables t_min t_miss_max : Z.

(** The four ways one iteration of the loop over [tracks_active] can end. *)
Inductive outcome (frame_num : Z) (loc : Locals) (trk : Track.t)
  : Locals -> Prop :=
| Updated (best_match : Det.t) (dets' : list Det.t) :
    In best_match (dets loc) ->
    del_first best_match (dets loc) = Ok dets' ->
    outcome frame_num loc trk
      (mkLocals dets'
         (updated_tracks loc ++ [update_track frame_num trk best_match])
         (saved_tracks loc)
         (dict_set Z.eqb (Track.vehID trk) (best_match, false) (out loc))
         (geojson loc) (finished_ids loc)
         (Some (update_track frame_num trk best_match)))
| Saved :
    Track.age trk < t_miss_max ->
    outcome frame_num loc trk
      (mkLocals (dets loc) (updated_tracks loc)
         (saved_tracks loc ++ [increment_age trk])
         (out loc) (geojson loc) (finished_ids loc)
         (Some (increment_age trk)))
| Finished (feature : Feature.t) :
    t_miss_max <= Track.age trk ->
    finish_condition sigma_h t_min trk = Ok true ->
    make_feature trk = Ok feature ->
    outcome frame_num loc trk
      (mkLocals (dets loc) (updated_tracks loc) (saved_tracks loc) (out loc)
         (geojson loc ++ [feature])
         (finished_ids loc ++ [Track.vehID trk])
         (Some trk))
| Dropped :
    t_miss_max <= Track.age trk ->
    finish_condition sigma_h t_min trk = Ok false ->
    outcome frame_num loc trk (bind_loop_track trk loc).

End Outcomes.

End IouSpec.

Module IouSamples.
Import Iou.
Local Open Scope Q_scope.

Definition car : Det.t := Det.mk "car" (9 # 10) 10 10 4 4.
Definition truck : Det.t := Det.mk "truck" (8 # 10) 100 100 4 4.
(** A detection below the low threshold used in the samples. *)
Definition faint : Det.t := Det.mk "car" (1 # 20) 50 50 4 4.

(** [sigma_l = 0.1], [sigma_h = 0.5], [sigma_iou = 0.3], [t_min = 1],
    [t_miss_max = 1]. *)
Definition run_frames_sample : list (Z * list Det.t) -> result State :=
  run_frames iou (1 # 10) (1 # 2) (3 # 10) 1%Z 1%Z.

Definition track_iou_sample :
  list (Z * list Det.t)
  -> result (list (Z * list (Z * Annotated.t)) * list Feature.t * list Z) :=
  track_iou iou (1 # 10) (1 # 2) (3 # 10) 1%Z 1%Z.

(** The same car in two consecutive frames. *)
Definition one_car : list (Z * list Det.t) :=
  [(1%Z, [car]); (2%Z, [car])].

(** A car and a truck, far apart, in two consecutive frames. *)
Definition car_and_truck : list (Z * list Det.t) :=
  [(1%Z, [car; truck]); (2%Z, [car; truck])].

(** One frame with a car and a detection below [sigma_l]. *)
Definition car_and_faint : list (Z * list Det.t) :=
  [(1%Z, [car; faint])].

(** The same frame followed by a frame with the car alone. *)
Definition car_and_faint_then_car : list (Z * list Det.t) :=
  [(1%Z, [car; faint]); (2%Z, [car])].

(** The state after the first frame of [car_and_faint]. *)
Definition after_car_and_faint : State :=
  mkState [new_track 1 1 car] [] 1%Z [] [(1%Z, [(1%Z, (car, true))])] None.

(** The track of the car after the two frames of [one_car] or
    [car_and_truck]. *)
Definition car_track : Track.t :=
  update_track 2 (new_track 1 1 car) car.

Definition truck_track : Track.t :=
  update_track 2 (new_track 1 2 truck) truck.

Definition car_feature (max_class : string) : Feature.t :=
  Feature.mk [(10, 10); (10, 10)] (9 # 10) 1%Z 1%Z (Some max_class).

Definition truck_feature (max_class : string) : Feature.t :=
  Feature.mk [(100, 100); (100, 100)] (8 # 10) 2%Z 1%Z (Some max_class).

(** C3 as the specification words it: the output of every frame has an entry
    for every detection of the frame. *)
Definition carries_every_detection (detections : list (Z * list Det.t))
  (nd : list (Z * list (Z * Annotated.t))) : Prop :=
  forall frame_num detections_frame d,
    In (frame_num, detections_frame) detections ->
    In d detections_frame ->
    exists o id a,
      dict_get Z.eqb frame_num nd = Some o
      /\ In (id, a) o
      /\ Annotated.det a = d.

End IouSamples.

(** * More of track/preprocess.py: serialization and the splitter *)

Module Serialize.
Import Preprocess.

(** The dict [Detection.to_otdet] returns. *)
Record Otdet : Type := mkOtdet {
  otdet_class : string;
  otdet_confidence : Q;
  otdet_x : Q;
  otdet_y : Q;
  otdet_w : Q;
  otdet_h : Q
}.

Definition to_otdet (self : Detection) : Otdet :=
  mkOtdet (label self) (conf self) (x self) (y self) (w self) (h self).

(** The dict [Detection.to_dict] returns. *)
Record DetectionDict : Type := mkDetectionDict {
  dd_class : string;
  dd_confidence : Q;
  dd_x : Q;
  dd_y : Q;
  dd_w : Q;
  dd_h : Q;
  dd_frame : Z;
  dd_occurrence : Q;
  dd_input_file_path : string;
  dd_interpolated_detection : bool
}.

(** The dict [Frame.to_dict] returns. *)
Record FrameDict : Type := mkFrameDict {
  fd_frame : Z;
  fd_occurrence : Q;
  fd_input_file_path : string;
  fd_detections : list DetectionDict
}.

Section ToDict.

(** [datetime.timestamp()] *)
Variable timestamp : datetime -> Q.

Definition Detection_to_dict (self : Detection) (frame : Z)
  (occurrence : datetime) (input_file_path : string) : DetectionDict :=
  mkDetectionDict (label self) (conf self) (x self) (y self) (w self) (h self)
                  frame (timestamp occurrence) input_file_path false.

Definition Frame_to_dict (self : Frame) : FrameDict :=
  mkFrameDict (frame self) (timestamp (occurrence self)) (input_file_path self)
    (map (fun detection =>
            Detection_to_dict detection (frame self) (occurrence self)
                              (input_file_path self))
         (detections self)).

(** [{frame.frame: frame.to_dict() for frame in self.frames}], the value of
    the key [DATA] of [FrameGroup.to_dict]. *)
Definition FrameGroup_to_dict (self : FrameGroup.t) : list (Z * FrameDict) :=
  fold_left (fun d f => dict_set Z.eqb (frame f) (Frame_to_dict f) d)
            (FrameGroup.frames self) [].

End ToDict.

Section ReadBack.

Variable RawValue : Type.
(** A float as a raw value of the reader. *)
Variable of_float : Q -> RawValue.

(** The dict [to_otdet] returns, as [DetectionParser.convert] gets it. *)
Definition raw_of_otdet (o : Otdet) : RawDetection RawValue :=
  mkRawDetection RawValue (otdet_class o) (of_float (otdet_confidence o))
                 (of_float (otdet_x o)) (of_float (otdet_y o))
                 (of_float (otdet_w o)) (of_float (otdet_h o)).

End ReadBack.

(** The last frame of [frames] with the number [n]. *)
Definition last_with_number (n : Z) (frames : list Frame) : option Frame :=
  find (fun f => frame f =? n) (rev frames).

(** Seconds since the epoch, as a fraction. *)
Definition timestamp_seconds (t : datetime) : Q := inject_Z t / inject_Z 1000000.

End Serialize.

(** * track/preprocess.py: Splitter

    [split] assigns to [detection[FRAME]]: it changes the dicts that [tracks]
    holds, and the groups it returns hold these very dicts.  A detection
    dict is therefore a reference into a store; [tracks] and the groups hold
    references, and [split] returns the store it leaves beside its result. *)
Module Splitter.

(** [self.flatten(tracks)]: the values of the values, in order. *)
Definition flatten {A K1 K2 : Type} (frames : list (K1 * list (K2 * A)))
  : list A :=
  fold_left (fun detections track =>
               fold_left (fun detections detection => detections ++ [snd detection])
                         (snd track) detections)
            frames [].

Section Split.

(** What a detection dict holds besides the three keys the splitter reads. *)
Variable Payload : Type.

Record TrackedDetection : Type := mkTracked {
  input_file_path : string;
  frame : Z;
  track_id : Z;
  payload : Payload
}.

(** [key(a) <= key(b)] for the tuples
    [(INPUT_FILE_PATH, FRAME, TRACK_ID)]. *)
Definition key_leb (a b : TrackedDetection) : bool :=
  if String.eqb (input_file_path a) (input_file_path b)
  then
    if (frame a =? frame b)%Z
    then (track_id a <=? track_id b)%Z
    else (frame a <? frame b)%Z
  else String.ltb (input_file_path a) (input_file_path b).

Definition Ref : Type := nat.

(** The dict behind each reference. *)
Definition Store : Type := Ref -> TrackedDetection.

(** [detection[FRAME] = value] *)
Definition set_frame (store : Store) (detection : Ref) (value : Z) : Store :=
  fun r =>
    if Nat.eqb r detection
    then mkTracked (input_file_path (store r)) value (track_id (store r))
                   (payload (store r))
    else store r.

(** The store and the variables of the loop of [split]. *)
Record SplitState : Type := mkSplitState {
  store : Store;
  current_group_detections : list Ref;
  current_input_path : string;
  groups : list (string * list Ref);
  frame_offset : Z
}.

Definition split_body (st : SplitState) (detection : Ref) : SplitState :=
  let st1 :=
    if negb (String.eqb (input_file_path (store st detection))
                        (current_input_path st))
    then
      mkSplitState
        (store st)
        []
        (input_file_path (store st detection))
        (if (0 <? List.length (current_group_detections st))%nat
         then dict_set String.eqb (current_input_path st)
                       (current_group_detections st) (groups st)
         else groups st)
        (frame (store st detection) - 1)
    else st in
  mkSplitState
    (set_frame (store st1) detection
               (frame (store st1 detection) - frame_offset st1))
    (current_group_detections st1 ++ [detection])
    (current_input_path st1) (groups st1) (frame_offset st1).

(** [split]: the keys of the sort are taken before the loop changes any
    frame number. *)
Definition split {K1 K2 : Type} (store0 : Store)
  (tracks : list (K1 * list (K2 * Ref)))
  : Store * list (string * list Ref) :=
  let detections :=
    sorted_by (fun a b => key_leb (store0 a) (store0 b)) (flatten tracks) in
  let st :=
    fold_left split_body detections
              (mkSplitState store0 [] EmptyString [] 0) in
  (store st,
   if negb (String.eqb (current_input_path st) EmptyString)
   then dict_set String.eqb (current_input_path st)
                 (current_group_detections st) (groups st)
   else groups st).

(** What a dict of groups shows when its dicts are read in [store]. *)
Definition contents (store : Store) (groups : list (string * list Ref))
  : list (string * list TrackedDetection) :=
  map (fun g => (fst g, map store (snd g))) groups.

End Split.

Arguments mkTracked {Payload}.
Arguments input_file_path {Payload}.
Arguments frame {Payload}.
Arguments track_id {Payload}.
Arguments payload {Payload}.
Arguments key_leb {Payload}.
Arguments set_frame {Payload}.
Arguments mkSplitState {Payload}.
Arguments store {Payload}.
Arguments current_group_detections {Payload}.
Arguments current_input_path {Payload}.
Arguments groups {Payload}.
Arguments frame_offset {Payload}.
Arguments split_body {Payload}.
Arguments split {Payload K1 K2}.
Arguments contents {Payload}.

End Splitter.

(** * The loop of [Splitter.split] on the values of the dicts

    What the loop computes when no dict is held twice: the same steps on the
    values the dicts have before the call.  The statements on [split] are
    proved through it. *)
Module SplitterValues.
Import Splitter.

Section Values.

Variable Payload : Type.

Local Abbreviation TrackedDetection := (TrackedDetection Payload).

(** The value of a dict after [detection[FRAME] = detection[FRAME] - frame_offset] *)
Definition shift_frame (frame_offset : Z) (detection : TrackedDetection)
  : TrackedDetection :=
  mkTracked (input_file_path detection) (frame detection - frame_offset)
            (track_id detection) (payload detection).

Record SplitState : Type := mkSplitState {
  current_group_detections : list TrackedDetection;
  current_input_path : string;
  groups : list (string * list TrackedDetection);
  frame_offset : Z
}.

Definition split_body (st : SplitState) (detection : TrackedDetection)
  : SplitState :=
  let st1 :=
    if negb (String.eqb (input_file_path detection) (current_input_path st))
    then
      mkSplitState
        []
        (input_file_path detection)
        (if (0 <? List.length (current_group_detections st))%nat
         then dict_set String.eqb (current_input_path st)
                       (current_group_detections st) (groups st)
         else groups st)
        (frame detection - 1)
    else st in
  mkSplitState
    (current_group_detections st1 ++ [shift_frame (frame_offset st1) detection])
    (current_input_path st1) (groups st1) (frame_offset st1).

Definition split_detections (detections : list TrackedDetection)
  : list (string * list TrackedDetection) :=
  let st :=
    fold_left split_body (sorted_by key_leb detections)
              (mkSplitState [] EmptyString [] 0) in
  if negb (String.eqb (current_input_path st) EmptyString)
  then dict_set String.eqb (current_input_path st)
                (current_group_detections st) (groups st)
  else groups st.

(** The state on values that a state of [Splitter.split] shows. *)
Definition view (st : Splitter.SplitState Payload) : SplitState :=
  mkSplitState
    (map (store st) (Splitter.current_group_detections st))
    (Splitter.current_input_path st)
    (contents (store st) (Splitter.groups st))
    (Splitter.frame_offset st).

End Values.

Arguments shift_frame {Payload}.
Arguments mkSplitState {Payload}.
Arguments current_group_detections {Payload}.
Arguments current_input_path {Payload}.
Arguments groups {Payload}.
Arguments frame_offset {Payload}.
Arguments split_body {Payload}.
Arguments split_detections {Payload}.
Arguments view {Payload}.

(** [a <= b] on file paths. *)
Definition path_le (a b : string) : Prop := a = b \/ String.ltb a b = true.

(** The detections of the file [p] among [l], in the order of [l]. *)
Definition of_file {Payload : Type} (p : string)
  (l : list (TrackedDetection Payload)) : list (TrackedDetection Payload) :=
  filter (fun d => String.eqb (input_file_path d) p) l.

(** The detections of the file [p] with their frame numbers shifted so that
    the first is 1. *)
Definition expected_group {Payload : Type} (p : string)
  (l : list (TrackedDetection Payload))
  : option (list (TrackedDetection Payload)) :=
  match of_file p l with
  | [] => None
  | d0 :: r => Some (map (shift_frame (frame d0 - 1)) (d0 :: r))
  end.

(** What [tracks] holds: the values of its values, in order. *)
Definition values_of {A K1 K2 : Type} (tracks : list (K1 * list (K2 * A)))
  : list A :=
  List.concat (map (fun track => map snd (snd track)) tracks).

(** [(frame, track) <= (frame, track)] on two detections. *)
Definition frame_track_le {Payload : Type} (a b : TrackedDetection Payload)
  : Prop :=
  (frame a < frame b \/ (frame a = frame b /\ track_id a <= track_id b))%Z.

(** Four detection dicts, three of one file and one of another. *)
Definition sample_store : Store unit :=
  fun r =>
    match r with
    | 0%nat => mkTracked "b.otdet"%string 8 1 tt
    | 1%nat => mkTracked "a.otdet"%string 5 2 tt
    | 2%nat => mkTracked "a.otdet"%string 5 1 tt
    | _ => mkTracked "a.otdet"%string 7 1 tt
    end.

(** The four dicts as a tracker returns them: keyed by frame, then by
    track. *)
Definition sample_tracks : list (Z * list (Z * Ref)) :=
  [(8%Z, [(1%Z, 0%nat)]);
   (5%Z, [(2%Z, 1%nat); (1%Z, 2%nat)]);
   (7%Z, [(1%Z, 3%nat)])].

End SplitterValues.

(** * Reference definitions for the grouping statements *)
Module GroupingSpec.
Import Preprocess PreprocessSamples.

(** The frame numbers of a group, in order. *)
Definition numbers (g : FrameGroup.t) : list Z :=
  map frame (FrameGroup.frames g).

(** What the frames of a list of groups carry, numbers left out. *)
Definition all_payloads (groups : list FrameGroup.t)
  : list (datetime * Path * list Detection) :=
  List.concat (map (fun g => map payload (FrameGroup.frames g)) groups).

(** The files of a list of ranges, in order. *)
Definition all_files (ranges : list FrameRange.t) : list Path :=
  List.concat (map FrameRange.files ranges).

(** The second range starts more than [time_without_frames] after the end
    of the first. *)
Definition apart (time_without_frames : timedelta) (r1 r2 : FrameRange.t)
  : Prop :=
  time_without_frames < FrameRange.start_date r2 - FrameRange.end_date r1.

(** The dates of a group as a range without files. *)
Definition dates_of (s e : datetime) : FrameRange.t := FrameRange.mk [] s e.

End GroupingSpec.

(** * GroupFrameRanges._merge_groups on dates with and without a time zone

    [MISSING_START_DATE] is [datetime(1900, 1, 1)], without a time zone; the
    parsed dates are in UTC.  Python raises [TypeError] when it compares or
    subtracts a date without a time zone and one with a time zone.  Here a
    date says which of the two it is, and the comparisons of
    [_merge_groups] and of [FrameRange.merge] can raise. *)
Module Zoned.

Record zdatetime : Type := mkZoned {
  (** [tzinfo is not None] *)
  aware : bool;
  (** microseconds since the epoch, read in UTC when [tzinfo] is [None] *)
  instant : Z
}.

(** [a < b] *)
Definition lt (a b : zdatetime) : result bool :=
  if Bool.eqb (aware a) (aware b)
  then Ok (instant a <? instant b)
  else Raise TypeError.

(** [a - b] *)
Definition sub (a b : zdatetime) : result timedelta :=
  if Bool.eqb (aware a) (aware b)
  then Ok (instant a - instant b)
  else Raise TypeError.

Module FrameRange.

Record t : Type := mk {
  files : list Path;
  start_date : zdatetime;
  end_date : zdatetime
}.

Definition _merge (first second : t) : t :=
  mk (files first ++ files second) (start_date first) (end_date second).

Definition merge (self other : t) : result t :=
  b <- lt (start_date self) (start_date other) ;;
  Ok (if b then _merge self other else _merge other self).

End FrameRange.

(** [sorted(l, key=lambda r: r.start_date())]: a stable sort that compares
    the keys with [<]; [x] is put before the first range that does not start
    before it.  Whatever its algorithm, a sort compares a date of one kind
    with a date of the other as soon as the list has both, and raises. *)
Fixpoint insert_sorted (x : FrameRange.t) (l : list FrameRange.t)
  : result (list FrameRange.t) :=
  match l with
  | [] => Ok [x]
  | y :: l' =>
      b <- lt (FrameRange.start_date y) (FrameRange.start_date x) ;;
      if b
      then l'' <- insert_sorted x l' ;; Ok (y :: l'')
      else Ok (x :: y :: l')
  end.

Definition sorted_by_start (l : list FrameRange.t) : result (list FrameRange.t) :=
  fold_right (fun x acc => l' <- acc ;; insert_sorted x l') (Ok []) l.

Fixpoint merge_ranges_loop (time_without_frames : timedelta)
  (merged_ranges : list FrameRange.t) (last_range : FrameRange.t)
  (rest : list FrameRange.t) : result (list FrameRange.t) :=
  match rest with
  | [] => Ok (merged_ranges ++ [last_range])
  | current_range :: rest' =>
      gap <- sub (FrameRange.start_date current_range)
                 (FrameRange.end_date last_range) ;;
      if gap <=? time_without_frames
      then
        last_range' <- FrameRange.merge last_range current_range ;;
        merge_ranges_loop time_without_frames merged_ranges last_range' rest'
      else
        merge_ranges_loop time_without_frames
                          (merged_ranges ++ [last_range]) current_range rest'
  end.

Definition _merge_groups (time_without_frames : timedelta)
  (all_ranges : list FrameRange.t) : result (list FrameRange.t) :=
  if (1 <=? List.length all_ranges)%nat
  then
    sorted_ranges <- sorted_by_start all_ranges ;;
    match sorted_ranges with
    | [] => Raise IndexError
    | last_range :: rest =>
        merge_ranges_loop time_without_frames [] last_range rest
    end
  else Raise AssertionError.

(** The range with its dates as the module [Preprocess] reads them, and a
    range of [Preprocess] with both dates of one kind. *)
Definition erase (r : FrameRange.t) : Preprocess.FrameRange.t :=
  Preprocess.FrameRange.mk (FrameRange.files r)
                           (instant (FrameRange.start_date r))
                           (instant (FrameRange.end_date r)).

Definition zoned (kind : bool) (r : Preprocess.FrameRange.t) : FrameRange.t :=
  FrameRange.mk (Preprocess.FrameRange.files r)
                (mkZoned kind (Preprocess.FrameRange.start_date r))
                (mkZoned kind (Preprocess.FrameRange.end_date r)).

(** The files of a list of ranges, in order. *)
Definition all_files (ranges : list FrameRange.t) : list Path :=
  List.concat (map FrameRange.files ranges).

(** The second range starts more than [time_without_frames] after the end
    of the first. *)
Definition apart (time_without_frames : timedelta) (r1 r2 : FrameRange.t)
  : Prop :=
  time_without_frames
  < instant (FrameRange.start_date r2) - instant (FrameRange.end_date r1).

(** The first range does not start after the second. *)
Definition starts_before (r1 r2 : FrameRange.t) : Prop :=
  instant (FrameRange.start_date r1) <= instant (FrameRange.start_date r2).

(** The end date of every range is of the kind of its start date, as for
    the ranges of [_parse_frame_ranges], which adds a duration to the start
    date. *)
Definition well_formed (ranges : list FrameRange.t) : Prop :=
  forall r, In r ranges ->
    aware (FrameRange.end_date r) = aware (FrameRange.start_date r).

(** The start dates are all with a time zone or all without. *)
Definition one_kind (ranges : list FrameRange.t) : Prop :=
  forall r r', In r ranges -> In r' ranges ->
    aware (FrameRange.start_date r) = aware (FrameRange.start_date r').

(** Three ranges with UTC dates, the second 30 seconds after the first,
    the third ten minutes later; they are given out of order. *)
Definition three_ranges : list FrameRange.t :=
  [FrameRange.mk ["c.otdet"%string] (mkZoned true (seconds 700))
                 (mkZoned true (seconds 760));
   FrameRange.mk ["a.otdet"%string] (mkZoned true (seconds 0))
                 (mkZoned true (seconds 60));
   FrameRange.mk ["b.otdet"%string] (mkZoned true (seconds 90))
                 (mkZoned true (seconds 150))].

(** A range of a file without a recorded start date and one with a parsed
    start date. *)
Definition naive_and_aware : list FrameRange.t :=
  [FrameRange.mk ["a.otdet"%string]
                 (mkZoned false Preprocess.MISSING_START_DATE)
                 (mkZoned false (Preprocess.MISSING_START_DATE + minutes 15));
   FrameRange.mk ["b.otdet"%string] (mkZoned true (seconds 90))
                 (mkZoned true (seconds 150))].

End Zoned.

(** * Sample data for the parsing and grouping statements *)
Module ParsingSamples.
Import Preprocess.

(** Readers for raw values that are integers already: dates are epoch
    microseconds, numbers are integers. *)
Definition read_date (v : Z) : result datetime := Ok v.
Definition read_float (v : Z) : result Q := Ok (inject_Z v).
Definition read_int (v : Z) : result Z := Ok v.
Definition no_date_string (v : Z) : bool := false.
Definition same_path (p : Path) : Path := p.

Definition convert_sample :
  Path -> list (Z * RawFrame Z) -> Z -> result FrameGroup.t :=
  FrameGroupParser_convert Z no_date_string read_date read_date read_float
                           read_int same_path.

(** Three frames given out of chronological order. *)
Definition unordered_frames : list (Z * RawFrame Z) :=
  [(3, mkRawFrame Z 30 []);
   (1, mkRawFrame Z 10 [mkRawDetection Z "car"%string 1 2 3 4 5]);
   (2, mkRawFrame Z 20 [])].

Definition ordered_group : FrameGroup.t :=
  FrameGroup.mk
    [mkFrame 1 10 "a/1.otdet"%string
       [mkDetection "car"%string (inject_Z 1) (inject_Z 2) (inject_Z 3) (inject_Z 4)
                    (inject_Z 5)];
     mkFrame 2 20 "a/1.otdet"%string [];
     mkFrame 3 30 "a/1.otdet"%string []]
    "a/1.otdet"%string.

(** A group without frames, as a file with an empty [data] gives. *)
Definition empty_group : FrameGroup.t := FrameGroup.mk [] "a"%string.

End ParsingSamples.

(** * Reference definitions for further statements on track/iou.py *)
Module IouMoreSpec.
Import Iou IouSpec.

(** The detection is eligible for matching. *)
Definition eligible (sigma_l : Q) (d : Det.t) : Prop :=
  (sigma_l <= Det.conf d)%Q.

(** No detection of the frame is eligible. *)
Definition no_eligible (sigma_l : Q) (item : Z * list Det.t) : Prop :=
  forall d, In d (snd item) -> (Det.conf d < sigma_l)%Q.

(** The histories of a track have one entry per matched frame, its maximum
    confidence is the largest recorded one, and its start is its first
    frame. *)
Definition consistent (trk : Track.t) : Prop :=
  List.length (Track.bboxes trk) = List.length (Track.frames trk)
  /\ List.length (Track.center trk) = List.length (Track.frames trk)
  /\ List.length (Track.conf trk) = List.length (Track.frames trk)
  /\ List.length (Track.class trk) = List.length (Track.frames trk)
  /\ In (Track.max_conf trk) (Track.conf trk)
  /\ Forall (fun c => (c <= Track.max_conf trk)%Q) (Track.conf trk)
  /\ List.hd_error (Track.frames trk) = Some (Track.start_frame trk)
  /\ List.hd_error (Track.class trk) = Some (Track.max_class trk).

(** Lines 76-82, as the source words them: [t'] is the track [t] after it
    took the detection [d] in the frame [frame_num].  The frame number, the
    box, the centre, the confidence and the class of [d] are appended to the
    histories, [max_conf] is the larger of the two confidences, the age is 0
    and the other keys are as they were. *)
Definition records (frame_num : Z) (d : Det.t) (t t' : Track.t) : Prop :=
  Track.frames t' = Track.frames t ++ [frame_num]
  /\ Track.bboxes t' = Track.bboxes t ++ [make_bbox d]
  /\ Track.center t' = Track.center t ++ [(Det.x d, Det.y d)]
  /\ Track.conf t' = Track.conf t ++ [Det.conf d]
  /\ Track.class t' = Track.class t ++ [Det.class d]
  /\ ((Track.max_conf t < Det.conf d)%Q -> Track.max_conf t' = Det.conf d)
  /\ ((Det.conf d <= Track.max_conf t)%Q ->
      Track.max_conf t' = Track.max_conf t)
  /\ Track.age t' = 0%Z
  /\ Track.vehID t' = Track.vehID t
  /\ Track.start_frame t' = Track.start_frame t
  /\ Track.max_class t' = Track.max_class t.

(** Lines 124-135: [t'] is the track that the detection [d] starts in the
    frame [frame_num] under the identifier [id]. *)
Definition starts (frame_num id : Z) (d : Det.t) (t' : Track.t) : Prop :=
  Track.frames t' = [frame_num]
  /\ Track.bboxes t' = [make_bbox d]
  /\ Track.center t' = [(Det.x d, Det.y d)]
  /\ Track.conf t' = [Det.conf d]
  /\ Track.class t' = [Det.class d]
  /\ Track.max_class t' = Det.class d
  /\ Track.max_conf t' = Det.conf d
  /\ Track.vehID t' = id
  /\ Track.start_frame t' = frame_num
  /\ Track.age t' = 0%Z.


(** The detections of the whole input with confidence at least [sigma_l],
    in the order of the frames. *)
Definition eligible_detections (sigma_l : Q) (detections : list (Z * list Det.t))
  : list Det.t :=
  flat_map (fun item =>
              filter (fun det => Qge_bool (Det.conf det) sigma_l) (snd item))
           detections.

(** The car of the samples one unit further, with another confidence. *)
Definition car_moved : Det.t := Det.mk "car" (17 # 20)%Q 11%Q 10%Q 4%Q 4%Q.

(** A car and a faint detection, then the car moved and a truck. *)
Definition car_moves_truck_comes : list (Z * list Det.t) :=
  [(1%Z, [IouSamples.car; IouSamples.faint]);
   (2%Z, [car_moved; IouSamples.truck])].

(** What [track_iou_sample] returns for [car_moves_truck_comes]. *)
Definition car_moves_truck_comes_output
  : list (Z * list (Z * Annotated.t)) * list Feature.t * list Z :=
  ([(1%Z, [(1%Z, Annotated.mk IouSamples.car true false)]);
    (2%Z, [(1%Z, Annotated.mk car_moved false false);
           (2%Z, Annotated.mk IouSamples.truck true false)])],
   [Feature.mk [(10%Q, 10%Q); (11%Q, 10%Q)] (9 # 10)%Q 1%Z 1%Z (Some "car"%string)],
   []).





(** The locals of a frame in which the car of the samples is the only
    eligible detection and nothing has happened yet. *)
Definition locals_with_car : Locals := mkLocals [IouSamples.car] [] [] [] [] [] None.

End IouMoreSpec.

(** * Properties of track/preprocess.py *)

Section ListFacts.

Context {A : Type}.

Lemma list_last_app (l : list A) (x : A) : list_last (l ++ [x]) = Ok x.
Proof.
  induction l as [|y l IH]; [reflexivity|].
  simpl. destruct (l ++ [x]) eqn:E; [destruct l; discriminate|exact IH].
Qed.

Lemma list_last_cons (x : A) (l : list A) :
  exists y, list_last (x :: l) = Ok y.
Proof.
  revert x. induction l as [|z l IH]; intros x; [now exists x|].
  destruct (IH z) as [y Hy]. exists y. exact Hy.
Qed.

Lemma list_last_In (l : list A) (x : A) : list_last l = Ok x -> In x l.
Proof.
  induction l as [|y l IH]; [discriminate|].
  destruct l as [|z l]; simpl.
  - intros [= ->]. now left.
  - intros H. right. apply IH. exact H.
Qed.

Lemma list_first_ok (l : list A) (x : A) :
  list_first l = Ok x -> exists l', l = x :: l'.
Proof. destruct l; [discriminate|intros [= ->]; eauto]. Qed.

End ListFacts.

Lemma Zrange_length (s : Z) (n : nat) : List.length (Zrange s n) = n.
Proof. revert s. induction n; intros; simpl; congruence. Qed.

Lemma Zrange_app (s : Z) (n m : nat) :
  Zrange s (n + m) = Zrange s n ++ Zrange (s + Z.of_nat n) m.
Proof.
  revert s. induction n as [|n IH]; intros s.
  - simpl. now rewrite Z.add_0_r.
  - cbn [Nat.add Zrange app]. rewrite IH. do 3 f_equal. lia.
Qed.

Lemma Zrange_bounds (s : Z) (n : nat) (k : Z) :
  In k (Zrange s n) <-> s <= k < s + Z.of_nat n.
Proof.
  revert s. induction n as [|n IH]; intros s; simpl Zrange.
  - simpl. lia.
  - simpl In. rewrite IH. lia.
Qed.

Lemma Zrange_increasing (s : Z) (n : nat) : StronglySorted Z.lt (Zrange s n).
Proof.
  revert s. induction n as [|n IH]; intros s; simpl; constructor.
  - apply IH.
  - apply Forall_forall. intros k Hk. apply Zrange_bounds in Hk. lia.
Qed.

Lemma Zrange_NoDup (s : Z) (n : nat) : NoDup (Zrange s n).
Proof.
  revert s. induction n as [|n IH]; intros s; simpl; constructor.
  - rewrite Zrange_bounds. lia.
  - apply IH.
Qed.

Lemma Zrange_last (s : Z) (n : nat) :
  list_last (Zrange s (S n)) = Ok (s + Z.of_nat n).
Proof.
  revert s. induction n as [|n IH]; intros s.
  - simpl. f_equal. lia.
  - change (Zrange s (S (S n))) with (s :: Zrange (s + 1) (S n)).
    change (list_last (s :: Zrange (s + 1) (S n)))
      with (list_last (Zrange (s + 1) (S n))).
    rewrite IH. f_equal. lia.
Qed.

Lemma list_last_map {A B : Type} (f : A -> B) (l : list A) (x : A) :
  list_last l = Ok x -> list_last (map f l) = Ok (f x).
Proof.
  induction l as [|y l IH]; [discriminate|].
  destruct l as [|z l].
  - simpl. now intros [= ->].
  - intros H. change (list_last (map f (z :: l)) = Ok (f x)). apply IH. exact H.
Qed.

Module PreprocessFacts.
Import Preprocess PreprocessSamples.

Lemma renumber_spec (second : list Frame) :
  forall (acc : list Frame) (n : Z),
    FrameGroup.renumber acc n second = acc ++ renumbered n second.
Proof.
  induction second as [|f rest IH]; intros acc n.
  - unfold renumbered. simpl. now rewrite app_nil_r.
  - simpl FrameGroup.renumber. rewrite IH, <- app_assoc. reflexivity.
Qed.

Lemma renumbered_numbers (n : Z) (second : list Frame) :
  map frame (renumbered n second) = Zrange (n + 1) (List.length second).
Proof.
  unfold renumbered. generalize (n + 1). 
  induction second as [|f rest IH]; intros s; [reflexivity|].
  simpl. f_equal. apply IH.
Qed.

Lemma renumbered_length (n : Z) (second : list Frame) :
  List.length (renumbered n second) = List.length second.
Proof.
  rewrite <- (length_map frame), renumbered_numbers. apply Zrange_length.
Qed.

Lemma renumbered_payload (n : Z) (second : list Frame) :
  map (fun f => (occurrence f, input_file_path f, detections f))
      (renumbered n second)
  = map (fun f => (occurrence f, input_file_path f, detections f)) second.
Proof.
  unfold renumbered. generalize (n + 1).
  induction second as [|f rest IH]; intros s; [reflexivity|].
  simpl. f_equal. apply IH.
Qed.

Lemma merge_ok (A B : FrameGroup.t) (fa fb : Frame) (ra rb : list Frame) :
  FrameGroup.frames A = fa :: ra ->
  FrameGroup.frames B = fb :: rb ->
  exists G, FrameGroup.merge A B = Ok G /\
    List.length (FrameGroup.frames G)
    = (List.length (FrameGroup.frames A) + List.length (FrameGroup.frames B))%nat.
Proof.
  intros HA HB. unfold FrameGroup.merge, FrameGroup.start_date.
  rewrite HA, HB. simpl.
  destruct (occurrence fa <? occurrence fb); unfold FrameGroup._merge.
  - rewrite HA. destruct (list_last_cons fa ra) as [l Hl]. rewrite Hl. simpl.
    eexists. split; [reflexivity|]. simpl.
    rewrite renumber_spec, length_app, renumbered_length, HB. reflexivity.
  - rewrite HB. destruct (list_last_cons fb rb) as [l Hl]. rewrite Hl. simpl.
    eexists. split; [reflexivity|]. simpl.
    rewrite renumber_spec, length_app, renumbered_length, HA. simpl. lia.
Qed.

(** C5: when the frames of [A] are numbered 1..N and [A] starts before [B],
    [A.merge(B)] succeeds and its frames are the frames of [A] followed by the
    frames of [B] renumbered N+1..N+M: the numbers of the result are exactly
    1..N+M, strictly increasing and without repeats, and nothing but the
    number of a frame of [B] changes. *)
Theorem FrameGroup_merge_renumbers_contiguously
  (A B : FrameGroup.t) (a b : datetime) :
  FrameGroup.start_date A = Ok a ->
  FrameGroup.start_date B = Ok b ->
  a < b ->
  map frame (FrameGroup.frames A) = Zrange 1 (List.length (FrameGroup.frames A)) ->
  let N := List.length (FrameGroup.frames A) in
  let M := List.length (FrameGroup.frames B) in
  exists G,
    FrameGroup.merge A B = Ok G
    /\ FrameGroup.frames G
       = FrameGroup.frames A ++ renumbered (Z.of_nat N) (FrameGroup.frames B)
    /\ map frame (FrameGroup.frames G) = Zrange 1 (N + M)
    /\ map payload (FrameGroup.frames G)
       = map payload (FrameGroup.frames A ++ FrameGroup.frames B)
    /\ StronglySorted Z.lt (map frame (FrameGroup.frames G))
    /\ NoDup (map frame (FrameGroup.frames G))
    /\ FrameGroup.order_key G = FrameGroup.order_key A.
Proof.
  intros Ha Hb Hlt Hnum. cbv zeta.
  unfold FrameGroup.start_date in Ha, Hb.
  remember (List.length (FrameGroup.frames A)) as N eqn:EN.
  remember (List.length (FrameGroup.frames B)) as M eqn:EM.
  destruct (FrameGroup.frames A) as [|fa ra] eqn:EA; [discriminate|].
  destruct (FrameGroup.frames B) as [|fb rb] eqn:EB; [discriminate|].
  simpl in Ha, Hb. injection Ha as Ha. injection Hb as Hb.
  assert (Hlast : exists lf, list_last (fa :: ra) = Ok lf /\ frame lf = Z.of_nat N).
  { destruct (list_last_cons fa ra) as [lf Hlf]. exists lf. split; [exact Hlf|].
    apply (list_last_map frame) in Hlf. rewrite Hnum, EN in Hlf.
    change (List.length (fa :: ra)) with (S (List.length ra)) in Hlf.
    rewrite Zrange_last in Hlf.
    assert (Hn : frame lf = 1 + Z.of_nat (List.length ra)) by congruence.
    rewrite Hn, EN. change (List.length (fa :: ra)) with (S (List.length ra)).
    lia. }
  destruct Hlast as (lf & Hlf & Hlfn).
  assert (Hnums : map frame ((fa :: ra) ++ renumbered (Z.of_nat N) (fb :: rb))
                  = Zrange 1 (N + M)).
  { rewrite map_app, renumbered_numbers, Hnum, Zrange_app, <- EM.
    do 2 f_equal. lia. }
  exists (FrameGroup.mk ((fa :: ra) ++ renumbered (Z.of_nat N) (fb :: rb))
                        (FrameGroup.order_key A)).
  split.
  { unfold FrameGroup.merge, FrameGroup.start_date. rewrite EA, EB. simpl bind.
    subst a b. apply Z.ltb_lt in Hlt. rewrite Hlt.
    unfold FrameGroup._merge. rewrite EA, Hlf. simpl bind.
    rewrite renumber_spec, Hlfn, EB. reflexivity. }
  cbn [FrameGroup.frames FrameGroup.order_key].
  split; [reflexivity|]. split; [exact Hnums|]. split.
  { rewrite !map_app. f_equal. apply renumbered_payload. }
  rewrite Hnums. split; [apply Zrange_increasing|]. split; [apply Zrange_NoDup|].
  reflexivity.
Qed.

Lemma FrameGroup_merge_renumbers_contiguously_witness :
  exists G,
    FrameGroup.merge group_a group_b = Ok G
    /\ FrameGroup.frames G
       = FrameGroup.frames group_a
         ++ renumbered 2 (FrameGroup.frames group_b)
    /\ map frame (FrameGroup.frames G) = [1; 2; 3; 4; 5]
    /\ map payload (FrameGroup.frames G)
       = map payload (FrameGroup.frames group_a ++ FrameGroup.frames group_b)
    /\ StronglySorted Z.lt (map frame (FrameGroup.frames G))
    /\ NoDup (map frame (FrameGroup.frames G))
    /\ FrameGroup.order_key G = FrameGroup.order_key group_a.
Proof.
  apply (FrameGroup_merge_renumbers_contiguously group_a group_b
           (seconds 0) (seconds 31)).
  - reflexivity.
  - reflexivity.
  - vm_compute. reflexivity.
  - reflexivity.
Defined.

Lemma merge_groups_loop_snoc (time_without_frames : timedelta)
  (rest : list FrameGroup.t) (candidate : FrameGroup.t) :
  forall merged_groups last_group out chain,
    merge_groups_loop time_without_frames merged_groups last_group rest
    = Ok (out ++ [chain]) ->
    merge_groups_loop time_without_frames merged_groups last_group
                      (rest ++ [candidate])
    = merge_groups_loop time_without_frames out chain [candidate].
Proof.
  induction rest as [|g rest IH]; intros merged_groups last_group out chain H.
  - cbn [merge_groups_loop app] in H. injection H as H.
    apply app_inj_tail in H. destruct H as [-> ->]. reflexivity.
  - cbn [merge_groups_loop app] in H |- *.
    destruct (FrameGroup.start_date g) as [s|]; [|discriminate].
    destruct (FrameGroup.end_date last_group) as [e|]; [|discriminate].
    cbn [bind] in H |- *. destruct (s - e <=? time_without_frames).
    + destruct (FrameGroup.merge last_group g) as [m|]; [|discriminate].
      cbn [bind] in H |- *. now apply IH.
    + now apply IH.
Qed.

(** What [Preprocess._merge_groups] returns ends with the chain it was
    building. *)
Lemma merge_groups_returns_a_chain (time_without_frames : timedelta)
  (groups merged : list FrameGroup.t) :
  _merge_groups time_without_frames groups = Ok merged ->
  exists out chain, merged = out ++ [chain].
Proof.
  unfold _merge_groups. destruct groups as [|g0 rest]; [discriminate|].
  assert (H : forall m,
             merge_groups_loop time_without_frames m g0 rest = Ok merged ->
             exists out chain, merged = out ++ [chain]); [|apply H].
  revert g0.
  induction rest as [|g rest IH]; intros g0 m; cbn [merge_groups_loop].
  - intros H. injection H as <-. now exists m, g0.
  - destruct (FrameGroup.start_date g) as [s|]; [|discriminate].
    destruct (FrameGroup.end_date g0) as [e|]; [|discriminate].
    cbn [bind]. destruct (s - e <=? time_without_frames).
    + destruct (FrameGroup.merge g0 g) as [m'|]; [|discriminate].
      cbn [bind]. apply IH.
    + apply IH.
Qed.

(** C6: let [Preprocess._merge_groups], with its limit [time_without_frames],
    have returned the groups [out] followed by the chain [chain] for the
    groups [groups].  Given one more group [candidate] after them, it merges
    the candidate into the chain exactly when the start of the candidate
    minus the end of the chain is at most [time_without_frames] (the bound
    included): it then returns [out] followed by the merge of the two, and
    otherwise [out], the chain and the candidate as the chain of its own.
    The candidate is compared with the chain only: the groups are taken in
    the order given.  So two groups 61 seconds apart stay two groups with a
    limit of 60 seconds. *)
Theorem merge_groups_gap_policy
  (time_without_frames : timedelta)
  (groups out : list FrameGroup.t)
  (chain candidate : FrameGroup.t) (s e : datetime) :
  _merge_groups time_without_frames groups = Ok (out ++ [chain]) ->
  FrameGroup.start_date candidate = Ok s ->
  FrameGroup.end_date chain = Ok e ->
  (s - e <= time_without_frames ->
     exists g,
       FrameGroup.merge chain candidate = Ok g
       /\ List.length (FrameGroup.frames g)
          = (List.length (FrameGroup.frames chain)
             + List.length (FrameGroup.frames candidate))%nat
       /\ _merge_groups time_without_frames (groups ++ [candidate])
          = Ok (out ++ [g]))
  /\ (time_without_frames < s - e ->
        _merge_groups time_without_frames (groups ++ [candidate])
        = Ok (out ++ [chain; candidate]))
  /\ (forall merged,
        _merge_groups time_without_frames (groups ++ [candidate]) = Ok merged ->
        (List.length merged = List.length (out ++ [chain])
         <-> s - e <= time_without_frames)).
Proof.
  intros Hret Hs He.
  assert (Hmerge : exists g,
             FrameGroup.merge chain candidate = Ok g
             /\ List.length (FrameGroup.frames g)
                = (List.length (FrameGroup.frames chain)
                   + List.length (FrameGroup.frames candidate))%nat).
  { unfold FrameGroup.start_date in Hs. unfold FrameGroup.end_date in He.
    destruct (FrameGroup.frames candidate) as [|fc rc] eqn:EC; [discriminate|].
    destruct (FrameGroup.frames chain) as [|fl rl] eqn:EL; [discriminate|].
    destruct (merge_ok chain candidate fl fc rl rc EL EC) as (g & Hg & Hlen).
    exists g. rewrite EL, EC in Hlen. auto. }
  destruct Hmerge as (g & Hg & Hlen).
  assert (Hstep : _merge_groups time_without_frames (groups ++ [candidate])
                  = if s - e <=? time_without_frames
                    then Ok (out ++ [g])
                    else Ok (out ++ [chain; candidate])).
  { unfold _merge_groups in Hret |- *.
    destruct groups as [|g0 rest]; [discriminate|]. cbn [app].
    rewrite (merge_groups_loop_snoc _ _ _ _ _ _ _ Hret).
    cbn [merge_groups_loop]. rewrite Hs, He. cbn [bind].
    destruct (s - e <=? time_without_frames).
    - rewrite Hg. reflexivity.
    - rewrite <- app_assoc. reflexivity. }
  split; [|split].
  - intros Hgap. exists g. split; [exact Hg|]. split; [exact Hlen|].
    apply Z.leb_le in Hgap. now rewrite Hstep, Hgap.
  - intros Hgap. apply Z.leb_gt in Hgap. now rewrite Hstep, Hgap.
  - intros merged Hm. rewrite Hstep in Hm.
    destruct (Z.leb_spec (s - e) time_without_frames) as [Hgap|Hgap];
      injection Hm as <-; rewrite !length_app; cbn [List.length]; lia.
Qed.

Lemma merge_groups_gap_policy_witness :
  _merge_groups (seconds 60) [group_a] = Ok ([] ++ [group_a])
  /\ FrameGroup.start_date group_c = Ok (seconds 62)
  /\ FrameGroup.end_date group_a = Ok (seconds 1)
  /\ _merge_groups (seconds 60) ([group_a] ++ [group_c])
     = Ok ([] ++ [group_a; group_c]).
Proof.
  assert (Hret : _merge_groups (seconds 60) [group_a] = Ok ([] ++ [group_a]))
    by reflexivity.
  assert (Hs : FrameGroup.start_date group_c = Ok (seconds 62)) by reflexivity.
  assert (He : FrameGroup.end_date group_a = Ok (seconds 1)) by reflexivity.
  split; [exact Hret|]. split; [exact Hs|]. split; [exact He|].
  apply (proj1 (proj2 (merge_groups_gap_policy (seconds 60) [group_a] []
                         group_a group_c (seconds 62) (seconds 1)
                         Hret Hs He))).
  vm_compute. reflexivity.
Defined.

(** C8: with no input file, [Preprocess.process] returns no frame group and
    empty metadata, and [GroupFrameRanges.group_files] returns no frame
    range; neither raises. *)
Theorem empty_input_gives_empty_result
  (RawValue Metadata : Type)
  (is_date_string : RawValue -> bool)
  (parse_date_string_to_utc_datime
     parse_timestamp_string_to_utc_datetime : RawValue -> result datetime)
  (float : RawValue -> result Q) (int : RawValue -> result Z)
  (parent : Path -> Path)
  (get_metadata : Recording RawValue -> result Metadata)
  (time_without_frames : timedelta) (frame_offset : Z) :
  process RawValue is_date_string parse_date_string_to_utc_datime
          parse_timestamp_string_to_utc_datetime float int parent
          Metadata get_metadata time_without_frames [] frame_offset
  = Ok ([], [])
  /\ group_files RawValue is_date_string parse_date_string_to_utc_datime
                 parse_timestamp_string_to_utc_datetime int
                 time_without_frames []
     = Ok [].
Proof. split; reflexivity. Qed.

(** C10: [a.merge(b)] puts first the range that starts strictly earlier ([b]
    when both start together); the result has the files of the first range
    followed by those of the second, the smaller of the two start dates, and
    the end date of the second range, even when the first range ends later:
    then the merged end date is before the end date of the first range. *)
Theorem FrameRange_merge_keeps_later_range_end (a b : FrameRange.t) :
  let first := if FrameRange.start_date a <? FrameRange.start_date b then a else b in
  let second := if FrameRange.start_date a <? FrameRange.start_date b then b else a in
  let m := FrameRange.merge a b in
  FrameRange.start_date first <= FrameRange.start_date second
  /\ FrameRange.files m = FrameRange.files first ++ FrameRange.files second
  /\ FrameRange.start_date m
     = Z.min (FrameRange.start_date a) (FrameRange.start_date b)
  /\ FrameRange.end_date m = FrameRange.end_date second
  /\ (FrameRange.end_date second < FrameRange.end_date first ->
        FrameRange.end_date m < FrameRange.end_date first
        /\ FrameRange.end_date m
           < Z.max (FrameRange.end_date a) (FrameRange.end_date b)).
Proof.
  unfold FrameRange.merge.
  destruct (FrameRange.start_date a <? FrameRange.start_date b) eqn:E; simpl.
  - apply Z.ltb_lt in E. repeat split; lia.
  - apply Z.ltb_ge in E. repeat split; lia.
Qed.

End PreprocessFacts.

(** * Properties of track/iou.py *)

Section ForEach.

Context {S A : Type} (body : S -> A -> result S).

Lemma for_each_app (l1 l2 : list A) (st : S) :
  for_each body st (l1 ++ l2)
  = bind (for_each body st l1) (fun st1 => for_each body st1 l2).
Proof.
  revert st. induction l1 as [|x l1 IH]; intros st; [reflexivity|].
  simpl. destruct (body st x); simpl; [apply IH|reflexivity].
Qed.

Lemma for_each_snoc (l : list A) (x : A) (st st' : S) :
  for_each body st (l ++ [x]) = Ok st' ->
  exists st1, for_each body st l = Ok st1 /\ body st1 x = Ok st'.
Proof.
  rewrite for_each_app. destruct (for_each body st l) as [st1|]; [|discriminate].
  simpl. destruct (body st1 x) eqn:E; [|discriminate].
  intros [= <-]. eauto.
Qed.

(** Invariant rule for a loop: [P pre st] relates the elements already
    handled to the state. *)
Lemma for_each_invariant (P : list A -> S -> Prop) (whole : list A) :
  (forall pre x post st st',
      whole = pre ++ x :: post -> P pre st -> body st x = Ok st' ->
      P (pre ++ [x]) st') ->
  forall st0 st', P [] st0 -> for_each body st0 whole = Ok st' -> P whole st'.
Proof.
  intros Hstep st0.
  assert (G : forall post pre st st',
             whole = pre ++ post -> P pre st ->
             for_each body st post = Ok st' -> P whole st').
  { induction post as [|x post IH]; intros pre st st' Hw HP Hrun.
    - simpl in Hrun. injection Hrun as <-. rewrite Hw, app_nil_r. exact HP.
    - simpl in Hrun. destruct (body st x) as [st1|] eqn:E; [|discriminate].
      simpl in Hrun. apply (IH (pre ++ [x]) st1 st'); auto.
      + rewrite <- app_assoc. exact Hw.
      + apply (Hstep pre x post st st1); auto. }
  intros st' HP Hrun. apply (G whole [] st0 st'); auto.
Qed.

Lemma for_each_prefix_ok (l1 l2 : list A) (st st' : S) :
  for_each body st (l1 ++ l2) = Ok st' ->
  exists st1, for_each body st l1 = Ok st1 /\ for_each body st1 l2 = Ok st'.
Proof.
  rewrite for_each_app. destruct (for_each body st l1) as [st1|]; [|discriminate].
  simpl. eauto.
Qed.

End ForEach.

Lemma map_result_ok {A B : Type} (f : A -> result B) (l : list A) (l' : list B) :
  map_result f l = Ok l' -> Forall2 (fun a b => f a = Ok b) l l'.
Proof.
  revert l'. induction l as [|a l IH]; intros l' H.
  - injection H as <-. constructor.
  - simpl in H. destruct (f a) as [b|] eqn:E; [|discriminate]. simpl in H.
    destruct (map_result f l) as [bs|]; [|discriminate]. simpl in H.
    injection H as <-. constructor; auto.
Qed.

Lemma list_last_default {A : Type} (l : list A) (x d : A) :
  list_last l = Ok x -> List.last l d = x.
Proof.
  induction l as [|y l IH]; [discriminate|].
  destruct l as [|z l].
  - simpl. now intros [= ->].
  - intros H. change (List.last (z :: l) d = x). apply IH. exact H.
Qed.

Lemma list_last_nonempty {A : Type} (l : list A) :
  l <> [] -> exists x, list_last l = Ok x.
Proof. destruct l as [|x l]; [congruence|]. intros _. apply list_last_cons. Qed.

Lemma list_first_nonempty {A : Type} (l : list A) :
  l <> [] -> exists x, list_first l = Ok x.
Proof. destruct l as [|x l]; [congruence|]. intros _. now exists x. Qed.

Lemma NoDup_map_inj {A B : Type} (f : A -> B) (l : list A) (a b : A) :
  NoDup (map f l) -> In a l -> In b l -> f a = f b -> a = b.
Proof.
  induction l as [|x l IH]; simpl; [tauto|].
  intros Hnd Ha Hb Hf. inversion Hnd as [|? ? Hnotin Hnd']; subst.
  destruct Ha as [->|Ha], Hb as [->|Hb]; auto.
  - exfalso. apply Hnotin. rewrite Hf. now apply in_map.
  - exfalso. apply Hnotin. rewrite <- Hf. now apply in_map.
Qed.

Section DictFacts.

Context {V : Type}.

Lemma dict_set_fresh (k : Z) (v : V) (d : list (Z * V)) :
  ~ In k (map fst d) -> dict_set Z.eqb k v d = d ++ [(k, v)].
Proof.
  induction d as [|[k' v'] d IH]; simpl; [reflexivity|].
  intros H. destruct (Z.eqb_spec k' k) as [->|Hne]; [tauto|].
  f_equal. apply IH. tauto.
Qed.

Lemma dict_get_set (k k' : Z) (v : V) (d : list (Z * V)) :
  dict_get Z.eqb k (dict_set Z.eqb k' v d)
  = if (k' =? k)%Z then Some v else dict_get Z.eqb k d.
Proof.
  induction d as [|[k2 v2] d IH]; simpl.
  - reflexivity.
  - destruct (Z.eqb_spec k2 k') as [->|Hne]; simpl.
    + destruct (Z.eqb_spec k' k); reflexivity.
    + destruct (Z.eqb_spec k2 k) as [->|Hne2].
      * destruct (Z.eqb_spec k' k); [congruence|reflexivity].
      * exact IH.
Qed.

Lemma dict_set_In (k : Z) (v : V) (d : list (Z * V)) (e : Z * V) :
  In e (dict_set Z.eqb k v d) -> e = (k, v) \/ In e d.
Proof.
  induction d as [|[k' v'] d IH]; simpl.
  - intros [<-|[]]. now left.
  - destruct (Z.eqb k' k); simpl.
    + intros [<-|H]; auto.
    + intros [<-|H]; auto. destruct (IH H); auto.
Qed.

Lemma dict_get_absent (k : Z) (d : list (Z * V)) :
  ~ In k (map fst d) -> dict_get Z.eqb k d = None.
Proof.
  induction d as [|[k' v'] d IH]; [reflexivity|].
  cbn [dict_get map fst In]. intros H.
  destruct (Z.eqb_spec k' k) as [->|Hne]; [exfalso; apply H; now left|].
  apply IH. intros Hin. apply H. now right.
Qed.



End DictFacts.

Module IouFacts.
Import Iou IouSpec IouMoreSpec.
Local Open Scope Z_scope.

Lemma Q_eqb_eq (a b : Q) : Q_eqb a b = true <-> a = b.
Proof.
  unfold Q_eqb. destruct a as [an ad], b as [bn bd]. simpl.
  rewrite andb_true_iff, Z.eqb_eq, Pos.eqb_eq. split.
  - intros [-> ->]. reflexivity.
  - intros [= -> ->]. auto.
Qed.

Lemma Det_eqb_eq (a b : Det.t) : Det.eqb a b = true <-> a = b.
Proof.
  unfold Det.eqb. destruct a, b. simpl.
  rewrite !andb_true_iff, String.eqb_eq, !Q_eqb_eq. split.
  - intros [[[[[-> ->] ->] ->] ->] ->]. reflexivity.
  - intros [= -> -> -> -> -> ->]. repeat split.
Qed.

Lemma del_first_ok (d : Det.t) (l : list Det.t) :
  In d l -> exists l', del_first d l = Ok l'.
Proof.
  induction l as [|x l IH]; simpl; [tauto|].
  intros H. destruct (Det.eqb x d) eqn:E; [eauto|].
  destruct H as [->|H].
  - assert (Det.eqb d d = true) by now apply Det_eqb_eq. congruence.
  - destruct (IH H) as [l' ->]. simpl. eauto.
Qed.

Lemma del_first_perm (d : Det.t) (l l' : list Det.t) :
  del_first d l = Ok l' -> Permutation l (d :: l').
Proof.
  revert l'. induction l as [|x l IH]; intros l'; simpl; [discriminate|].
  destruct (Det.eqb x d) eqn:E.
  - intros [= <-]. apply Det_eqb_eq in E. subst. reflexivity.
  - destruct (del_first d l) as [r|]; [|discriminate]. simpl.
    intros [= <-]. rewrite (IH r eq_refl). apply perm_swap.
Qed.

Lemma max_by_In {A : Type} (key : A -> Q) (l : list A) (best : A) :
  In (max_by key best l) (best :: l).
Proof.
  revert best. induction l as [|x l IH]; intros best; simpl; [auto|].
  destruct (IH (if Qgt_bool (key x) (key best) then x else best)) as [H|H].
  - destruct (Qgt_bool (key x) (key best)); auto.
  - auto.
Qed.

Section TrackerFacts.

Variable iou : BBox -> BBox -> Q.
Variables sigma_l sigma_h sigma_iou : Q.
Variables t_min t_miss_max : Z.

Local Abbreviation track_body :=
  (Iou.track_body iou sigma_h sigma_iou t_min t_miss_max).
Local Abbreviation frame_body :=
  (Iou.frame_body iou sigma_l sigma_h sigma_iou t_min t_miss_max).
Local Abbreviation run_frames :=
  (Iou.run_frames iou sigma_l sigma_h sigma_iou t_min t_miss_max).
Local Abbreviation track_iou :=
  (Iou.track_iou iou sigma_l sigma_h sigma_iou t_min t_miss_max).
Local Abbreviation outcome := (IouSpec.outcome sigma_h t_min t_miss_max).
Local Abbreviation qualifies := (IouSpec.qualifies sigma_h t_min).

Lemma track_body_cases (frame_num : Z) (loc loc' : Locals) (trk : Track.t) :
  track_body frame_num loc trk = Ok loc' -> outcome frame_num loc trk loc'.
Proof.
  unfold Iou.track_body, try_match, best_match_of.
  assert (Hrest : forall l,
             bind (age_or_finish sigma_h t_min t_miss_max l trk)
                  (fun x => let '(trk2, loc2) := x in
                            Ok (bind_loop_track trk2 loc2)) = Ok loc' ->
             outcome frame_num l trk loc').
  { intros l. unfold age_or_finish.
    destruct (Z.ltb_spec (Track.age trk) t_miss_max) as [Hage|Hage].
    - simpl. intros [= <-].
      exact (Saved sigma_h t_min t_miss_max frame_num l trk Hage).
    - destruct (finish_condition sigma_h t_min trk) as [[|]|] eqn:Ec;
        simpl; try discriminate.
      + destruct (make_feature trk) as [f|] eqn:Ef; simpl; [|discriminate].
        intros [= <-].
        exact (Finished sigma_h t_min t_miss_max frame_num l trk f Hage Ec Ef).
      + intros [= <-].
        exact (Dropped sigma_h t_min t_miss_max frame_num l trk Hage Ec). }
  destruct (dets loc) as [|d0 ds] eqn:Ed.
  - simpl. apply Hrest.
  - rewrite <- Ed.
    destruct (list_last (Track.bboxes trk)) as [bb|] eqn:Ebb; cbn [bind];
      [|discriminate].
    match goal with
    | |- context [max_by ?k d0 ds] =>
        assert (Hin : In (max_by k d0 ds) (dets loc))
          by (rewrite Ed; apply max_by_In);
        generalize dependent (max_by k d0 ds)
    end.
    intros best Hin.
    destruct (Qge_bool (iou bb (make_bbox best)) sigma_iou).
    + destruct (del_first best (dets loc)) as [dets'|] eqn:Edel; cbn [bind];
        [|discriminate].
      intros [= <-].
      exact (Updated sigma_h t_min t_miss_max frame_num loc trk best dets'
                     Hin Edel).
    + cbn [bind]. apply Hrest.
Qed.

Lemma finish_condition_true (trk : Track.t) :
  finish_condition sigma_h t_min trk = Ok true -> qualifies trk.
Proof.
  unfold finish_condition, IouSpec.qualifies, frame_span, Qge_bool.
  destruct (Qle_bool sigma_h (Track.max_conf trk)) eqn:Eq; [|discriminate].
  destruct (list_last (Track.frames trk)) as [l|] eqn:El; [|discriminate].
  destruct (list_first (Track.frames trk)) as [f|] eqn:Ef; [|discriminate].
  simpl. intros [= H]. apply Z.leb_le in H. apply Qle_bool_iff in Eq.
  rewrite (list_last_default _ _ 0 El).
  destruct (list_first_ok _ _ Ef) as [r ->]. simpl. auto.
Qed.

Lemma finish_condition_false (trk : Track.t) :
  finish_condition sigma_h t_min trk = Ok false -> ~ qualifies trk.
Proof.
  unfold finish_condition, IouSpec.qualifies, frame_span, Qge_bool.
  destruct (Qle_bool sigma_h (Track.max_conf trk)) eqn:Eq.
  - destruct (list_last (Track.frames trk)) as [l|] eqn:El; [|discriminate].
    destruct (list_first (Track.frames trk)) as [f|] eqn:Ef; [|discriminate].
    simpl. intros [= H]. apply Z.leb_gt in H.
    rewrite (list_last_default _ _ 0 El).
    destruct (list_first_ok _ _ Ef) as [r ->]. simpl. lia.
  - intros _ [H _]. apply Qle_bool_iff in H. congruence.
Qed.

Lemma finish_condition_total (trk : Track.t) :
  well_formed trk -> exists b, finish_condition sigma_h t_min trk = Ok b.
Proof.
  intros (Hf & _ & _). unfold finish_condition.
  destruct (Qge_bool (Track.max_conf trk) sigma_h); [|eauto].
  destruct (list_last_nonempty _ Hf) as [l ->].
  destruct (list_first_nonempty _ Hf) as [f ->]. simpl. eauto.
Qed.

Lemma make_feature_ID (trk : Track.t) (f : Feature.t) :
  make_feature trk = Ok f -> Feature.ID f = Track.vehID trk.
Proof.
  unfold make_feature. destruct (list_first (Track.frames trk)); [|discriminate].
  simpl. now intros [= <-].
Qed.

Lemma well_formed_update (frame_num : Z) (trk : Track.t) (d : Det.t) :
  well_formed (update_track frame_num trk d).
Proof.
  unfold well_formed. simpl.
  repeat split; intros H; apply app_eq_nil in H; destruct H; discriminate.
Qed.

Lemma well_formed_increment (trk : Track.t) :
  well_formed trk -> well_formed (increment_age trk).
Proof. exact (fun H => H). Qed.

Lemma well_formed_new (frame_num id : Z) (d : Det.t) :
  well_formed (new_track frame_num id d).
Proof. unfold well_formed. simpl. repeat split; discriminate. Qed.

Lemma start_tracks_spec (frame_num : Z) (ds : list Det.t) :
  forall (id : Z) (nt : list Track.t) (o : list (Z * (Det.t * bool))),
    fold_left (start_track frame_num) ds (id, nt, o)
    = (id + Z.of_nat (List.length ds),
       nt ++ fresh_tracks frame_num id ds,
       set_entries o (fresh_entries id ds)).
Proof.
  induction ds as [|d ds IH]; intros id nt o.
  - simpl. now rewrite Z.add_0_r, app_nil_r.
  - cbn [fold_left start_track]. rewrite IH.
    cbn [fresh_tracks fresh_entries List.length]. unfold set_entries.
    cbn [fold_left fst snd]. rewrite <- app_assoc. cbn [app].
    replace (id + 1 + Z.of_nat (List.length ds))
      with (id + Z.of_nat (S (List.length ds))) by lia.
    reflexivity.
Qed.

Lemma frame_body_inv (frame_num : Z) (detections_frame : list Det.t)
  (st st' : State) :
  frame_body st (frame_num, detections_frame) = Ok st' ->
  exists loc,
    for_each (track_body frame_num) (start_locals sigma_l st detections_frame)
             (tracks_active st) = Ok loc
    /\ st' = mkState
               (updated_tracks loc ++ saved_tracks loc
                ++ fresh_tracks frame_num (vehID st) (dets loc))
               (geojson loc)
               (vehID st + Z.of_nat (List.length (dets loc)))
               (finished_ids loc)
               (dict_set Z.eqb frame_num
                  (set_entries (out loc) (fresh_entries (vehID st) (dets loc)))
                  (new_detections st))
               (loop_track loc).
Proof.
  unfold Iou.frame_body.
  destruct (for_each _ _ (tracks_active st)) as [loc|]; [|discriminate].
  cbn [bind]. rewrite start_tracks_spec. intros [= <-]. eauto.
Qed.

Lemma fresh_tracks_ids (frame_num : Z) (ds : list Det.t) (id i : Z) :
  In i (ids (fresh_tracks frame_num id ds)) ->
  id < i <= id + Z.of_nat (List.length ds).
Proof.
  revert id. induction ds as [|d ds IH]; intros id; simpl; [tauto|].
  intros [<-|H]; [lia|]. apply IH in H. lia.
Qed.

Lemma fresh_tracks_NoDup (frame_num : Z) (ds : list Det.t) (id : Z) :
  NoDup (ids (fresh_tracks frame_num id ds)).
Proof.
  revert id. induction ds as [|d ds IH]; intros id; simpl; constructor.
  - intros H. apply fresh_tracks_ids in H. lia.
  - apply IH.
Qed.

Lemma fresh_tracks_well_formed (frame_num : Z) (ds : list Det.t) (id : Z) :
  Forall well_formed (fresh_tracks frame_num id ds).
Proof.
  revert id. induction ds as [|d ds IH]; intros id; simpl; constructor.
  - apply well_formed_new.
  - apply IH.
Qed.

Lemma ids_app (l1 l2 : list Track.t) : ids (l1 ++ l2) = ids l1 ++ ids l2.
Proof. apply map_app. Qed.

Lemma kept_insert_perm (a b : list Track.t) (y : Track.t) :
  Permutation (ids ((a ++ [y]) ++ b)) (Track.vehID y :: ids (a ++ b)).
Proof.
  rewrite <- app_assoc. unfold ids. rewrite !map_app. simpl.
  symmetry. apply Permutation_middle.
Qed.

Lemma kept_append_perm (a b : list Track.t) (y : Track.t) :
  Permutation (ids (a ++ b ++ [y])) (Track.vehID y :: ids (a ++ b)).
Proof.
  rewrite app_assoc. unfold ids. rewrite (map_app _ (a ++ b)). simpl.
  symmetry. apply Permutation_cons_append.
Qed.

(** The loop over the pool, seen from the pool: which tracks stay and which
    features are added. *)
Lemma loop_pool (frame_num : Z) (detections_frame : list Det.t)
  (st : State) (loc : Locals) :
  NoDup (ids (tracks_active st)) ->
  Forall well_formed (tracks_active st) ->
  for_each (track_body frame_num) (start_locals sigma_l st detections_frame)
           (tracks_active st) = Ok loc ->
  incl (ids (updated_tracks loc ++ saved_tracks loc)) (ids (tracks_active st))
  /\ NoDup (ids (updated_tracks loc ++ saved_tracks loc))
  /\ Forall well_formed (updated_tracks loc ++ saved_tracks loc)
  /\ exists nf,
       geojson loc = tracks_geojson st ++ nf
       /\ finished_ids loc = vehIDs_finished st ++ map Feature.ID nf
       /\ (forall f, In f nf ->
             exists t, In t (tracks_active st)
                       /\ make_feature t = Ok f
                       /\ qualifies t
                       /\ ~ In (Track.vehID t)
                              (ids (updated_tracks loc ++ saved_tracks loc)))
       /\ (forall t, In t (tracks_active st) ->
             ~ In (Track.vehID t) (ids (updated_tracks loc ++ saved_tracks loc)) ->
             qualifies t ->
             exists f, In f nf /\ Feature.ID f = Track.vehID t).
Proof.
  intros Hnd Hwf Hrun.
  pose (P := fun (pre : list Track.t) (loc : Locals) =>
    incl (ids (updated_tracks loc ++ saved_tracks loc)) (ids pre)
    /\ NoDup (ids (updated_tracks loc ++ saved_tracks loc))
    /\ Forall well_formed (updated_tracks loc ++ saved_tracks loc)
    /\ exists nf,
         geojson loc = tracks_geojson st ++ nf
         /\ finished_ids loc = vehIDs_finished st ++ map Feature.ID nf
         /\ (forall f, In f nf ->
               exists t, In t pre
                         /\ make_feature t = Ok f
                         /\ qualifies t
                         /\ ~ In (Track.vehID t)
                                (ids (updated_tracks loc ++ saved_tracks loc)))
         /\ (forall t, In t pre ->
               ~ In (Track.vehID t)
                    (ids (updated_tracks loc ++ saved_tracks loc)) ->
               qualifies t ->
               exists f, In f nf /\ Feature.ID f = Track.vehID t)).
  refine (for_each_invariant (track_body frame_num) P (tracks_active st) _
            _ loc _ Hrun).
  - intros pre x post l l' Hwhole (Hincl & Hnd' & Hwf' & nf & Hg & Hfin & Hnf & Hall)
           Hbody.
    assert (Hx : ~ In (Track.vehID x) (ids pre)).
    { rewrite Hwhole in Hnd. unfold ids in Hnd. rewrite map_app in Hnd.
      simpl in Hnd. apply NoDup_remove_2 in Hnd. intros H. apply Hnd.
      apply in_or_app. now left. }
    assert (Hxwf : well_formed x).
    { rewrite Forall_forall in Hwf. apply Hwf. rewrite Hwhole.
      apply in_or_app. right. now left. }
    assert (Hxk : ~ In (Track.vehID x) (ids (updated_tracks l ++ saved_tracks l)))
      by (intros H; apply Hx, Hincl, H).
    assert (Hpre : forall i, In i (ids pre) -> In i (ids (pre ++ [x])))
      by (intros i Hi; rewrite ids_app; apply in_or_app; now left).
    assert (Hxin : In (Track.vehID x) (ids (pre ++ [x])))
      by (rewrite ids_app; apply in_or_app; right; now left).
    assert (Hkeep : forall x' kept',
               Track.vehID x' = Track.vehID x -> well_formed x' ->
               Permutation (ids kept')
                 (Track.vehID x' :: ids (updated_tracks l ++ saved_tracks l)) ->
               (forall t, In t kept' <->
                          t = x' \/ In t (updated_tracks l ++ saved_tracks l)) ->
               incl (ids kept') (ids (pre ++ [x]))
               /\ NoDup (ids kept')
               /\ Forall well_formed kept'
               /\ exists nf0,
                    geojson l = tracks_geojson st ++ nf0
                    /\ finished_ids l = vehIDs_finished st ++ map Feature.ID nf0
                    /\ (forall f, In f nf0 ->
                          exists t, In t (pre ++ [x])
                                    /\ make_feature t = Ok f
                                    /\ qualifies t
                                    /\ ~ In (Track.vehID t) (ids kept'))
                    /\ (forall t, In t (pre ++ [x]) ->
                          ~ In (Track.vehID t) (ids kept') ->
                          qualifies t ->
                          exists f, In f nf0 /\ Feature.ID f = Track.vehID t)).
    { intros x' kept' Hid Hwfx Hperm Hmem.
      assert (Hin' : forall i, In i (ids kept') <->
                 i = Track.vehID x \/
                 In i (ids (updated_tracks l ++ saved_tracks l))).
      { intros i. split; intros H.
        - apply (Permutation_in _ Hperm) in H. rewrite Hid in H.
          destruct H; auto.
        - apply (Permutation_in _ (Permutation_sym Hperm)). rewrite Hid.
          destruct H; [left|right]; auto. }
      split; [|split; [|split]].
      - intros i Hi. apply Hin' in Hi. destruct Hi as [->|Hi]; auto.
      - apply (Permutation_NoDup (Permutation_sym Hperm)). rewrite Hid.
        constructor; auto.
      - apply Forall_forall. intros t Ht. apply Hmem in Ht.
        destruct Ht as [->|Ht]; auto.
        rewrite Forall_forall in Hwf'. auto.
      - exists nf. split; [exact Hg|]. split; [exact Hfin|]. split.
        + intros f Hf. destruct (Hnf f Hf) as (t & Ht & Hmk & Hq & Hnk).
          exists t. split; [apply in_or_app; now left|]. split; [exact Hmk|].
          split; [exact Hq|]. intros H. apply Hin' in H.
          destruct H as [H|H]; [|auto].
          apply Hx. rewrite <- H. now apply in_map.
        + intros t Ht Hnk Hq. apply in_app_or in Ht.
          destruct Ht as [Ht|[<-|[]]].
          * apply (Hall t Ht); auto. intros H. apply Hnk, Hin'. auto.
          * exfalso. apply Hnk, Hin'. auto. }
    destruct (track_body_cases _ _ _ _ Hbody)
      as [best dets' Hbest Hdel|Hage|feature Hage Hc Hmk|Hage Hc];
      unfold P; cbn [updated_tracks saved_tracks geojson finished_ids].
    + apply (Hkeep (update_track frame_num x best));
        [reflexivity|apply well_formed_update|apply kept_insert_perm|].
      intros t. rewrite !in_app_iff. simpl. intuition auto.
    + apply (Hkeep (increment_age x));
        [reflexivity|apply well_formed_increment, Hxwf
        |apply kept_append_perm|].
      intros t. rewrite !in_app_iff. simpl. intuition auto.
    + split; [intros i Hi; auto|]. split; [exact Hnd'|]. split; [exact Hwf'|].
      exists (nf ++ [feature]). split; [rewrite Hg; symmetry; apply app_assoc|]. split.
      { rewrite Hfin, map_app, <- app_assoc. simpl.
        now rewrite (make_feature_ID _ _ Hmk). }
      split.
      * intros f Hf. apply in_app_or in Hf. destruct Hf as [Hf|[<-|[]]].
        -- destruct (Hnf f Hf) as (t & Ht & Hmk' & Hq & Hnk).
           exists t. split; [apply in_or_app; now left|auto].
        -- exists x. split; [apply in_or_app; right; now left|].
           split; [exact Hmk|]. split; [now apply finish_condition_true|exact Hxk].
      * intros t Ht Hnk Hq. apply in_app_or in Ht. destruct Ht as [Ht|[<-|[]]].
        -- destruct (Hall t Ht Hnk Hq) as (f & Hf & Hid). exists f.
           split; [apply in_or_app; now left|exact Hid].
        -- exists feature. split; [apply in_or_app; right; now left|].
           now apply make_feature_ID.
    + split; [intros i Hi; auto|]. split; [exact Hnd'|]. split; [exact Hwf'|].
      exists nf. split; [exact Hg|]. split; [exact Hfin|]. split.
      * intros f Hf. destruct (Hnf f Hf) as (t & Ht & Hmk' & Hq & Hnk).
        exists t. split; [apply in_or_app; now left|auto].
      * intros t Ht Hnk Hq. apply in_app_or in Ht. destruct Ht as [Ht|[<-|[]]].
        -- apply (Hall t Ht Hnk Hq).
        -- exfalso. now apply (finish_condition_false _ Hc).
  - unfold P, start_locals. cbn [updated_tracks saved_tracks geojson finished_ids].
    simpl. split; [intros i []|]. split; [constructor|]. split; [constructor|].
    exists []. rewrite !app_nil_r. simpl. repeat split; tauto.
Qed.

(** One frame, seen from the pool. *)
Lemma frame_step_pool (st st' : State) (item : Z * list Det.t) :
  pool_inv st ->
  frame_body st item = Ok st' ->
  pool_inv st'
  /\ vehID st <= vehID st'
  /\ (forall i, In i (ids (tracks_active st')) ->
                In i (ids (tracks_active st)) \/ vehID st < i)
  /\ exists nf,
       tracks_geojson st' = tracks_geojson st ++ nf
       /\ vehIDs_finished st' = vehIDs_finished st ++ map Feature.ID nf
       /\ (forall f, In f nf ->
             exists t, leaves_pool st st' t /\ make_feature t = Ok f
                       /\ qualifies t)
       /\ (forall t, leaves_pool st st' t -> qualifies t ->
             exists f, In f nf /\ Feature.ID f = Track.vehID t).
Proof.
  intros (Hwf & Hnd & Hle & Hfeat) Hbody. destruct item as [frame_num df].
  destruct (frame_body_inv _ _ _ _ Hbody) as (loc & Hloop & ->).
  destruct (loop_pool _ _ _ _ Hnd Hwf Hloop)
    as (Hincl & Hndk & Hwfk & nf & Hg & Hfin & Hnf & Hall).
  cbn [tracks_active tracks_geojson vehID vehIDs_finished].
  set (kept := updated_tracks loc ++ saved_tracks loc) in *.
  set (fresh := fresh_tracks frame_num (vehID st) (dets loc)).
  assert (Hpool : forall i,
             In i (ids (updated_tracks loc ++ saved_tracks loc ++ fresh)) <->
             In i (ids kept) \/ In i (ids fresh)).
  { intros i. rewrite app_assoc, ids_app, in_app_iff. reflexivity. }
  assert (Hkept_le : forall i, In i (ids kept) -> i <= vehID st).
  { intros i Hi. apply Hincl in Hi. apply in_map_iff in Hi.
    destruct Hi as (t & <- & Ht). auto. }
  assert (Hold : forall i, In i (ids (tracks_active st)) -> i <= vehID st).
  { intros i Hi. apply in_map_iff in Hi. destruct Hi as (t & <- & Ht). auto. }
  split; [|split; [lia|split]].
  - unfold pool_inv. cbn [tracks_active tracks_geojson vehID].
    split; [|split; [|split]].
    + rewrite app_assoc. apply Forall_app. split; [exact Hwfk|].
      apply fresh_tracks_well_formed.
    + rewrite app_assoc, ids_app.
      apply NoDup_app; [exact Hndk|apply fresh_tracks_NoDup|].
      intros i Hi Hf. apply Hkept_le in Hi. apply fresh_tracks_ids in Hf. lia.
    + intros t Ht. assert (Hi : In (Track.vehID t)
                               (ids (updated_tracks loc ++ saved_tracks loc ++ fresh)))
        by now apply in_map.
      apply Hpool in Hi. destruct Hi as [Hi|Hi].
      * apply Hkept_le in Hi. lia.
      * apply fresh_tracks_ids in Hi. lia.
    + intros f Hf. rewrite Hg in Hf. apply in_app_or in Hf.
      destruct Hf as [Hf|Hf].
      * destruct (Hfeat f Hf) as [Hfle Hfn]. split; [lia|].
        intros Hi. apply Hpool in Hi. destruct Hi as [Hi|Hi].
        -- apply Hfn, Hincl, Hi.
        -- apply fresh_tracks_ids in Hi. lia.
      * destruct (Hnf f Hf) as (t & Ht & Hmk & Hq & Hnk).
        rewrite (make_feature_ID _ _ Hmk). specialize (Hle t Ht).
        split; [lia|]. intros Hi. apply Hpool in Hi. destruct Hi as [Hi|Hi].
        -- auto.
        -- apply fresh_tracks_ids in Hi. lia.
  - intros i Hi. apply Hpool in Hi. destruct Hi as [Hi|Hi].
    + left. apply Hincl, Hi.
    + right. apply fresh_tracks_ids in Hi. lia.
  - exists nf. split; [exact Hg|]. split; [exact Hfin|]. split.
    + intros f Hf. destruct (Hnf f Hf) as (t & Ht & Hmk & Hq & Hnk).
      exists t. split; [|auto]. split; [exact Ht|].
      cbn [tracks_active]. intros Hi. apply Hpool in Hi. destruct Hi as [Hi|Hi].
      * auto.
      * apply fresh_tracks_ids in Hi. specialize (Hle t Ht). lia.
    + intros t [Ht Hgone] Hq. cbn [tracks_active] in Hgone.
      apply (Hall t Ht); [|exact Hq]. intros Hi. apply Hgone, Hpool. now left.
Qed.

Lemma initial_pool_inv : pool_inv initial_state.
Proof.
  unfold pool_inv, initial_state. simpl.
  split; [constructor|]. split; [constructor|]. split; intros ? [].
Qed.

(** Several frames, seen from the pool: identifiers of the pool are never
    reused, and every feature added carries the identifier of a track that
    was in the pool or was created meanwhile. *)
Lemma run_pool (l : list (Z * list Det.t)) :
  forall st st',
    pool_inv st ->
    for_each frame_body st l = Ok st' ->
    pool_inv st'
    /\ vehID st <= vehID st'
    /\ (forall i, In i (ids (tracks_active st')) ->
                  In i (ids (tracks_active st)) \/ vehID st < i)
    /\ exists later,
         tracks_geojson st' = tracks_geojson st ++ later
         /\ forall f, In f later ->
                      In (Feature.ID f) (ids (tracks_active st))
                      \/ vehID st < Feature.ID f.
Proof.
  induction l as [|item l IH]; intros st st' Hinv Hrun.
  - injection Hrun as <-. split; [exact Hinv|]. split; [lia|].
    split; [auto|]. exists []. rewrite app_nil_r. split; [reflexivity|].
    intros f [].
  - simpl in Hrun. destruct (frame_body st item) as [st1|] eqn:E; [|discriminate].
    cbn [bind] in Hrun.
    destruct (frame_step_pool _ _ _ Hinv E)
      as (Hinv1 & Hle1 & Hids1 & nf & Hg1 & _ & Hnf & _).
    destruct (IH _ _ Hinv1 Hrun) as (Hinv' & Hle' & Hids' & later & Hg' & Hlater).
    split; [exact Hinv'|]. split; [lia|]. split.
    + intros i Hi. destruct (Hids' i Hi) as [H|H].
      * destruct (Hids1 i H); [auto|right; lia].
      * right. lia.
    + exists (nf ++ later). split; [rewrite Hg', Hg1; symmetry; apply app_assoc|].
      intros f Hf. apply in_app_or in Hf. destruct Hf as [Hf|Hf].
      * destruct (Hnf f Hf) as (t & [Ht _] & Hmk & _).
        left. rewrite (make_feature_ID _ _ Hmk). now apply in_map.
      * destruct (Hlater f Hf) as [H|H].
        -- destruct (Hids1 _ H); [auto|right; lia].
        -- right. lia.
Qed.

Lemma run_frames_pool_inv (detections : list (Z * list Det.t)) (st : State) :
  run_frames detections = Ok st -> pool_inv st.
Proof.
  intros H. apply (run_pool detections initial_state st initial_pool_inv H).
Qed.

(** Where a feature of the state comes from: a track that left the pool in
    some frame and met the criteria. *)
Lemma features_origin (l : list (Z * list Det.t)) :
  forall st0 st_f,
    pool_inv st0 ->
    for_each frame_body st0 l = Ok st_f ->
    forall f, In f (tracks_geojson st_f) ->
      In f (tracks_geojson st0)
      \/ exists pre item post st st' t,
           l = pre ++ item :: post
           /\ for_each frame_body st0 pre = Ok st
           /\ frame_body st item = Ok st'
           /\ leaves_pool st st' t
           /\ qualifies t
           /\ make_feature t = Ok f.
Proof.
  induction l as [|item l IH]; intros st0 st_f Hinv Hrun f Hf.
  - injection Hrun as <-. now left.
  - simpl in Hrun. destruct (frame_body st0 item) as [st1|] eqn:E; [|discriminate].
    cbn [bind] in Hrun.
    destruct (frame_step_pool _ _ _ Hinv E)
      as (Hinv1 & _ & _ & nf & Hg1 & _ & Hnf & _).
    destruct (IH _ _ Hinv1 Hrun f Hf) as [H|H].
    + rewrite Hg1 in H. apply in_app_or in H. destruct H as [H|H]; [now left|].
      right. destruct (Hnf f H) as (t & Hleave & Hmk & Hq).
      exists [], item, l, st0, st1, t.
      split; [reflexivity|]. split; [reflexivity|]. auto.
    + right. destruct H as (pre & it & post & st & st' & t & -> & Hpre & Hst & Hrest).
      exists (item :: pre), it, post, st, st', t. split; [reflexivity|].
      split; [|auto]. simpl. rewrite E. exact Hpre.
Qed.

Lemma make_feature_of (trk : Track.t) (f : Feature.t) :
  make_feature trk = Ok f -> feature_of trk f.
Proof.
  unfold make_feature, feature_of.
  destruct (Track.frames trk) as [|n r]; [discriminate|].
  simpl. intros [= <-]. simpl. auto.
Qed.

Lemma set_max_class_keeps (trk : option Track.t) (f f' : Feature.t) :
  set_max_class trk f = Ok f' ->
  Feature.ID f' = Feature.ID f
  /\ Feature.coordinates f' = Feature.coordinates f
  /\ Feature.max_conf f' = Feature.max_conf f
  /\ Feature.start_frame f' = Feature.start_frame f.
Proof.
  unfold set_max_class. destruct trk as [tr|]; [|discriminate].
  destruct (mode (Track.class tr)); [|discriminate].
  simpl. intros [= <-]. simpl. auto.
Qed.

Lemma feature_of_set_max_class (trk : option Track.t) (t : Track.t)
  (f f' : Feature.t) :
  set_max_class trk f = Ok f' -> feature_of t f -> feature_of t f'.
Proof.
  intros H (H1 & H2 & H3 & H4).
  destruct (set_max_class_keeps _ _ _ H) as (K1 & K2 & K3 & K4).
  unfold feature_of. rewrite K1, K2, K3, K4. auto.
Qed.

Lemma Forall2_In_l {A B : Type} (R : A -> B -> Prop) (l : list A) (l' : list B)
  (a : A) :
  Forall2 R l l' -> In a l -> exists b, In b l' /\ R a b.
Proof.
  induction 1 as [|x y l l' Hxy _ IH]; simpl; [tauto|].
  intros [->|H]; [eauto|]. destruct (IH H) as (b & Hb & HR). eauto.
Qed.

Lemma Forall2_In_r {A B : Type} (R : A -> B -> Prop) (l : list A) (l' : list B)
  (b : B) :
  Forall2 R l l' -> In b l' -> exists a, In a l /\ R a b.
Proof.
  induction 1 as [|x y l l' Hxy _ IH]; simpl; [tauto|].
  intros [->|H]; [eauto|]. destruct (IH H) as (a & Ha & HR). eauto.
Qed.

Lemma remaining_features_spec (tracks : list Track.t) :
  forall rest,
    remaining_features sigma_h t_min tracks = Ok rest ->
    (forall f, In f rest ->
       exists t, In t tracks /\ make_feature t = Ok f /\ qualifies t)
    /\ (forall t, In t tracks -> qualifies t ->
          exists f, In f rest /\ make_feature t = Ok f).
Proof.
  induction tracks as [|trk tracks IH]; intros rest Hrest.
  - injection Hrest as <-. split; [intros f []|intros t []].
  - simpl in Hrest.
    destruct (finish_condition sigma_h t_min trk) as [[|]|] eqn:Ec;
      cbn [bind] in Hrest; [| |discriminate].
    + destruct (make_feature trk) as [f0|] eqn:Emk; cbn [bind] in Hrest;
        [|discriminate].
      destruct (remaining_features sigma_h t_min tracks) as [fs|];
        cbn [bind] in Hrest; [|discriminate].
      injection Hrest as <-. destruct (IH fs eq_refl) as [IH1 IH2]. split.
      * intros f [<-|Hf].
        -- exists trk. split; [now left|]. split; [exact Emk|].
           now apply finish_condition_true.
        -- destruct (IH1 f Hf) as (t & Ht & H). exists t. split; [now right|auto].
      * intros t [<-|Ht] Hq.
        -- exists f0. split; [now left|exact Emk].
        -- destruct (IH2 t Ht Hq) as (f & Hf & H). exists f.
           split; [now right|auto].
    + destruct (IH rest Hrest) as [IH1 IH2]. split.
      * intros f Hf. destruct (IH1 f Hf) as (t & Ht & H).
        exists t. split; [now right|auto].
      * intros t [<-|Ht] Hq.
        -- exfalso. now apply (finish_condition_false _ Ec).
        -- apply (IH2 t Ht Hq).
Qed.

(** What a successful call of [track_iou] went through. *)
Lemma track_iou_inv (detections : list (Z * list Det.t))
  (nd : list (Z * list (Z * Annotated.t))) (features : list Feature.t)
  (fin : list Z) :
  track_iou detections = Ok (nd, features, fin) ->
  exists st rest,
    run_frames detections = Ok st
    /\ remaining_features sigma_h t_min (tracks_active st) = Ok rest
    /\ Forall2 (fun f f' => set_max_class (track st) f = Ok f')
               (tracks_geojson st ++ rest) features
    /\ nd = annotate (vehIDs_finished st) (new_detections st)
    /\ fin = vehIDs_finished st.
Proof.
  unfold Iou.track_iou.
  destruct (run_frames detections) as [st|]; [|discriminate]. cbn [bind].
  destruct (remaining_features sigma_h t_min (tracks_active st)) as [rest|]
    eqn:Er; [|discriminate]. cbn [bind].
  destruct (map_result _ (tracks_geojson st ++ rest)) as [fs|] eqn:Em;
    [|discriminate]. cbn [bind].
  intros [= <- <- <-]. exists st, rest.
  split; [reflexivity|]. split; [exact Er|].
  split; [now apply map_result_ok|]. auto.
Qed.

Lemma del_first_In (d x : Det.t) (l l' : list Det.t) :
  del_first d l = Ok l' -> In x l' -> In x l.
Proof.
  intros H Hx. apply del_first_perm in H.
  apply (Permutation_in _ (Permutation_sym H)). now right.
Qed.

Lemma set_entries_In (es o : list (Z * (Det.t * bool))) (e : Z * (Det.t * bool)) :
  In e (set_entries o es) -> In e o \/ In e es.
Proof.
  unfold set_entries. revert o.
  induction es as [|[k v] es IH]; intros o; simpl; [auto|].
  intros H. apply IH in H. destruct H as [H|H]; [|auto].
  apply dict_set_In in H. destruct H as [->|H]; auto.
Qed.

Lemma fresh_entries_In (ds : list Det.t) (id : Z) (e : Z * (Det.t * bool)) :
  In e (fresh_entries id ds) ->
  In (entry_det e) ds /\ snd (snd e) = true
  /\ id < fst e <= id + Z.of_nat (List.length ds).
Proof.
  revert id. induction ds as [|d ds IH]; intros id; [intros []|].
  cbn [fresh_entries List.length]. intros [<-|H].
  - simpl. repeat split; auto; lia.
  - destruct (IH _ H) as (H1 & H2 & H3). simpl. repeat split; auto; lia.
Qed.

Lemma fresh_tracks_In (frame_num : Z) (ds : list Det.t) (id : Z) (t : Track.t) :
  In t (fresh_tracks frame_num id ds) ->
  exists i d, In d ds /\ t = new_track frame_num i d.
Proof.
  revert id. induction ds as [|d ds IH]; intros id; [intros []|].
  simpl. intros [<-|H]; [eauto|].
  destruct (IH _ H) as (i & d' & Hd & ->). eauto.
Qed.

(** A property [Q] of tracks and a property [D] of detections that the
    updates preserve hold throughout the loop over the pool. *)
Lemma loop_forall (Q : Track.t -> Prop) (D : Det.t -> Prop) (frame_num : Z)
  (tracks : list Track.t) (loc0 loc : Locals) :
  (forall t d, Q t -> D d -> Q (update_track frame_num t d)) ->
  (forall t, Q t -> Track.age t < t_miss_max -> Q (increment_age t)) ->
  Forall Q tracks ->
  Forall D (dets loc0) ->
  Forall Q (updated_tracks loc0 ++ saved_tracks loc0) ->
  Forall (fun e => D (entry_det e)) (out loc0) ->
  for_each (track_body frame_num) loc0 tracks = Ok loc ->
  Forall D (dets loc)
  /\ Forall Q (updated_tracks loc ++ saved_tracks loc)
  /\ Forall (fun e => D (entry_det e)) (out loc).
Proof.
  intros Hupd Hinc HQ HD0 HQ0 Ho0 Hrun.
  refine (for_each_invariant (track_body frame_num)
            (fun _ l => Forall D (dets l)
                        /\ Forall Q (updated_tracks l ++ saved_tracks l)
                        /\ Forall (fun e => D (entry_det e)) (out l))
            tracks _ loc0 loc _ Hrun); [|auto].
  intros pre x post l l' Hwhole (HD & HQk & Ho) Hbody.
  assert (HQx : Q x).
  { rewrite Forall_forall in HQ. apply HQ. rewrite Hwhole.
    apply in_or_app. right. now left. }
  rewrite Forall_app in HQk. destruct HQk as [HQu HQs].
  destruct (track_body_cases _ _ _ _ Hbody)
    as [best dets' Hbest Hdel|Hage|feature Hage Hc Hmk|Hage Hc];
    cbn [dets updated_tracks saved_tracks out bind_loop_track].
  - assert (HDb : D best) by (rewrite Forall_forall in HD; auto).
    split; [|split].
    + apply Forall_forall. intros d Hd. rewrite Forall_forall in HD.
      apply HD. apply (del_first_In _ _ _ _ Hdel Hd).
    + rewrite !Forall_app. repeat split; auto.
    + apply Forall_forall. intros e He. apply dict_set_In in He.
      destruct He as [->|He]; [exact HDb|].
      rewrite Forall_forall in Ho. auto.
  - split; [exact HD|]. split; [|exact Ho].
    rewrite !Forall_app. repeat split; auto.
  - split; [exact HD|]. split; [|exact Ho]. rewrite Forall_app. auto.
  - split; [exact HD|]. split; [|exact Ho]. rewrite Forall_app. auto.
Qed.

(** The same two properties, frame after frame. *)
Lemma run_forall (Q : Track.t -> Prop) (D : Det.t -> Prop) :
  (forall frame_num t d, Q t -> D d -> Q (update_track frame_num t d)) ->
  (forall t, Q t -> Track.age t < t_miss_max -> Q (increment_age t)) ->
  (forall frame_num id d, D d -> Q (new_track frame_num id d)) ->
  (forall d, Qge_bool (Det.conf d) sigma_l = true -> D d) ->
  forall detections st st',
    Forall Q (tracks_active st) ->
    Forall (fun fo => Forall (fun e => D (entry_det e)) (snd fo))
           (new_detections st) ->
    for_each frame_body st detections = Ok st' ->
    Forall Q (tracks_active st')
    /\ Forall (fun fo => Forall (fun e => D (entry_det e)) (snd fo))
              (new_detections st').
Proof.
  intros Hupd Hinc Hnew Hfil.
  induction detections as [|[frame_num df] detections IH];
    intros st st' HQ Hnd Hrun.
  - injection Hrun as <-. auto.
  - cbn [for_each] in Hrun.
    destruct (frame_body st (frame_num, df)) as [st1|] eqn:E; [|discriminate].
    cbn [bind] in Hrun.
    destruct (frame_body_inv _ _ _ _ E) as (loc & Hloop & Hst1).
    assert (Hstart : Forall D (dets (start_locals sigma_l st df))).
    { unfold start_locals. cbn [dets]. apply Forall_forall. intros d Hd.
      apply filter_In in Hd. apply Hfil, Hd. }
    destruct (loop_forall Q D frame_num (tracks_active st)
                (start_locals sigma_l st df) loc (Hupd frame_num) Hinc HQ
                Hstart (Forall_nil _) (Forall_nil _) Hloop)
      as (HD & HQk & Ho).
    apply (IH st1 st'); [| |exact Hrun]; rewrite Hst1;
      cbn [tracks_active new_detections].
    + rewrite app_assoc. apply Forall_app. split; [exact HQk|].
      apply Forall_forall. intros t Ht. apply fresh_tracks_In in Ht.
      destruct Ht as (i & d & Hd & ->). apply Hnew.
      rewrite Forall_forall in HD. auto.
    + apply Forall_forall. intros fo Hfo. apply dict_set_In in Hfo.
      destruct Hfo as [->|Hfo]; [|rewrite Forall_forall in Hnd; auto].
      cbn [snd]. apply Forall_forall. intros e He. apply set_entries_In in He.
      destruct He as [He|He]; [rewrite Forall_forall in Ho; auto|].
      apply fresh_entries_In in He. rewrite Forall_forall in HD. apply HD, He.
Qed.

(** C1: when [track_iou] returns, a track that leaves the active pool, in
    some frame or because the input ends, has a feature with its identifier
    in the returned collection if and only if, as it leaves, its maximum
    confidence is at least [sigma_h] and its last frame number minus its
    first is at least [t_min] (both bounds included); and every returned
    feature is the polyline of such a track. *)
Theorem finalization_iff_thresholds
  (detections : list (Z * list Det.t))
  (nd : list (Z * list (Z * Annotated.t))) (features : list Feature.t)
  (fin : list Z) :
  track_iou detections = Ok (nd, features, fin) ->
  (forall pre item post st st' t,
      detections = pre ++ item :: post ->
      run_frames pre = Ok st ->
      frame_body st item = Ok st' ->
      leaves_pool st st' t ->
      ((exists f, In f features /\ Feature.ID f = Track.vehID t)
       <-> qualifies t))
  /\ (forall st t,
        run_frames detections = Ok st ->
        In t (tracks_active st) ->
        ((exists f, In f features /\ Feature.ID f = Track.vehID t)
         <-> qualifies t))
  /\ (forall f, In f features ->
        exists t,
          feature_of t f /\ qualifies t
          /\ ((exists pre item post st st',
                  detections = pre ++ item :: post
                  /\ run_frames pre = Ok st
                  /\ frame_body st item = Ok st'
                  /\ leaves_pool st st' t)
              \/ (exists st,
                    run_frames detections = Ok st
                    /\ In t (tracks_active st)))).
Proof.
  intros Hret.
  destruct (track_iou_inv _ _ _ _ Hret) as (stf & rest & Hrun & Hrest & Hmap & _).
  pose proof (run_frames_pool_inv _ _ Hrun) as Hinvf.
  destruct (remaining_features_spec _ _ Hrest) as [Hr1 Hr2].
  assert (Hto : forall i,
             (exists f, In f features /\ Feature.ID f = i) <->
             (exists f, In f (tracks_geojson stf ++ rest) /\ Feature.ID f = i)).
  { intros i. split; intros (f & Hf & Hid).
    - destruct (Forall2_In_r _ _ _ _ Hmap Hf) as (f0 & Hf0 & Hset).
      exists f0. split; [exact Hf0|].
      destruct (set_max_class_keeps _ _ _ Hset) as [K _]. congruence.
    - destruct (Forall2_In_l _ _ _ _ Hmap Hf) as (f1 & Hf1 & Hset).
      exists f1. split; [exact Hf1|].
      destruct (set_max_class_keeps _ _ _ Hset) as [K _]. congruence. }
  split; [|split].
  - intros pre item post st st' t Hdec Hpre Hbody [Ht Hgone].
    rewrite Hto.
    pose proof (run_frames_pool_inv _ _ Hpre) as Hinv.
    assert (Hpost : for_each frame_body st' post = Ok stf).
    { unfold Iou.run_frames in Hrun, Hpre. rewrite Hdec in Hrun.
      apply for_each_prefix_ok in Hrun. destruct Hrun as (s1 & Hs1 & Hs2).
      rewrite Hpre in Hs1. injection Hs1 as <-.
      simpl in Hs2. rewrite Hbody in Hs2. exact Hs2. }
    destruct (frame_step_pool _ _ _ Hinv Hbody)
      as (Hinv' & Hle & _ & nf & Hg & _ & Hnf & Hall).
    destruct (run_pool _ _ _ Hinv' Hpost)
      as (_ & Hle' & Hids & later & Hg' & Hlater).
    destruct Hinv as (_ & Hnd & Hcnt & Hfeat).
    assert (Hfresh : forall i, In i (ids (tracks_active st')) \/ vehID st' < i ->
                               i <> Track.vehID t).
    { intros i [Hi|Hi] ->; [auto|]. specialize (Hcnt t Ht). lia. }
    split.
    + intros (f & Hf & Hid). apply in_app_or in Hf. destruct Hf as [Hf|Hf].
      * rewrite Hg' in Hf. apply in_app_or in Hf. destruct Hf as [Hf|Hf].
        -- rewrite Hg in Hf. apply in_app_or in Hf. destruct Hf as [Hf|Hf].
           ++ exfalso. destruct (Hfeat f Hf) as [_ Hn]. apply Hn.
              rewrite Hid. now apply in_map.
           ++ destruct (Hnf f Hf) as (t2 & [Ht2 _] & Hmk & Hq).
              assert (t2 = t) as <-; [|exact Hq].
              apply (NoDup_map_inj Track.vehID (tracks_active st)); auto.
              rewrite <- (make_feature_ID _ _ Hmk). exact Hid.
        -- exfalso. apply (Hfresh (Feature.ID f)); auto.
      * exfalso. destruct (Hr1 f Hf) as (t2 & Ht2 & Hmk & _).
        apply (Hfresh (Feature.ID f)); [|exact Hid].
        rewrite (make_feature_ID _ _ Hmk). apply Hids. now apply in_map.
    + intros Hq. destruct (Hall t (conj Ht Hgone) Hq) as (f & Hf & Hid).
      exists f. split; [|exact Hid].
      apply in_or_app. left. rewrite Hg'. apply in_or_app. left.
      rewrite Hg. apply in_or_app. now right.
  - intros st t Hst Ht. rewrite Hto.
    assert (st = stf) as -> by congruence.
    destruct Hinvf as (_ & Hnd & _ & Hfeat). split.
    + intros (f & Hf & Hid). apply in_app_or in Hf. destruct Hf as [Hf|Hf].
      * exfalso. destruct (Hfeat f Hf) as [_ Hn]. apply Hn.
        rewrite Hid. now apply in_map.
      * destruct (Hr1 f Hf) as (t2 & Ht2 & Hmk & Hq).
        assert (t2 = t) as <-; [|exact Hq].
        apply (NoDup_map_inj Track.vehID (tracks_active stf)); auto.
        rewrite <- (make_feature_ID _ _ Hmk). exact Hid.
    + intros Hq. destruct (Hr2 t Ht Hq) as (f & Hf & Hmk).
      exists f. split; [apply in_or_app; now right|].
      now apply make_feature_ID.
  - intros f' Hf'.
    destruct (Forall2_In_r _ _ _ _ Hmap Hf') as (f & Hf & Hset).
    apply in_app_or in Hf. destruct Hf as [Hf|Hf].
    + destruct (features_origin _ _ _ initial_pool_inv Hrun f Hf) as [[]|H].
      destruct H as (pre & item & post & st & st' & t & Hdec & Hpre & Hbody
                     & Hleave & Hq & Hmk).
      exists t. split.
      { apply (feature_of_set_max_class _ _ _ _ Hset), make_feature_of, Hmk. }
      split; [exact Hq|]. left. exists pre, item, post, st, st'. auto.
    + destruct (Hr1 f Hf) as (t & Ht & Hmk & Hq).
      exists t. split.
      { apply (feature_of_set_max_class _ _ _ _ Hset), make_feature_of, Hmk. }
      split; [exact Hq|]. right. exists stf. auto.
Qed.

Lemma filter_sigma_l (d : Det.t) (df : list Det.t) :
  In d (filter (fun det => Qge_bool (Det.conf det) sigma_l) df) ->
  (sigma_l <= Det.conf d)%Q /\ In d df.
Proof.
  intros H. apply filter_In in H. destruct H as [Hin Hc].
  split; [now apply Qle_bool_iff|exact Hin].
Qed.

(** C7: in every frame, whatever tracks were handled before, the detection
    a track picks as [best_match] comes from the detections of the frame and
    has confidence at least [sigma_l]; no track ever records a confidence
    below [sigma_l], and no detection below [sigma_l] is in the output,
    neither as a match nor as the start of a track. *)
Theorem best_match_is_eligible
  (detections pre post : list (Z * list Det.t)) (frame_num : Z)
  (detections_frame : list Det.t) (st : State) :
  detections = pre ++ (frame_num, detections_frame) :: post ->
  run_frames pre = Ok st ->
  (forall tpre trk tpost loc d0 ds best_match,
      tracks_active st = tpre ++ trk :: tpost ->
      for_each (track_body frame_num)
               (start_locals sigma_l st detections_frame) tpre = Ok loc ->
      dets loc = d0 :: ds ->
      best_match_of iou trk d0 ds = Ok best_match ->
      (sigma_l <= Det.conf best_match)%Q /\ In best_match detections_frame)
  /\ (forall t, In t (tracks_active st) ->
        Forall (fun c => (sigma_l <= c)%Q) (Track.conf t))
  /\ (forall st', frame_body st (frame_num, detections_frame) = Ok st' ->
        (forall t, In t (tracks_active st') ->
           Forall (fun c => (sigma_l <= c)%Q) (Track.conf t))
        /\ (forall fn o id d first,
              In (fn, o) (new_detections st') -> In (id, (d, first)) o ->
              (sigma_l <= Det.conf d)%Q))
  /\ (forall nd features fin,
        track_iou detections = Ok (nd, features, fin) ->
        forall fn o id a,
          In (fn, o) nd -> In (id, a) o ->
          (sigma_l <= Det.conf (Annotated.det a))%Q).
Proof.
  intros Hdec Hpre.
  pose (Q := fun t : Track.t => Forall (fun c => (sigma_l <= c)%Q) (Track.conf t)).
  pose (D := fun d : Det.t => (sigma_l <= Det.conf d)%Q).
  assert (Hupd : forall fn t d, Q t -> D d -> Q (update_track fn t d)).
  { intros fn t d Ht Hd. unfold Q. simpl. apply Forall_app. split; [exact Ht|].
    constructor; [exact Hd|constructor]. }
  assert (Hinc : forall t, Q t -> Track.age t < t_miss_max -> Q (increment_age t))
    by (intros t Ht _; exact Ht).
  assert (Hnew : forall fn id d, D d -> Q (new_track fn id d))
    by (intros fn id d Hd; unfold Q; simpl; constructor; [exact Hd|constructor]).
  assert (Hfil : forall d, Qge_bool (Det.conf d) sigma_l = true -> D d)
    by (intros d Hd; now apply Qle_bool_iff).
  assert (Hreach : forall l s,
             run_frames l = Ok s ->
             Forall Q (tracks_active s)
             /\ Forall (fun fo => Forall (fun e => D (entry_det e)) (snd fo))
                       (new_detections s)).
  { intros l s Hs.
    apply (run_forall Q D Hupd Hinc Hnew Hfil l initial_state s);
      [constructor|constructor|exact Hs]. }
  destruct (Hreach _ _ Hpre) as [HQst Hndst].
  split; [|split; [|split]].
  - intros tpre trk tpost loc d0 ds best Hpool Hloop Hdets Hbest.
    assert (HD : Forall (fun d => (sigma_l <= Det.conf d)%Q
                                  /\ In d detections_frame) (dets loc)).
    { assert (Hs : Forall (fun d => (sigma_l <= Det.conf d)%Q
                                    /\ In d detections_frame)
                          (dets (start_locals sigma_l st detections_frame))).
      { unfold start_locals. cbn [dets]. apply Forall_forall.
        intros d Hd. now apply filter_sigma_l. }
      assert (Ht : Forall (fun _ : Track.t => True) tpre)
        by (apply Forall_forall; auto).
      apply (loop_forall (fun _ => True)
               (fun d => (sigma_l <= Det.conf d)%Q /\ In d detections_frame)
               frame_num tpre (start_locals sigma_l st detections_frame) loc
               (fun _ _ _ _ => I) (fun _ _ _ => I) Ht Hs
               (Forall_nil _) (Forall_nil _) Hloop). }
    unfold best_match_of in Hbest.
    destruct (list_last (Track.bboxes trk)) as [bb|]; [|discriminate].
    cbn [bind] in Hbest. injection Hbest as <-.
    rewrite Forall_forall in HD. apply HD. rewrite Hdets. apply max_by_In.
  - intros t Ht. rewrite Forall_forall in HQst. apply (HQst t Ht).
  - intros st' Hbody.
    assert (Hst' : run_frames (pre ++ [(frame_num, detections_frame)]) = Ok st').
    { unfold Iou.run_frames in *. rewrite for_each_app, Hpre. cbn [bind for_each].
      rewrite Hbody. reflexivity. }
    destruct (Hreach _ _ Hst') as [HQ' Hnd']. split.
    + intros t Ht. rewrite Forall_forall in HQ'. apply (HQ' t Ht).
    + intros fn o id d first Ho He. rewrite Forall_forall in Hnd'.
      specialize (Hnd' _ Ho). cbn [snd] in Hnd'. rewrite Forall_forall in Hnd'.
      apply (Hnd' _ He).
  - intros nd features fin Hret fn o id a Ho Ha.
    destruct (track_iou_inv _ _ _ _ Hret) as (stf & rest & Hrun & _ & _ & -> & _).
    destruct (Hreach _ _ Hrun) as [_ Hndf].
    unfold annotate in Ho. apply in_map_iff in Ho.
    destruct Ho as ([fn0 o0] & Heq & Ho0). injection Heq as <- <-.
    apply in_map_iff in Ha. destruct Ha as ([id0 [d0 first0]] & Heq & Ha0).
    unfold set_finished in Heq. injection Heq as <- <-. cbn [Annotated.det].
    rewrite Forall_forall in Hndf. specialize (Hndf _ Ho0). cbn [snd] in Hndf.
    rewrite Forall_forall in Hndf. apply (Hndf _ Ha0).
Qed.

(** C9: with [t_miss_max >= 0], after each frame every track of the active
    pool has an age between 0 and [t_miss_max]; in the pool a frame leaves
    behind, a track has age 0 (it was matched or created in the frame) or is a
    track of the pool before, of age below [t_miss_max], with its age
    incremented. *)
Theorem miss_age_bounded
  (detections pre post : list (Z * list Det.t)) (st : State) :
  0 <= t_miss_max ->
  detections = pre ++ post ->
  run_frames pre = Ok st ->
  (forall t, In t (tracks_active st) -> 0 <= Track.age t <= t_miss_max)
  /\ (forall item st' t',
        frame_body st item = Ok st' ->
        In t' (tracks_active st') ->
        Track.age t' = 0
        \/ exists t, In t (tracks_active st)
                     /\ Track.age t < t_miss_max
                     /\ t' = increment_age t).
Proof.
  intros Hmax _ Hpre. split.
  - pose (Q := fun t : Track.t => 0 <= Track.age t <= t_miss_max).
    assert (H : Forall Q (tracks_active st)
                /\ Forall (fun fo => Forall (fun e => True) (snd fo))
                          (new_detections st)).
    { apply (run_forall Q (fun _ => True)) with (detections := pre)
                                                 (st := initial_state).
      - unfold Q. simpl. intros. lia.
      - unfold Q. simpl. intros. lia.
      - unfold Q. simpl. intros. lia.
      - auto.
      - constructor.
      - constructor.
      - exact Hpre. }
    destruct H as [H _]. intros t Ht. rewrite Forall_forall in H. apply (H t Ht).
  - intros [frame_num df] st' t' Hbody Ht'.
    destruct (frame_body_inv _ _ _ _ Hbody) as (loc & Hloop & ->).
    cbn [tracks_active] in Ht'.
    assert (Hkept : Forall
              (fun t' => Track.age t' = 0
                         \/ exists t, In t (tracks_active st)
                                      /\ Track.age t < t_miss_max
                                      /\ t' = increment_age t)
              (updated_tracks loc ++ saved_tracks loc)).
    { refine (for_each_invariant (track_body frame_num)
                (fun _ l => Forall _ (updated_tracks l ++ saved_tracks l))
                (tracks_active st) _ _ loc _ Hloop); [|constructor].
      intros tpre x tpost l l' Hwhole HF Hb.
      assert (Hx : In x (tracks_active st))
        by (rewrite Hwhole; apply in_or_app; right; now left).
      rewrite Forall_app in HF. destruct HF as [HFu HFs].
      destruct (track_body_cases _ _ _ _ Hb)
        as [best dets' Hbest Hdel|Hage|feature Hage Hc Hmk|Hage Hc];
        cbn [updated_tracks saved_tracks bind_loop_track];
        rewrite ?Forall_app; repeat split; auto;
        (constructor;
         [(left; reflexivity) || (right; exists x; auto)|constructor]). }
    rewrite app_assoc in Ht'. apply in_app_or in Ht'. destruct Ht' as [Ht'|Ht'].
    + rewrite Forall_forall in Hkept. apply (Hkept t' Ht').
    + left. apply fresh_tracks_In in Ht'. destruct Ht' as (i & d & _ & ->).
      reflexivity.
Qed.

Lemma set_entries_fresh (ds : list Det.t) :
  forall (o : list (Z * (Det.t * bool))) (id : Z),
    (forall k, In k (map fst o) -> k <= id) ->
    set_entries o (fresh_entries id ds) = o ++ fresh_entries id ds.
Proof.
  induction ds as [|d ds IH]; intros o id Hk.
  - unfold set_entries. simpl. now rewrite app_nil_r.
  - unfold set_entries. cbn [fresh_entries fold_left fst snd].
    rewrite dict_set_fresh by (intros H; apply Hk in H; lia).
    change (set_entries (o ++ [(id + 1, (d, true))]) (fresh_entries (id + 1) ds)
            = o ++ (id + 1, (d, true)) :: fresh_entries (id + 1) ds).
    rewrite IH.
    + rewrite <- app_assoc. reflexivity.
    + intros k Hin. rewrite map_app in Hin. apply in_app_or in Hin.
      destruct Hin as [Hin|[<-|[]]]; [apply Hk in Hin; lia|simpl; lia].
Qed.

Lemma fresh_entries_dets (ds : list Det.t) (id : Z) :
  map entry_det (fresh_entries id ds) = ds.
Proof.
  revert id. induction ds as [|d ds IH]; intros id; [reflexivity|].
  simpl. f_equal. apply IH.
Qed.

(** The loop over the pool, seen from the detections: every eligible
    detection is either still in [dets] or in the output of the frame. *)
Lemma loop_out (frame_num : Z) (detections_frame : list Det.t)
  (st : State) (loc : Locals) :
  NoDup (ids (tracks_active st)) ->
  for_each (track_body frame_num) (start_locals sigma_l st detections_frame)
           (tracks_active st) = Ok loc ->
  Permutation (map entry_det (out loc) ++ dets loc)
              (filter (fun det => Qge_bool (Det.conf det) sigma_l)
                      detections_frame)
  /\ incl (map fst (out loc)) (ids (tracks_active st))
  /\ Forall (fun e => snd (snd e) = false) (out loc).
Proof.
  intros Hnd Hrun.
  refine (for_each_invariant (track_body frame_num)
            (fun pre l =>
               Permutation (map entry_det (out l) ++ dets l)
                 (filter (fun det => Qge_bool (Det.conf det) sigma_l)
                         detections_frame)
               /\ incl (map fst (out l)) (ids pre)
               /\ Forall (fun e => snd (snd e) = false) (out l))
            (tracks_active st) _ _ loc _ Hrun).
  - intros pre x post l l' Hwhole (Hperm & Hincl & Hfirst) Hbody.
    assert (Hx : ~ In (Track.vehID x) (ids pre)).
    { rewrite Hwhole in Hnd. unfold ids in Hnd. rewrite map_app in Hnd.
      simpl in Hnd. apply NoDup_remove_2 in Hnd. intros H. apply Hnd.
      apply in_or_app. now left. }
    assert (Hmono : incl (map fst (out l)) (ids (pre ++ [x]))).
    { intros k Hk. rewrite ids_app. apply in_or_app. left. now apply Hincl. }
    destruct (track_body_cases _ _ _ _ Hbody)
      as [best dets' Hbest Hdel|Hage|feature Hage Hc Hmk|Hage Hc];
      cbn [dets out bind_loop_track]; auto.
    change (Track.vehID (update_track frame_num x best)) with (Track.vehID x).
    rewrite dict_set_fresh by (intros H; apply Hx, Hincl, H).
    split; [|split].
    + rewrite map_app, <- app_assoc. cbn [map app]. unfold entry_det at 2.
      cbn [fst snd]. rewrite <- Hperm.
      apply Permutation_app_head. symmetry. now apply del_first_perm.
    + rewrite map_app. cbn [map fst]. intros k Hk. apply in_app_or in Hk.
      destruct Hk as [Hk|[<-|[]]]; [now apply Hmono|].
      rewrite ids_app. apply in_or_app. right. now left.
    + apply Forall_app. split; [exact Hfirst|]. constructor; [reflexivity|].
      constructor.
  - unfold start_locals. cbn [out dets map app]. split; [reflexivity|].
    split; [intros k []|constructor].
Qed.

Lemma dict_get_annotate (fin : list Z) (k : Z)
  (nd : list (Z * list (Z * (Det.t * bool)))) :
  dict_get Z.eqb k (annotate fin nd)
  = option_map (map (set_finished fin)) (dict_get Z.eqb k nd).
Proof.
  induction nd as [|[k' o] nd IH]; [reflexivity|].
  simpl. destruct (k' =? k); [reflexivity|exact IH].
Qed.

Lemma run_new_detections_get (l : list (Z * list Det.t)) (k : Z) :
  forall st st',
    for_each frame_body st l = Ok st' ->
    ~ In k (map fst l) ->
    dict_get Z.eqb k (new_detections st') = dict_get Z.eqb k (new_detections st).
Proof.
  induction l as [|[fn df] l IH]; intros st st' Hrun Hk.
  - injection Hrun as <-. reflexivity.
  - cbn [for_each] in Hrun.
    destruct (frame_body st (fn, df)) as [st1|] eqn:E; [|discriminate].
    cbn [bind] in Hrun. simpl in Hk.
    rewrite (IH st1 st' Hrun) by tauto.
    destruct (frame_body_inv _ _ _ _ E) as (loc & _ & ->).
    cbn [new_detections]. rewrite dict_get_set.
    destruct (Z.eqb_spec fn k); [tauto|reflexivity].
Qed.

Lemma set_finished_det (fin : list Z) (e : Z * (Det.t * bool)) :
  Annotated.det (snd (set_finished fin e)) = entry_det e
  /\ Annotated.first (snd (set_finished fin e)) = snd (snd e)
  /\ fst (set_finished fin e) = fst e
  /\ Annotated.finished (snd (set_finished fin e))
     = existsb (Z.eqb (fst e)) fin.
Proof. destruct e as [id [d first]]. simpl. auto. Qed.

(** ** What one frame does to each track of the pool *)

Lemma update_track_records (frame_num : Z) (t : Track.t) (d : Det.t) :
  records frame_num d t (update_track frame_num t d).
Proof.
  unfold records, update_track. cbn.
  repeat split; auto.
  - intros H. unfold py_max, Qgt_bool.
    destruct (Qle_bool (Det.conf d) (Track.max_conf t)) eqn:E; [|reflexivity].
    apply Qle_bool_iff in E. exfalso. apply (Qlt_not_le _ _ H E).
  - intros H. unfold py_max, Qgt_bool.
    apply Qle_bool_iff in H. now rewrite H.
Qed.


Lemma new_track_starts (frame_num id : Z) (d : Det.t) :
  starts frame_num id d (new_track frame_num id d).
Proof. unfold starts, new_track. cbn. repeat split; auto. Qed.

Lemma fresh_entries_track (frame_num : Z) (ds : list Det.t) :
  forall id i d b,
    In (i, (d, b)) (fresh_entries id ds) ->
    In (new_track frame_num i d) (fresh_tracks frame_num id ds).
Proof.
  induction ds as [|d0 ds IH]; intros id i d b; [intros []|].
  cbn [fresh_entries fresh_tracks]. intros [H|H].
  - injection H as <- <- _. now left.
  - right. now apply (IH _ _ _ b).
Qed.

Lemma fresh_entries_keys (frame_num : Z) (ds : list Det.t) (id : Z) :
  map fst (fresh_entries id ds) = ids (fresh_tracks frame_num id ds).
Proof.
  revert id. induction ds as [|d ds IH]; intros id; [reflexivity|].
  cbn [fresh_entries fresh_tracks map ids fst new_track Track.vehID].
  f_equal. apply IH.
Qed.

Lemma ids_snoc (l : list Track.t) (t : Track.t) (i : Z) :
  In i (ids (l ++ [t])) -> In i (ids l) \/ i = Track.vehID t.
Proof.
  unfold ids. rewrite map_app. intros H. apply in_app_or in H.
  destruct H as [H|[H|[]]]; auto.
Qed.

(** Each track of the pool ends the loop of a frame in one of three ways:
    it has taken a detection, recorded under its identifier in the output of
    the frame; or it has taken none and is kept one frame older; or it has
    taken none, has reached [t_miss_max], and is neither updated nor saved.
    Every entry of the output belongs to a track that took its detection. *)
Lemma loop_fates (frame_num : Z) (detections_frame : list Det.t)
  (st : State) (loc : Locals) :
  NoDup (ids (tracks_active st)) ->
  for_each (track_body frame_num) (start_locals sigma_l st detections_frame)
           (tracks_active st) = Ok loc ->
  (forall t, In t (tracks_active st) ->
     (exists d,
         dict_get Z.eqb (Track.vehID t) (out loc) = Some (d, false)
         /\ In (update_track frame_num t d) (updated_tracks loc))
     \/ (dict_get Z.eqb (Track.vehID t) (out loc) = None
         /\ Track.age t < t_miss_max
         /\ In (increment_age t) (saved_tracks loc))
     \/ (dict_get Z.eqb (Track.vehID t) (out loc) = None
         /\ t_miss_max <= Track.age t
         /\ ~ In (Track.vehID t)
                 (ids (updated_tracks loc ++ saved_tracks loc))))
  /\ (forall id d b,
        In (id, (d, b)) (out loc) ->
        b = false
        /\ exists t, In t (tracks_active st)
                     /\ Track.vehID t = id
                     /\ In (update_track frame_num t d) (updated_tracks loc))
  /\ NoDup (map fst (out loc)).
Proof.
  intros Hnodup Hloop.
  pose (fate := fun (loc : Locals) (t : Track.t) =>
    (exists d,
        dict_get Z.eqb (Track.vehID t) (out loc) = Some (d, false)
        /\ In (update_track frame_num t d) (updated_tracks loc))
    \/ (dict_get Z.eqb (Track.vehID t) (out loc) = None
        /\ Track.age t < t_miss_max
        /\ In (increment_age t) (saved_tracks loc))
    \/ (dict_get Z.eqb (Track.vehID t) (out loc) = None
        /\ t_miss_max <= Track.age t
        /\ ~ In (Track.vehID t)
                (ids (updated_tracks loc ++ saved_tracks loc)))).
  pose (P := fun (pre : list Track.t) (loc : Locals) =>
    (forall t, In t pre -> fate loc t)
    /\ (forall id d b,
          In (id, (d, b)) (out loc) ->
          b = false
          /\ exists t, In t pre /\ Track.vehID t = id
                       /\ In (update_track frame_num t d) (updated_tracks loc))
    /\ NoDup (map fst (out loc))
    /\ incl (map fst (out loc)) (ids pre)
    /\ incl (ids (updated_tracks loc ++ saved_tracks loc)) (ids pre)).
  assert (HP : P (tracks_active st) loc).
  { refine (for_each_invariant (track_body frame_num) P (tracks_active st)
              _ _ loc _ Hloop).
    - intros pre x post l l' Hwhole (Hfate & Hent & Hnd & Hkeys & Hkept) Hbody.
      assert (Hx : ~ In (Track.vehID x) (ids pre)).
      { rewrite Hwhole in Hnodup. unfold ids in Hnodup.
        rewrite map_app in Hnodup. cbn [map] in Hnodup.
        apply NoDup_remove_2 in Hnodup. intros H. apply Hnodup.
        apply in_or_app. now left. }
      assert (Hother : forall t, In t pre -> Track.vehID t <> Track.vehID x).
      { intros t Ht E. apply Hx. rewrite <- E. unfold ids. now apply in_map. }
      assert (Hnokey : ~ In (Track.vehID x) (map fst (out l)))
        by (intros H; apply Hx; now apply Hkeys).
      assert (Hnokept : ~ In (Track.vehID x)
                          (ids (updated_tracks l ++ saved_tracks l)))
        by (intros H; apply Hx; now apply Hkept).
      assert (Hpre : forall i, In i (ids pre) -> In i (ids (pre ++ [x]))).
      { intros i Hi. unfold ids. rewrite map_app. apply in_or_app. now left. }
      assert (Hlast : In (Track.vehID x) (ids (pre ++ [x]))).
      { unfold ids. rewrite map_app. apply in_or_app. right. now left. }
      destruct (track_body_cases _ _ _ _ Hbody)
        as [best dets' Hbest Hdel|Hage|feature Hage Hc Hmk|Hage Hc];
        unfold P, fate;
        cbn [out updated_tracks saved_tracks bind_loop_track].
      + (* the track took [best] *)
        split; [|split; [|split; [|split]]].
        * intros t Ht. apply in_app_or in Ht. destruct Ht as [Ht|[<-|[]]].
          -- rewrite dict_get_set.
             destruct (Z.eqb_spec (Track.vehID x) (Track.vehID t)) as [E|E];
               [exfalso; now apply (Hother t Ht)|].
             destruct (Hfate t Ht) as [(d & Hd & Hu)|[(Hn & Ha & Hs)|(Hn & Ha & Hg)]].
             ++ left. exists d. split; [exact Hd|]. apply in_or_app. now left.
             ++ right. left. auto.
             ++ right. right. split; [exact Hn|]. split; [exact Ha|].
                intros H. rewrite <- app_assoc in H. cbn [app] in H.
                unfold ids in H. rewrite map_app in H. cbn [map] in H.
                apply in_app_or in H. destruct H as [H|[H|H]].
                ** apply Hg. unfold ids. rewrite map_app. apply in_or_app.
                   now left.
                ** cbn in H. congruence.
                ** apply Hg. unfold ids. rewrite map_app. apply in_or_app.
                   now right.
          -- left. exists best. rewrite dict_get_set, Z.eqb_refl.
             split; [reflexivity|]. apply in_or_app. right. now left.
        * intros id d b Hin. apply dict_set_In in Hin.
          destruct Hin as [E|Hin].
          -- injection E as -> -> ->. split; [reflexivity|].
             exists x. split; [apply in_or_app; right; now left|].
             split; [reflexivity|]. apply in_or_app. right. now left.
          -- destruct (Hent id d b Hin) as (Hb & t & Ht & Hid & Hu).
             split; [exact Hb|]. exists t.
             split; [apply in_or_app; now left|]. split; [exact Hid|].
             apply in_or_app. now left.
        * rewrite (dict_set_fresh _ _ _ Hnokey), map_app. cbn [map fst].
          apply (Permutation_NoDup (Permutation_cons_append _ _)).
          now constructor.
        * intros i Hi. rewrite (dict_set_fresh _ _ _ Hnokey), map_app in Hi.
          apply in_app_or in Hi. destruct Hi as [Hi|[<-|[]]]; auto.
        * intros i Hi. rewrite <- app_assoc in Hi. cbn [app] in Hi.
          unfold ids in Hi. rewrite map_app in Hi. cbn [map] in Hi.
          apply in_app_or in Hi. destruct Hi as [Hi|[Hi|Hi]].
          -- apply Hpre, Hkept. unfold ids. rewrite map_app.
             apply in_or_app. now left.
          -- cbn in Hi. now rewrite <- Hi.
          -- apply Hpre, Hkept. unfold ids. rewrite map_app.
             apply in_or_app. now right.
      + (* the track took none and is kept *)
        split; [|split; [|split; [|split]]].
        * intros t Ht. apply in_app_or in Ht. destruct Ht as [Ht|[<-|[]]].
          -- destruct (Hfate t Ht) as [H|[(Hn & Ha & Hs)|(Hn & Ha & Hg)]].
             ++ now left.
             ++ right. left. split; [exact Hn|]. split; [exact Ha|].
                apply in_or_app. now left.
             ++ right. right. split; [exact Hn|]. split; [exact Ha|].
                intros H. rewrite app_assoc in H. apply ids_snoc in H.
                destruct H as [H|H]; [now apply Hg|].
                cbn in H. now apply (Hother t Ht).
          -- right. left. split; [now apply dict_get_absent|].
             split; [exact Hage|]. apply in_or_app. right. now left.
        * intros id d b Hin. destruct (Hent id d b Hin) as (Hb & t & Ht & Hid & Hu).
          split; [exact Hb|]. exists t. split; [apply in_or_app; now left|].
          auto.
        * exact Hnd.
        * intros i Hi. now apply Hpre, Hkeys.
        * intros i Hi. rewrite app_assoc in Hi. apply ids_snoc in Hi.
          destruct Hi as [Hi|Hi]; [now apply Hpre, Hkept|].
          cbn in Hi. now rewrite Hi.
      + (* the track took none and is emitted *)
        split; [|split; [|split; [|split]]].
        * intros t Ht. apply in_app_or in Ht. destruct Ht as [Ht|[<-|[]]].
          -- exact (Hfate t Ht).
          -- right. right. split; [now apply dict_get_absent|]. auto.
        * intros id d b Hin. destruct (Hent id d b Hin) as (Hb & t & Ht & Hid & Hu).
          split; [exact Hb|]. exists t. split; [apply in_or_app; now left|].
          auto.
        * exact Hnd.
        * intros i Hi. now apply Hpre, Hkeys.
        * intros i Hi. now apply Hpre, Hkept.
      + (* the track took none and is dropped *)
        split; [|split; [|split; [|split]]].
        * intros t Ht. apply in_app_or in Ht. destruct Ht as [Ht|[<-|[]]].
          -- exact (Hfate t Ht).
          -- right. right. split; [now apply dict_get_absent|]. auto.
        * intros id d b Hin. destruct (Hent id d b Hin) as (Hb & t & Ht & Hid & Hu).
          split; [exact Hb|]. exists t. split; [apply in_or_app; now left|].
          auto.
        * exact Hnd.
        * intros i Hi. now apply Hpre, Hkeys.
        * intros i Hi. now apply Hpre, Hkept.
    - unfold P. cbn. split; [intros t []|]. split; [intros id d b []|].
      split; [constructor|]. split; intros i []. }
  destruct HP as (Hfate & Hent & Hnd & _ & _). auto.
Qed.

(** What one frame leaves: the pool, and the output of the frame as the
    entries of the tracks that took a detection followed by those of the
    tracks started. *)
Lemma frame_output (frame_num : Z) (detections_frame : list Det.t)
  (st st' : State) :
  pool_inv st ->
  frame_body st (frame_num, detections_frame) = Ok st' ->
  exists loc,
    for_each (track_body frame_num) (start_locals sigma_l st detections_frame)
             (tracks_active st) = Ok loc
    /\ tracks_active st'
       = updated_tracks loc ++ saved_tracks loc
         ++ fresh_tracks frame_num (vehID st) (dets loc)
    /\ dict_get Z.eqb frame_num (new_detections st')
       = Some (out loc ++ fresh_entries (vehID st) (dets loc))
    /\ (forall k, In k (map fst (out loc)) -> k <= vehID st).
Proof.
  intros (_ & Hnd & Hcnt & _) E.
  destruct (frame_body_inv _ _ _ _ E) as (loc & Hloop & Hst').
  destruct (loop_out _ _ _ _ Hnd Hloop) as (_ & Hincl & _).
  assert (Hkeys : forall k, In k (map fst (out loc)) -> k <= vehID st).
  { intros k Hk. apply Hincl in Hk. apply in_map_iff in Hk.
    destruct Hk as (t & <- & Ht). auto. }
  exists loc. split; [exact Hloop|]. rewrite Hst'.
  cbn [tracks_active new_detections]. split; [reflexivity|].
  split; [|exact Hkeys].
  rewrite dict_get_set, Z.eqb_refl. now rewrite set_entries_fresh.
Qed.

(** C3, as the code has it.  When the frame numbers of the input are
    distinct and [track_iou] returns, the output of a frame holds exactly
    the detections of the frame with confidence at least [sigma_l], each as
    often as the frame lists it and under an identifier of its own; the
    detections below [sigma_l] are not in the output.  Every detection of
    the output carries a [first] flag.  When no two detections of the input
    with confidence at least [sigma_l] are equal, so that in particular no
    dict is listed twice, every detection is in the output once, and its
    flag is false when a track of the pool took it, which then has recorded
    it, and true when it started a track under a new identifier. *)
Theorem output_carries_eligible_detections
  (detections pre post : list (Z * list Det.t)) (frame_num : Z)
  (detections_frame : list Det.t)
  (nd : list (Z * list (Z * Annotated.t))) (features : list Feature.t)
  (fin : list Z) :
  NoDup (map fst detections) ->
  detections = pre ++ (frame_num, detections_frame) :: post ->
  track_iou detections = Ok (nd, features, fin) ->
  exists st st' o,
    run_frames pre = Ok st
    /\ frame_body st (frame_num, detections_frame) = Ok st'
    /\ dict_get Z.eqb frame_num nd = Some o
    /\ Permutation
         (map (fun e => Annotated.det (snd e)) o)
         (filter (fun det => Qge_bool (Det.conf det) sigma_l)
                 detections_frame)
    /\ NoDup (map fst o)
    /\ (forall d, In d detections_frame ->
          (Det.conf d < sigma_l)%Q ->
          ~ In d (map (fun e => Annotated.det (snd e)) o))
    /\ (NoDup (eligible_detections sigma_l detections) ->
        NoDup (map (fun e => Annotated.det (snd e)) o)
        /\ forall id a,
             In (id, a) o ->
             (Annotated.first a = false
              /\ exists t t',
                   In t (tracks_active st)
                   /\ Track.vehID t = id
                   /\ In t' (tracks_active st')
                   /\ records frame_num (Annotated.det a) t t')
             \/ (Annotated.first a = true
                 /\ vehID st < id
                 /\ ~ In id (ids (tracks_active st))
                 /\ exists t',
                      In t' (tracks_active st')
                      /\ starts frame_num id (Annotated.det a) t')).
Proof.
  intros Hkeys Hdec Hret.
  destruct (track_iou_inv _ _ _ _ Hret) as (stf & rest & Hrun & _ & _ & -> & ->).
  assert (Hpost : ~ In frame_num (map fst post)).
  { rewrite Hdec, map_app in Hkeys. simpl in Hkeys.
    apply NoDup_remove_2 in Hkeys. intros H. apply Hkeys.
    apply in_or_app. now right. }
  unfold Iou.run_frames in Hrun. rewrite Hdec in Hrun.
  apply for_each_prefix_ok in Hrun. destruct Hrun as (st & Hpre & Hrun).
  cbn [for_each] in Hrun.
  destruct (frame_body st (frame_num, detections_frame)) as [st'|] eqn:E;
    [|discriminate].
  cbn [bind] in Hrun.
  pose proof (run_frames_pool_inv _ _ Hpre) as Hinv.
  destruct (frame_output _ _ _ _ Hinv E) as (loc & Hloop & Hpool & Hget' & Hle).
  destruct Hinv as (_ & Hnd & Hcnt & _).
  destruct (loop_out _ _ _ _ Hnd Hloop) as (Hperm & Hincl & _).
  destruct (loop_fates _ _ _ _ Hnd Hloop) as (_ & Hent & Hndk).
  assert (Hget : dict_get Z.eqb frame_num (new_detections stf)
                 = Some (out loc ++ fresh_entries (vehID st) (dets loc)))
    by now rewrite (run_new_detections_get _ _ _ _ Hrun Hpost).
  set (sf := set_finished (vehIDs_finished stf)).
  set (es := out loc ++ fresh_entries (vehID st) (dets loc)) in *.
  assert (Hdets : map (fun e => Annotated.det (snd e)) (map sf es)
                  = map entry_det es).
  { rewrite map_map. apply map_ext. intros e. apply set_finished_det. }
  assert (Hids : map fst (map sf es) = map fst es).
  { rewrite map_map. apply map_ext. intros e. apply set_finished_det. }
  assert (Hall : Permutation
            (map (fun e => Annotated.det (snd e)) (map sf es))
            (filter (fun det => Qge_bool (Det.conf det) sigma_l)
                    detections_frame)).
  { rewrite Hdets. unfold es. rewrite map_app, fresh_entries_dets.
    exact Hperm. }
  exists st, st', (map sf es).
  split; [exact Hpre|]. split; [exact E|].
  split; [|split; [exact Hall|split; [|split]]].
  - rewrite dict_get_annotate, Hget. reflexivity.
  - rewrite Hids. unfold es. rewrite map_app.
    rewrite (fresh_entries_keys frame_num).
    assert (Hfresh : NoDup (ids (fresh_tracks frame_num (vehID st) (dets loc))))
      by apply fresh_tracks_NoDup.
    revert Hndk Hle Hfresh.
    generalize (map fst (out loc)) as ks.
    intros ks Hndk Hks Hfresh. induction ks as [|k ks IH]; [exact Hfresh|].
    cbn [app]. inversion Hndk as [|? ? Hk Hnd']; subst. constructor.
    + intros H. apply in_app_or in H. destruct H as [H|H]; [now apply Hk|].
      apply fresh_tracks_ids in H. specialize (Hks k (or_introl eq_refl)). lia.
    + apply IH; [exact Hnd'|]. intros k' Hk'. apply Hks. now right.
  - intros d _ Hlow Hd. apply (Permutation_in _ Hall) in Hd.
    apply filter_sigma_l in Hd. destruct Hd as [Hd _].
    apply (Qlt_not_le _ _ Hlow Hd).
  - intros Hdistinct. split.
    + apply (Permutation_NoDup (Permutation_sym Hall)).
      unfold eligible_detections in Hdistinct.
      rewrite Hdec, flat_map_app in Hdistinct. cbn [flat_map snd] in Hdistinct.
      apply NoDup_app_remove_l in Hdistinct.
      now apply NoDup_app_remove_r in Hdistinct.
    + intros id a Hin. apply in_map_iff in Hin.
      destruct Hin as ([id0 [d b]] & Heq & Hin).
      unfold sf in Heq. cbn [set_finished] in Heq. injection Heq as <- <-.
      cbn [Annotated.first Annotated.det].
      unfold es in Hin. apply in_app_or in Hin. destruct Hin as [Hin|Hin].
      * left. destruct (Hent _ _ _ Hin) as (-> & t & Ht & Hid & Hu).
        split; [reflexivity|].
        exists t, (update_track frame_num t d). split; [exact Ht|].
        split; [exact Hid|]. split; [|apply update_track_records].
        rewrite Hpool. apply in_or_app. now left.
      * right. pose proof (fresh_entries_In _ _ _ Hin) as (_ & Hb & Hrange).
        cbn [fst snd] in Hb, Hrange. split; [exact Hb|].
        split; [lia|]. split.
        -- intros H. apply in_map_iff in H. destruct H as (t & Hid & Ht).
           specialize (Hcnt t Ht). lia.
        -- exists (new_track frame_num id0 d). split; [|apply new_track_starts].
           rewrite Hpool. apply in_or_app. right. apply in_or_app. right.
           now apply (fresh_entries_track frame_num _ _ _ _ b).
Qed.

(** ** The loops never raise; only the last loop of [track_iou] can. *)

Lemma track_body_total (frame_num : Z) (loc : Locals) (trk : Track.t) :
  well_formed trk -> exists loc', track_body frame_num loc trk = Ok loc'.
Proof.
  intros (Hf & Hb & Hc).
  assert (Hrest : forall l,
             exists loc',
               bind (age_or_finish sigma_h t_min t_miss_max l trk)
                    (fun x => let '(trk2, loc2) := x in
                              Ok (bind_loop_track trk2 loc2)) = Ok loc').
  { intros l. unfold age_or_finish.
    destruct (Track.age trk <? t_miss_max); [cbn [bind]; eauto|].
    destruct (finish_condition_total trk (conj Hf (conj Hb Hc))) as [[|] ->];
      cbn [bind]; [|eauto].
    unfold make_feature. destruct (list_first_nonempty _ Hf) as [n ->].
    cbn [bind]. eauto. }
  unfold Iou.track_body, try_match, best_match_of.
  destruct (dets loc) as [|d0 ds] eqn:Ed; [cbn [bind]; apply Hrest|].
  rewrite <- Ed. destruct (list_last_nonempty _ Hb) as [bb ->]. cbn [bind].
  match goal with
  | |- context [max_by ?k d0 ds] =>
      assert (Hin : In (max_by k d0 ds) (dets loc))
        by (rewrite Ed; apply max_by_In);
      generalize dependent (max_by k d0 ds)
  end.
  intros best Hin.
  destruct (Qge_bool (iou bb (make_bbox best)) sigma_iou);
    [|cbn [bind]; apply Hrest].
  destruct (del_first_ok _ _ Hin) as [dets' ->]. cbn [bind]. eauto.
Qed.

Lemma loop_track_well_formed (frame_num : Z) (tracks : list Track.t)
  (loc0 loc : Locals) :
  Forall well_formed tracks ->
  (forall tr, loop_track loc0 = Some tr -> well_formed tr) ->
  for_each (track_body frame_num) loc0 tracks = Ok loc ->
  forall tr, loop_track loc = Some tr -> well_formed tr.
Proof.
  intros Hwf H0 Hrun.
  refine (for_each_invariant (track_body frame_num)
            (fun _ l => forall tr, loop_track l = Some tr -> well_formed tr)
            tracks _ loc0 loc H0 Hrun).
  intros pre x post l l' Hwhole _ Hbody tr.
  assert (Hx : well_formed x).
  { rewrite Forall_forall in Hwf. apply Hwf. rewrite Hwhole.
    apply in_or_app. right. now left. }
  destruct (track_body_cases _ _ _ _ Hbody)
    as [best dets' Hbest Hdel|Hage|feature Hage Hc Hmk|Hage Hc];
    cbn [loop_track bind_loop_track]; intros [= <-]; auto.
  apply well_formed_update.
Qed.

Lemma loop_total (frame_num : Z) (tracks : list Track.t) :
  forall loc,
    Forall well_formed tracks ->
    exists loc', for_each (track_body frame_num) loc tracks = Ok loc'.
Proof.
  induction tracks as [|trk tracks IH]; intros loc Hwf; [simpl; eauto|].
  inversion Hwf as [|? ? Htrk Hrest]; subst.
  destruct (track_body_total frame_num loc trk Htrk) as [loc1 H1].
  destruct (IH loc1 Hrest) as [loc' H']. exists loc'.
  cbn [for_each]. rewrite H1. exact H'.
Qed.

Lemma frame_body_total (st : State) (item : Z * list Det.t) :
  pool_inv st -> exists st', frame_body st item = Ok st'.
Proof.
  intros (Hwf & _). destruct item as [frame_num df]. unfold Iou.frame_body.
  destruct (loop_total frame_num (tracks_active st)
              (start_locals sigma_l st df) Hwf) as [loc ->].
  cbn [bind]. rewrite start_tracks_spec. eauto.
Qed.

(** The loop over the frames returns, and the loop variable [track], once
    bound, holds a well-formed track. *)
Lemma run_total (l : list (Z * list Det.t)) :
  forall st,
    pool_inv st ->
    (forall tr, track st = Some tr -> well_formed tr) ->
    exists st',
      for_each frame_body st l = Ok st'
      /\ (forall tr, track st' = Some tr -> well_formed tr).
Proof.
  induction l as [|item l IH]; intros st Hinv Htr; [simpl; eauto|].
  destruct (frame_body_total st item Hinv) as [st1 H1].
  destruct (frame_step_pool _ _ _ Hinv H1) as (Hinv1 & _).
  assert (Htr1 : forall tr, track st1 = Some tr -> well_formed tr).
  { destruct item as [frame_num df].
    destruct (frame_body_inv _ _ _ _ H1) as (loc & Hloop & ->).
    cbn [track]. destruct Hinv as (Hwf & _).
    apply (loop_track_well_formed frame_num (tracks_active st)
             (start_locals sigma_l st df) loc Hwf); auto. }
  destruct (IH st1 Hinv1 Htr1) as (st' & H' & Htr').
  exists st'. split; [|exact Htr']. cbn [for_each]. rewrite H1. exact H'.
Qed.

Theorem run_frames_total (detections : list (Z * list Det.t)) :
  exists st, run_frames detections = Ok st.
Proof.
  destruct (run_total detections initial_state initial_pool_inv) as (st & H & _).
  - discriminate.
  - eauto.
Qed.

Lemma remaining_features_total (tracks : list Track.t) :
  Forall well_formed tracks ->
  exists rest, remaining_features sigma_h t_min tracks = Ok rest.
Proof.
  induction 1 as [|trk tracks Htrk _ IH]; [simpl; eauto|].
  destruct IH as [rest Hrest]. cbn [remaining_features].
  destruct (finish_condition_total trk Htrk) as [[|] ->]; cbn [bind];
    rewrite Hrest; [|eauto].
  destruct Htrk as (Hf & _). unfold make_feature.
  destruct (list_first_nonempty _ Hf) as [n ->]. cbn [bind]. eauto.
Qed.

Lemma set_max_class_all (trk : option Track.t) (fs : list Feature.t) :
  match trk with
  | Some tr =>
      well_formed tr -> exists fs', map_result (set_max_class trk) fs = Ok fs'
  | None =>
      map_result (set_max_class trk) fs
      = match fs with [] => Ok [] | _ :: _ => Raise UnboundLocalError end
  end.
Proof.
  destruct trk as [tr|].
  - intros (_ & _ & Hc). induction fs as [|f fs [fs' IH]]; [simpl; eauto|].
    cbn [map_result]. unfold set_max_class at 1. unfold mode.
    destruct (Track.class tr) as [|c cs]; [congruence|]. cbn [bind].
    rewrite IH. cbn [bind]. eauto.
  - destruct fs; reflexivity.
Qed.

(** [track_iou] returns, unless it has a feature to label while the loop over
    the pool never ran: then it raises [UnboundLocalError]. *)
Theorem track_iou_returns_or_unbound (detections : list (Z * list Det.t)) :
  (exists r, track_iou detections = Ok r)
  \/ track_iou detections = Raise UnboundLocalError.
Proof.
  unfold Iou.track_iou.
  destruct (run_total detections initial_state initial_pool_inv)
    as (st & Hrun & Htr); [discriminate|].
  unfold Iou.run_frames. rewrite Hrun. cbn [bind].
  destruct (run_frames_pool_inv _ _ Hrun) as (Hwf & _).
  destruct (remaining_features_total _ Hwf) as [rest ->]. cbn [bind].
  pose proof (set_max_class_all (track st) (tracks_geojson st ++ rest)) as H.
  destruct (track st) as [tr|].
  - destruct (H (Htr tr eq_refl)) as [fs' ->]. cbn [bind]. left. eauto.
  - rewrite H. destruct (tracks_geojson st ++ rest); cbn [bind]; [left|right];
      eauto.
Qed.

(** ** The identifiers marked finished are those of the features added while
    the frames were processed; a track still active when the input ends is
    never among them. *)
Lemma run_finished_ids (l : list (Z * list Det.t)) :
  forall st st',
    pool_inv st ->
    vehIDs_finished st = map Feature.ID (tracks_geojson st) ->
    for_each frame_body st l = Ok st' ->
    vehIDs_finished st' = map Feature.ID (tracks_geojson st').
Proof.
  induction l as [|item l IH]; intros st st' Hinv Hfin Hrun.
  - injection Hrun as <-. exact Hfin.
  - simpl in Hrun. destruct (frame_body st item) as [st1|] eqn:E; [|discriminate].
    cbn [bind] in Hrun.
    destruct (frame_step_pool _ _ _ Hinv E)
      as (Hinv1 & _ & _ & nf & Hg & Hf & _).
    apply (IH st1 st' Hinv1); [|exact Hrun].
    rewrite Hf, Hg, Hfin, map_app. reflexivity.
Qed.

Theorem active_tracks_never_finished
  (detections : list (Z * list Det.t))
  (nd : list (Z * list (Z * Annotated.t))) (features : list Feature.t)
  (fin : list Z) (st : State) (t : Track.t) :
  track_iou detections = Ok (nd, features, fin) ->
  run_frames detections = Ok st ->
  In t (tracks_active st) ->
  ~ In (Track.vehID t) fin
  /\ forall frame_num o a,
       In (frame_num, o) nd -> In (Track.vehID t, a) o ->
       Annotated.finished a = false.
Proof.
  intros Hret Hrun Ht.
  destruct (track_iou_inv _ _ _ _ Hret) as (stf & rest & Hrun' & _ & _ & -> & ->).
  assert (stf = st) as -> by congruence.
  assert (Hfin : vehIDs_finished st = map Feature.ID (tracks_geojson st)).
  { apply (run_finished_ids detections initial_state st initial_pool_inv);
      [reflexivity|exact Hrun]. }
  destruct (run_frames_pool_inv _ _ Hrun) as (_ & _ & _ & Hfeat).
  assert (Hnot : ~ In (Track.vehID t) (vehIDs_finished st)).
  { rewrite Hfin. intros H. apply in_map_iff in H. destruct H as (f & Hid & Hf).
    destruct (Hfeat f Hf) as [_ Hn]. apply Hn. rewrite Hid. now apply in_map. }
  split; [exact Hnot|].
  intros frame_num o a Ho Ha. unfold annotate in Ho. apply in_map_iff in Ho.
  destruct Ho as ([fn0 o0] & Heq & _). injection Heq as <- <-.
  apply in_map_iff in Ha. destruct Ha as (e & Heq & _).
  destruct (set_finished_det (vehIDs_finished st) e) as (_ & _ & Hk & Hfl).
  rewrite Heq in Hk, Hfl. cbn [fst snd] in Hk, Hfl. rewrite Hfl, <- Hk.
  destruct (existsb (Z.eqb (Track.vehID t)) (vehIDs_finished st)) eqn:Ex;
    [|reflexivity].
  exfalso. apply Hnot. apply existsb_exists in Ex.
  destruct Ex as (i & Hi & Heqb). apply Z.eqb_eq in Heqb. now subst.
Qed.

End TrackerFacts.

Import IouSamples.

(** C4, the code at [one_car]: the track of the car is still active when the
    input ends and is emitted as a feature, yet [finished_track_ids] is empty
    and both of its detections carry [finished = False]. *)
Theorem end_of_input_track_not_marked_finished :
  track_iou_sample one_car
  = Ok ([(1, [(1, Annotated.mk car true false)]);
         (2, [(1, Annotated.mk car false false)])],
        [car_feature "car"],
        []).
Proof. vm_compute. reflexivity. Qed.

(** C2, the code at [car_and_truck]: the feature of track 1, whose class
    labels are car and car, gets the class of track 2, the track the loop
    variable was last bound to. *)
Theorem max_class_taken_from_last_loop_track :
  run_frames_sample car_and_truck
  = Ok (mkState [car_track; truck_track] [] 2 []
          [(1, [(1, (car, true)); (2, (truck, true))]);
           (2, [(1, (car, false)); (2, (truck, false))])]
          (Some truck_track))
  /\ Track.vehID car_track = 1
  /\ Track.class car_track = ["car"; "car"]%string
  /\ mode (Track.class car_track) = Ok "car"%string
  /\ track_iou_sample car_and_truck
     = Ok ([(1, [(1, Annotated.mk car true false);
                 (2, Annotated.mk truck true false)]);
            (2, [(1, Annotated.mk car false false);
                 (2, Annotated.mk truck false false)])],
           [car_feature "truck"; truck_feature "truck"],
           []).
Proof. repeat split; vm_compute; reflexivity. Qed.

(** With [t_min = 0] a single frame already yields a feature, and setting
    its class reads the loop variable before any loop bound it. *)
Lemma single_frame_unbound_track :
  track_iou iou (1 # 10) (1 # 2) (3 # 10) 0 1 [(1, [car])]
  = Raise UnboundLocalError.
Proof. vm_compute. reflexivity. Qed.

(** C3 as worded fails at [car_and_faint]: the detection below [sigma_l] is
    in the frame and not in its output. *)
Lemma faint_detection_not_in_output :
  exists nd features fin,
    track_iou_sample car_and_faint = Ok (nd, features, fin)
    /\ ~ carries_every_detection car_and_faint nd.
Proof.
  exists [(1, [(1, Annotated.mk car true false)])], [], [].
  split; [vm_compute; reflexivity|].
  intros H.
  destruct (H 1 [car; faint] faint) as (o & id & a & Hget & Hin & Hdet).
  - now left.
  - right. now left.
  - vm_compute in Hget. injection Hget as <-.
    destruct Hin as [Hin|[]]. injection Hin as <- <-. discriminate Hdet.
Qed.

Lemma output_carries_eligible_detections_witness :
  NoDup (map fst car_moves_truck_comes)
  /\ car_moves_truck_comes = [(1, [car; faint])] ++ (2, [car_moved; truck]) :: []
  /\ track_iou_sample car_moves_truck_comes = Ok car_moves_truck_comes_output
  /\ NoDup (eligible_detections (1 # 10) car_moves_truck_comes)
  /\ exists st st' o,
       run_frames_sample [(1, [car; faint])] = Ok st
       /\ Iou.frame_body Iou.iou (1 # 10) (1 # 2) (3 # 10) 1 1 st
                         (2, [car_moved; truck]) = Ok st'
       /\ dict_get Z.eqb 2 (fst (fst car_moves_truck_comes_output)) = Some o
       /\ Permutation
            (map (fun e => Annotated.det (snd e)) o)
            (filter (fun det => Qge_bool (Det.conf det) (1 # 10))
                    [car_moved; truck])
       /\ NoDup (map fst o)
       /\ (forall d, In d [car_moved; truck] ->
             (Det.conf d < 1 # 10)%Q ->
             ~ In d (map (fun e => Annotated.det (snd e)) o))
       /\ (NoDup (eligible_detections (1 # 10) car_moves_truck_comes) ->
           NoDup (map (fun e => Annotated.det (snd e)) o)
           /\ forall id a,
                In (id, a) o ->
                (Annotated.first a = false
                 /\ exists t t',
                      In t (tracks_active st)
                      /\ Track.vehID t = id
                      /\ In t' (tracks_active st')
                      /\ records 2 (Annotated.det a) t t')
                \/ (Annotated.first a = true
                    /\ vehID st < id
                    /\ ~ In id (ids (tracks_active st))
                    /\ exists t',
                         In t' (tracks_active st')
                         /\ starts 2 id (Annotated.det a) t')).
Proof.
  assert (Hkeys : NoDup (map fst car_moves_truck_comes)).
  { simpl. repeat constructor; simpl; intuition discriminate. }
  assert (Hdec : car_moves_truck_comes
                 = [(1, [car; faint])] ++ (2, [car_moved; truck]) :: [])
    by reflexivity.
  assert (Hret : track_iou_sample car_moves_truck_comes
                 = Ok car_moves_truck_comes_output)
    by (vm_compute; reflexivity).
  assert (Hdistinct : NoDup (eligible_detections (1 # 10) car_moves_truck_comes)).
  { vm_compute. repeat constructor; simpl; intuition discriminate. }
  split; [exact Hkeys|]. split; [exact Hdec|]. split; [exact Hret|].
  split; [exact Hdistinct|].
  exact (output_carries_eligible_detections iou (1 # 10) (1 # 2) (3 # 10) 1 1
           car_moves_truck_comes [(1, [car; faint])] [] 2 [car_moved; truck]
           _ _ _ Hkeys Hdec Hret).
Defined.

Lemma finalization_iff_thresholds_witness :
  track_iou_sample one_car
  = Ok ([(1, [(1, Annotated.mk car true false)]);
         (2, [(1, Annotated.mk car false false)])],
        [car_feature "car"], [])
  /\ forall st t,
       run_frames_sample one_car = Ok st ->
       In t (tracks_active st) ->
       ((exists f, In f [car_feature "car"]
                   /\ Feature.ID f = Track.vehID t)
        <-> qualifies (1 # 2) 1 t).
Proof.
  assert (Hret : track_iou_sample one_car
                 = Ok ([(1, [(1, Annotated.mk car true false)]);
                        (2, [(1, Annotated.mk car false false)])],
                       [car_feature "car"], []))
    by (vm_compute; reflexivity).
  split; [exact Hret|].
  exact (proj1 (proj2 (finalization_iff_thresholds
                         iou (1 # 10) (1 # 2) (3 # 10) 1 1
                         one_car _ _ _ Hret))).
Defined.

Lemma best_match_is_eligible_witness :
  car_and_faint_then_car = [(1, [car; faint])] ++ (2, [car]) :: []
  /\ run_frames_sample [(1, [car; faint])] = Ok after_car_and_faint
  /\ forall t, In t (tracks_active after_car_and_faint) ->
               Forall (fun c => (1 # 10 <= c)%Q) (Track.conf t).
Proof.
  assert (Hdec : car_and_faint_then_car
                 = [(1, [car; faint])] ++ (2, [car]) :: []) by reflexivity.
  assert (Hpre : run_frames_sample [(1, [car; faint])] = Ok after_car_and_faint)
    by (vm_compute; reflexivity).
  split; [exact Hdec|]. split; [exact Hpre|].
  exact (proj1 (proj2 (best_match_is_eligible iou (1 # 10) (1 # 2) (3 # 10) 1 1
                         car_and_faint_then_car [(1, [car; faint])] [] 2 [car]
                         after_car_and_faint Hdec Hpre))).
Defined.

Lemma miss_age_bounded_witness :
  0 <= 1
  /\ car_and_faint_then_car = [(1, [car; faint])] ++ [(2, [car])]
  /\ run_frames_sample [(1, [car; faint])] = Ok after_car_and_faint
  /\ forall t, In t (tracks_active after_car_and_faint) ->
               0 <= Track.age t <= 1.
Proof.
  assert (Hmax : 0 <= 1) by lia.
  assert (Hdec : car_and_faint_then_car
                 = [(1, [car; faint])] ++ [(2, [car])]) by reflexivity.
  assert (Hpre : run_frames_sample [(1, [car; faint])] = Ok after_car_and_faint)
    by (vm_compute; reflexivity).
  split; [exact Hmax|]. split; [exact Hdec|]. split; [exact Hpre|].
  exact (proj1 (miss_age_bounded iou (1 # 10) (1 # 2) (3 # 10) 1 1
                  car_and_faint_then_car [(1, [car; faint])] [(2, [car])]
                  after_car_and_faint Hmax Hdec Hpre)).
Defined.

End IouFacts.

(** * Further properties of track/preprocess.py *)

Section SortFacts.

Context {A : Type} (leb : A -> A -> bool).

Lemma insert_sorted_perm (x : A) (l : list A) :
  Permutation (insert_sorted leb x l) (x :: l).
Proof.
  induction l as [|y l IH]; simpl; [reflexivity|].
  destruct (leb x y); [reflexivity|].
  rewrite IH. apply perm_swap.
Qed.

Lemma sorted_by_perm (l : list A) : Permutation (sorted_by leb l) l.
Proof.
  induction l as [|x l IH]; simpl; [reflexivity|].
  rewrite insert_sorted_perm. now constructor.
Qed.

Lemma sorted_by_length (l : list A) :
  List.length (sorted_by leb l) = List.length l.
Proof. apply Permutation_length, sorted_by_perm. Qed.

Hypothesis leb_total : forall a b, leb a b = true \/ leb b a = true.
Hypothesis leb_trans :
  forall a b c, leb a b = true -> leb b c = true -> leb a c = true.

Lemma insert_sorted_sorted (x : A) (l : list A) :
  StronglySorted (fun a b => leb a b = true) l ->
  StronglySorted (fun a b => leb a b = true) (insert_sorted leb x l).
Proof.
  induction 1 as [|y l Hs IH Hy]; simpl.
  - constructor; constructor.
  - destruct (leb x y) eqn:E.
    + constructor; [constructor; assumption|].
      constructor; [exact E|].
      rewrite Forall_forall in *. intros z Hz. eauto.
    + constructor; [exact IH|].
      apply Forall_forall. intros z Hz.
      apply (Permutation_in _ (insert_sorted_perm x l)) in Hz.
      destruct Hz as [<-|Hz].
      * destruct (leb_total x y) as [H|H]; congruence.
      * rewrite Forall_forall in Hy. auto.
Qed.

Lemma sorted_by_sorted (l : list A) :
  StronglySorted (fun a b => leb a b = true) (sorted_by leb l).
Proof.
  induction l as [|x l IH]; simpl; [constructor|].
  now apply insert_sorted_sorted.
Qed.

(** The sort is stable: elements that compare equal keep their order. *)
Lemma sorted_by_stable (p : A -> bool) (l : list A) :
  (forall a b, p a = true -> p b = true -> leb a b = true) ->
  filter p (sorted_by leb l) = filter p l.
Proof.
  intros Hp.
  assert (Hins : forall x l0,
             filter p (insert_sorted leb x l0) = filter p (x :: l0)).
  { intros x l0. induction l0 as [|y l0 IH]; [reflexivity|].
    cbn [insert_sorted]. destruct (leb x y) eqn:E; [reflexivity|].
    cbn [filter] in *. rewrite IH.
    destruct (p x) eqn:Ex, (p y) eqn:Ey; try reflexivity.
    rewrite (Hp x y Ex Ey) in E. discriminate. }
  induction l as [|x l IH]; [reflexivity|].
  cbn [sorted_by fold_right]. fold (sorted_by leb l).
  rewrite Hins. cbn [filter]. now rewrite IH.
Qed.

End SortFacts.

Lemma map_result_length {A B : Type} (f : A -> result B) (l : list A)
  (l' : list B) :
  map_result f l = Ok l' -> List.length l' = List.length l.
Proof.
  intros H. apply map_result_ok in H.
  induction H; simpl; congruence.
Qed.

Lemma StronglySorted_first_last {A : Type} (R : A -> A -> Prop)
  (l : list A) (x a b : A) :
  (forall y, R y y) ->
  StronglySorted R l ->
  list_first l = Ok a -> list_last l = Ok b -> In x l ->
  R a x /\ R x b.
Proof.
  intros Hrefl Hs. revert a. induction Hs as [|y l Hs IH Hy]; intros a Ha Hb Hx;
    [discriminate|].
  injection Ha as <-. rewrite Forall_forall in Hy.
  destruct l as [|z l].
  - injection Hb as <-. destruct Hx as [<-|[]]. auto.
  - change (list_last (z :: l) = Ok b) in Hb.
    destruct Hx as [<-|Hx].
    + split; [apply Hrefl|]. apply Hy. now apply list_last_In.
    + split; [now apply Hy|]. apply (IH z eq_refl Hb Hx).
Qed.

Module ParsingFacts.
Import Preprocess PreprocessSamples ParsingSamples.

Lemma frame_key_leb_total (a b : Frame) :
  frame_key_leb a b = true \/ frame_key_leb b a = true.
Proof.
  unfold frame_key_leb.
  destruct (Z.ltb_spec (occurrence a) (occurrence b)),
           (Z.ltb_spec (occurrence b) (occurrence a)),
           (Z.eqb_spec (occurrence a) (occurrence b)),
           (Z.eqb_spec (occurrence b) (occurrence a)),
           (Z.leb_spec (frame a) (frame b)),
           (Z.leb_spec (frame b) (frame a)); simpl; auto; lia.
Qed.

Lemma frame_key_leb_iff (a b : Frame) :
  frame_key_leb a b = true <->
  occurrence a < occurrence b
  \/ (occurrence a = occurrence b /\ frame a <= frame b).
Proof.
  unfold frame_key_leb.
  rewrite orb_true_iff, andb_true_iff, Z.ltb_lt, Z.eqb_eq, Z.leb_le.
  reflexivity.
Qed.

Lemma frame_key_leb_trans (a b c : Frame) :
  frame_key_leb a b = true -> frame_key_leb b c = true ->
  frame_key_leb a c = true.
Proof. rewrite !frame_key_leb_iff. lia. Qed.

Section Parser.

Variable RawValue : Type.
Variable is_date_string : RawValue -> bool.
Variable parse_date_string_to_utc_datime : RawValue -> result datetime.
Variable parse_timestamp_string_to_utc_datetime : RawValue -> result datetime.
Variable float : RawValue -> result Q.
Variable int : RawValue -> result Z.
Variable parent : Path -> Path.

Local Abbreviation parse_frame :=
  (Preprocess.parse_frame RawValue is_date_string
     parse_date_string_to_utc_datime parse_timestamp_string_to_utc_datetime
     float int).
Local Abbreviation convert :=
  (FrameGroupParser_convert RawValue is_date_string
     parse_date_string_to_utc_datime parse_timestamp_string_to_utc_datetime
     float int parent).

(** X1: when [FrameGroupParser.convert] returns, the frames of the group are
    the parsed frames of the file, none lost or added, sorted by
    (occurrence, frame number); every frame belongs to the file and has the
    number [int(key) + frame_offset] of its entry; hence the start date of
    the group is the earliest and its end date the latest occurrence. *)
Theorem convert_sorts_frames
  (input_file_path : Path) (input : list (RawValue * RawFrame RawValue))
  (frame_offset : Z) (G : FrameGroup.t) :
  convert input_file_path input frame_offset = Ok G ->
  exists parsed,
    map_result (parse_frame input_file_path frame_offset) input = Ok parsed
    /\ Forall2 (fun entry f =>
                  exists k, int (fst entry) = Ok k
                            /\ frame f = k + frame_offset
                            /\ Preprocess.input_file_path f = input_file_path)
               input parsed
    /\ Permutation (FrameGroup.frames G) parsed
    /\ StronglySorted (fun a b => frame_key_leb a b = true)
                      (FrameGroup.frames G)
    /\ FrameGroup.order_key G = parent input_file_path
    /\ (forall f s e,
          In f (FrameGroup.frames G) ->
          FrameGroup.start_date G = Ok s ->
          FrameGroup.end_date G = Ok e ->
          s <= occurrence f <= e).
Proof.
  unfold FrameGroupParser_convert.
  destruct (map_result (parse_frame input_file_path frame_offset) input)
    as [parsed|] eqn:Ep; [|discriminate].
  cbn [bind]. intros [= <-]. exists parsed. cbn [FrameGroup.frames].
  assert (Hs : StronglySorted (fun a b => frame_key_leb a b = true)
                              (sorted_by frame_key_leb parsed))
    by (apply sorted_by_sorted;
        [apply frame_key_leb_total|apply frame_key_leb_trans]).
  split; [reflexivity|]. split; [|split; [|split; [|split]]].
  - apply map_result_ok in Ep. clear Hs.
    induction Ep as [|[key value] f input parsed Hf _ IH]; constructor; auto.
    unfold Preprocess.parse_frame in Hf.
    destruct (parse_datetime _ _ _ _ (raw_occurrence RawValue value));
      [|discriminate]. cbn [bind] in Hf.
    destruct (DetectionParser_convert _ _ _); [|discriminate]. cbn [bind] in Hf.
    destruct (int key) as [k|] eqn:Ek; [|discriminate]. cbn [bind] in Hf.
    injection Hf as <-. exists k. auto.
  - apply sorted_by_perm.
  - exact Hs.
  - reflexivity.
  - intros f s e Hin Hstart Hend.
    unfold FrameGroup.start_date, FrameGroup.end_date in Hstart, Hend.
    cbn [FrameGroup.frames] in Hstart, Hend.
    destruct (list_first (sorted_by frame_key_leb parsed)) as [a|] eqn:Ea;
      [|discriminate].
    destruct (list_last (sorted_by frame_key_leb parsed)) as [b|] eqn:Eb;
      [|discriminate].
    cbn [bind] in Hstart, Hend. injection Hstart as <-. injection Hend as <-.
    assert (Hrefl : forall y : Frame, frame_key_leb y y = true)
      by (intros y; apply frame_key_leb_iff; lia).
    destruct (StronglySorted_first_last
                (fun a b => frame_key_leb a b = true)
                (sorted_by frame_key_leb parsed) f a b Hrefl Hs Ea Eb Hin)
      as [H1 H2].
    apply frame_key_leb_iff in H1, H2. lia.
Qed.

End Parser.

Lemma convert_sorts_frames_witness :
  convert_sample "a/1.otdet"%string unordered_frames 0 = Ok ordered_group
  /\ StronglySorted (fun a b => frame_key_leb a b = true)
                    (FrameGroup.frames ordered_group).
Proof.
  assert (H : convert_sample "a/1.otdet"%string unordered_frames 0
              = Ok ordered_group) by (vm_compute; reflexivity).
  split; [exact H|].
  destruct (convert_sorts_frames Z no_date_string read_date read_date
              read_float read_int same_path "a/1.otdet"%string
              unordered_frames 0 ordered_group H)
    as (parsed & _ & _ & _ & Hsorted & _).
  exact Hsorted.
Defined.

End ParsingFacts.

Module GroupingFacts.
Import Preprocess PreprocessSamples GroupingSpec PreprocessFacts.

Lemma renumbered_app (n : Z) (l1 l2 : list Frame) :
  renumbered n (l1 ++ l2)
  = renumbered n l1 ++ renumbered (n + Z.of_nat (List.length l1)) l2.
Proof.
  unfold renumbered. revert n. induction l1 as [|f l1 IH]; intros n.
  - simpl. now rewrite Z.add_0_r.
  - cbn [app List.length Zrange combine map]. f_equal.
    rewrite (IH (n + 1)).
    replace (n + 1 + Z.of_nat (List.length l1))
      with (n + Z.of_nat (S (List.length l1))) by lia.
    reflexivity.
Qed.

Lemma renumbered_again (n m : Z) (l : list Frame) :
  renumbered n (renumbered m l) = renumbered n l.
Proof.
  unfold renumbered. rewrite length_map, length_combine, Zrange_length, Nat.min_id.
  generalize (n + 1) (m + 1). induction l as [|f l IH]; intros a b; [reflexivity|].
  cbn [List.length Zrange combine map fst snd]. f_equal. apply IH.
Qed.

Lemma renumbered_last (n : Z) (l : list Frame) (f : Frame) :
  list_last l = Ok f ->
  list_last (renumbered n l)
  = Ok (derive_frame_number f (n + Z.of_nat (List.length l))).
Proof.
  unfold renumbered. revert n. induction l as [|g l IH]; intros n; [discriminate|].
  destruct l as [|g' l].
  - intros [= <-]. simpl. reflexivity.
  - intros H. change (list_last (g' :: l) = Ok f) in H.
    specialize (IH (n + 1) H).
    cbn [List.length Zrange combine map] in IH |- *.
    match goal with
    | |- list_last (?a :: ?b :: ?c) = _ =>
        change (list_last (a :: b :: c)) with (list_last (b :: c))
    end.
    rewrite IH. do 2 f_equal. lia.
Qed.

Lemma list_last_app_nonempty {A : Type} (l1 l2 : list A) :
  l2 <> [] -> list_last (l1 ++ l2) = list_last l2.
Proof.
  intros H. induction l1 as [|x l1 IH]; [reflexivity|].
  cbn [app]. destruct (l1 ++ l2) eqn:E.
  - apply app_eq_nil in E. destruct E. contradiction.
  - exact IH.
Qed.

(** What [merge] computes, whichever group comes first. *)
Lemma merge_spec (A B G : FrameGroup.t) :
  FrameGroup.merge A B = Ok G ->
  exists a b first second lf,
    FrameGroup.start_date A = Ok a
    /\ FrameGroup.start_date B = Ok b
    /\ (first, second) = (if a <? b then (A, B) else (B, A))
    /\ list_last (FrameGroup.frames first) = Ok lf
    /\ G = FrameGroup.mk
             (FrameGroup.frames first
              ++ renumbered (frame lf) (FrameGroup.frames second))
             (FrameGroup.order_key A).
Proof.
  unfold FrameGroup.merge.
  destruct (FrameGroup.start_date A) as [a|] eqn:Ea; [|discriminate].
  destruct (FrameGroup.start_date B) as [b|] eqn:Eb; [|discriminate].
  cbn [bind]. unfold FrameGroup._merge.
  destruct (a <? b) eqn:E.
  - destruct (list_last (FrameGroup.frames A)) as [lf|] eqn:El; [|discriminate].
    cbn [bind]. intros [= <-]. exists a, b, A, B, lf. rewrite E, renumber_spec.
    auto.
  - destruct (list_last (FrameGroup.frames B)) as [lf|] eqn:El; [|discriminate].
    cbn [bind]. intros [= <-]. exists a, b, B, A, lf. rewrite E, renumber_spec.
    auto.
Qed.

Lemma start_date_nonempty (g : FrameGroup.t) (s : datetime) :
  FrameGroup.start_date g = Ok s -> FrameGroup.frames g <> [].
Proof.
  unfold FrameGroup.start_date. destruct (FrameGroup.frames g); [discriminate|].
  discriminate.
Qed.

Lemma end_date_nonempty (g : FrameGroup.t) (e : datetime) :
  FrameGroup.end_date g = Ok e -> FrameGroup.frames g <> [].
Proof.
  unfold FrameGroup.end_date. destruct (FrameGroup.frames g); [discriminate|].
  discriminate.
Qed.

Lemma nonempty_dates (g : FrameGroup.t) :
  FrameGroup.frames g <> [] ->
  exists s e, FrameGroup.start_date g = Ok s /\ FrameGroup.end_date g = Ok e.
Proof.
  intros H. unfold FrameGroup.start_date, FrameGroup.end_date.
  destruct (list_first_nonempty _ H) as [f ->].
  destruct (list_last_nonempty _ H) as [l ->]. simpl. eauto.
Qed.

Lemma merge_nonempty (A B : FrameGroup.t) :
  FrameGroup.frames A <> [] -> FrameGroup.frames B <> [] ->
  exists G,
    FrameGroup.merge A B = Ok G
    /\ FrameGroup.frames G <> []
    /\ Permutation (map payload (FrameGroup.frames G))
                   (map payload (FrameGroup.frames A)
                    ++ map payload (FrameGroup.frames B)).
Proof.
  intros HA HB.
  destruct (FrameGroup.frames A) as [|fa ra] eqn:EA; [congruence|].
  destruct (FrameGroup.frames B) as [|fb rb] eqn:EB; [congruence|].
  destruct (merge_ok A B fa fb ra rb EA EB) as (G & HG & _).
  exists G. split; [exact HG|].
  destruct (merge_spec _ _ _ HG)
    as (a & b & first & second & lf & _ & _ & Hfs & Hl & ->).
  cbn [FrameGroup.frames]. split.
  - intros H. apply app_eq_nil in H. destruct H as [H _].
    rewrite H in Hl. discriminate.
  - rewrite map_app, renumbered_payload, <- EA, <- EB.
    destruct (a <? b); injection Hfs as -> ->;
      [reflexivity|apply Permutation_app_comm].
Qed.

Lemma all_payloads_app (l1 l2 : list FrameGroup.t) :
  all_payloads (l1 ++ l2) = all_payloads l1 ++ all_payloads l2.
Proof. unfold all_payloads. now rewrite map_app, concat_app. Qed.

Lemma all_payloads_cons (g : FrameGroup.t) (l : list FrameGroup.t) :
  all_payloads (g :: l) = map payload (FrameGroup.frames g) ++ all_payloads l.
Proof. reflexivity. Qed.

Lemma merge_groups_loop_ok (time_without_frames : timedelta)
  (rest : list FrameGroup.t) :
  forall merged last,
    FrameGroup.frames last <> [] ->
    (forall g, In g rest -> FrameGroup.frames g <> []) ->
    (forall g, In g merged -> FrameGroup.frames g <> []) ->
    exists out,
      merge_groups_loop time_without_frames merged last rest = Ok out
      /\ out <> []
      /\ (forall g, In g out -> FrameGroup.frames g <> [])
      /\ Permutation (all_payloads out) (all_payloads (merged ++ last :: rest))
      /\ (List.length out <= List.length merged + 1 + List.length rest)%nat.
Proof.
  induction rest as [|cur rest IH]; intros merged last Hlast Hrest Hmerged.
  - exists (merged ++ [last]). split; [reflexivity|]. split.
    { intros H. apply app_eq_nil in H. destruct H. discriminate. }
    split.
    { intros g Hg. apply in_app_or in Hg. destruct Hg as [Hg|[<-|[]]]; auto. }
    split; [reflexivity|]. rewrite length_app. simpl. lia.
  - assert (Hcur : FrameGroup.frames cur <> []) by (apply Hrest; now left).
    destruct (nonempty_dates _ Hcur) as (s & _ & Hs & _).
    destruct (nonempty_dates _ Hlast) as (_ & e & _ & He).
    cbn [merge_groups_loop]. rewrite Hs, He. cbn [bind].
    destruct (s - e <=? time_without_frames).
    + destruct (merge_nonempty _ _ Hlast Hcur) as (g & Hg & Hgne & Hperm).
      rewrite Hg. cbn [bind].
      destruct (IH merged g Hgne) as (out & Hout & Hne & Hall & Hp & Hlen); auto.
      { intros g' Hg'. apply Hrest. now right. }
      exists out. split; [exact Hout|]. split; [exact Hne|].
      split; [exact Hall|]. split; [|simpl; lia].
      rewrite Hp, !all_payloads_app, !all_payloads_cons, Hperm, <- app_assoc.
      reflexivity.
    + destruct (IH (merged ++ [last]) cur Hcur)
        as (out & Hout & Hne & Hall & Hp & Hlen).
      { intros g' Hg'. apply Hrest. now right. }
      { intros g' Hg'. apply in_app_or in Hg'.
        destruct Hg' as [Hg'|[<-|[]]]; auto. }
      exists out. split; [exact Hout|]. split; [exact Hne|].
      split; [exact Hall|]. split.
      * rewrite Hp, <- app_assoc. reflexivity.
      * rewrite length_app in Hlen. simpl in *. lia.
Qed.

(** X2: when no group is empty, [Preprocess._merge_groups] returns at least
    one group and at most as many as it was given, none empty, and together
    they hold exactly the frames it was given (numbers apart): no frame is
    lost or duplicated. *)
Theorem merge_groups_keeps_every_frame
  (time_without_frames : timedelta) (all_groups : list FrameGroup.t) :
  all_groups <> [] ->
  (forall g, In g all_groups -> FrameGroup.frames g <> []) ->
  exists out,
    _merge_groups time_without_frames all_groups = Ok out
    /\ out <> []
    /\ (List.length out <= List.length all_groups)%nat
    /\ (forall g, In g out -> FrameGroup.frames g <> [])
    /\ Permutation (all_payloads out) (all_payloads all_groups).
Proof.
  intros Hne Hall. destruct all_groups as [|last rest]; [congruence|].
  destruct (merge_groups_loop_ok time_without_frames rest [] last)
    as (out & Hout & Hone & Hnonempty & Hperm & Hlen).
  - apply Hall. now left.
  - intros g Hg. apply Hall. now right.
  - intros g [].
  - exists out. split; [exact Hout|]. split; [exact Hone|].
    split; [simpl in *; lia|]. split; [exact Hnonempty|exact Hperm].
Qed.

Lemma merge_groups_keeps_every_frame_witness :
  exists out,
    _merge_groups (seconds 60) [group_a; group_b; group_c] = Ok out
    /\ out <> []
    /\ (List.length out <= 3)%nat
    /\ (forall g, In g out -> FrameGroup.frames g <> [])
    /\ Permutation (all_payloads out) (all_payloads [group_a; group_b; group_c]).
Proof.
  apply (merge_groups_keeps_every_frame (seconds 60)
           [group_a; group_b; group_c]).
  - discriminate.
  - intros g [<-|[<-|[<-|[]]]]; discriminate.
Defined.

Lemma merge_raises_only_IndexError (A B : FrameGroup.t) (e : exn) :
  FrameGroup.merge A B = Raise e -> e = IndexError.
Proof.
  unfold FrameGroup.merge, FrameGroup.start_date, FrameGroup._merge.
  destruct (FrameGroup.frames A) as [|fa ra] eqn:EA; [now intros [= <-]|].
  destruct (FrameGroup.frames B) as [|fb rb] eqn:EB; [now intros [= <-]|].
  cbn [list_first bind].
  destruct (occurrence fa <? occurrence fb).
  - destruct (list_last_cons fa ra) as [l ->]. discriminate.
  - destruct (list_last_cons fb rb) as [l ->]. discriminate.
Qed.

Lemma merge_groups_loop_raises (time_without_frames : timedelta)
  (rest : list FrameGroup.t) :
  forall merged last e,
    merge_groups_loop time_without_frames merged last rest = Raise e ->
    e = IndexError.
Proof.
  induction rest as [|cur rest IH]; intros merged last e; [discriminate|].
  cbn [merge_groups_loop]. unfold FrameGroup.start_date at 1.
  destruct (FrameGroup.frames cur) as [|fc rc]; [now intros [= <-]|].
  cbn [list_first bind]. unfold FrameGroup.end_date at 1.
  destruct (list_last (FrameGroup.frames last)) as [l|e0] eqn:El.
  2:{ cbn [bind]. intros [= <-].
      destruct (FrameGroup.frames last) as [|fl rl]; [now injection El|].
      destruct (list_last_cons fl rl) as [y Hy]. congruence. }
  cbn [bind]. destruct (occurrence fc - occurrence l <=? time_without_frames).
  - destruct (FrameGroup.merge last cur) as [g|e'] eqn:Em; cbn [bind].
    + apply IH.
    + intros [= <-]. now apply (merge_raises_only_IndexError last cur).
  - apply IH.
Qed.

Lemma merge_groups_loop_needs_frames (time_without_frames : timedelta)
  (rest : list FrameGroup.t) :
  forall merged last cur out,
    merge_groups_loop time_without_frames merged last (cur :: rest) = Ok out ->
    FrameGroup.frames last <> []
    /\ forall g, In g (cur :: rest) -> FrameGroup.frames g <> [].
Proof.
  induction rest as [|next rest IH]; intros merged last cur out Hout;
    cbn [merge_groups_loop] in Hout;
    destruct (FrameGroup.start_date cur) as [s|] eqn:Es; try discriminate;
    destruct (FrameGroup.end_date last) as [e|] eqn:Ee; try discriminate;
    cbn [bind] in Hout;
    pose proof (start_date_nonempty _ _ Es) as Hcur;
    pose proof (end_date_nonempty _ _ Ee) as Hlast.
  - split; [exact Hlast|]. intros g [<-|[]]. exact Hcur.
  - split; [exact Hlast|]. intros g [<-|Hg]; [exact Hcur|].
    destruct (s - e <=? time_without_frames).
    + destruct (FrameGroup.merge last cur) as [m|]; [|discriminate].
      cbn [bind] in Hout. apply (IH _ _ _ _ Hout). exact Hg.
    + apply (IH _ _ _ _ Hout). exact Hg.
Qed.

(** X3: given two groups or more of which one has no frame,
    [Preprocess._merge_groups] raises [IndexError]; a single group is
    returned as it is, with or without frames. *)
Theorem merge_groups_empty_group_raises
  (time_without_frames : timedelta) (all_groups : list FrameGroup.t) :
  (2 <= List.length all_groups)%nat ->
  (exists g, In g all_groups /\ FrameGroup.frames g = []) ->
  _merge_groups time_without_frames all_groups = Raise IndexError
  /\ forall g, _merge_groups time_without_frames [g] = Ok [g].
Proof.
  intros Hlen (g & Hg & Hempty). split; [|reflexivity].
  destruct all_groups as [|last [|cur rest]]; simpl in Hlen; try lia.
  cbn [_merge_groups].
  destruct (merge_groups_loop time_without_frames [] last (cur :: rest))
    as [out|e] eqn:E.
  - exfalso. destruct (merge_groups_loop_needs_frames _ _ _ _ _ _ E)
      as [Hlast Hrest].
    destruct Hg as [<-|Hg]; [contradiction|]. now apply (Hrest g Hg).
  - f_equal. now apply (merge_groups_loop_raises _ _ _ _ _ E).
Qed.

Lemma merge_groups_empty_group_raises_witness :
  (2 <= List.length [group_a; ParsingSamples.empty_group])%nat
  /\ _merge_groups (seconds 60) [group_a; ParsingSamples.empty_group]
     = Raise IndexError.
Proof.
  assert (Hlen : (2 <= List.length [group_a; ParsingSamples.empty_group])%nat)
    by (simpl; lia).
  split; [exact Hlen|].
  apply (merge_groups_empty_group_raises (seconds 60)
           [group_a; ParsingSamples.empty_group] Hlen).
  exists ParsingSamples.empty_group. split; [right; now left|reflexivity].
Defined.

Lemma merge_earlier (A B : FrameGroup.t) (a b : datetime) (lf : Frame) :
  FrameGroup.start_date A = Ok a ->
  FrameGroup.start_date B = Ok b ->
  a < b ->
  list_last (FrameGroup.frames A) = Ok lf ->
  FrameGroup.merge A B
  = Ok (FrameGroup.mk
          (FrameGroup.frames A ++ renumbered (frame lf) (FrameGroup.frames B))
          (FrameGroup.order_key A)).
Proof.
  intros Ha Hb Hlt Hl. unfold FrameGroup.merge. rewrite Ha, Hb. cbn [bind].
  apply Z.ltb_lt in Hlt. rewrite Hlt. unfold FrameGroup._merge.
  rewrite Hl. cbn [bind]. now rewrite renumber_spec.
Qed.

Lemma merge_later (A B : FrameGroup.t) (a b : datetime) (lf : Frame) :
  FrameGroup.start_date A = Ok a ->
  FrameGroup.start_date B = Ok b ->
  b <= a ->
  list_last (FrameGroup.frames B) = Ok lf ->
  FrameGroup.merge A B
  = Ok (FrameGroup.mk
          (FrameGroup.frames B ++ renumbered (frame lf) (FrameGroup.frames A))
          (FrameGroup.order_key A)).
Proof.
  intros Ha Hb Hle Hl. unfold FrameGroup.merge. rewrite Ha, Hb. cbn [bind].
  apply Z.ltb_ge in Hle. rewrite Hle. unfold FrameGroup._merge.
  rewrite Hl. cbn [bind]. now rewrite renumber_spec.
Qed.

Lemma start_date_last (g : FrameGroup.t) (s : datetime) :
  FrameGroup.start_date g = Ok s ->
  exists lf, list_last (FrameGroup.frames g) = Ok lf.
Proof.
  intros H. apply list_last_nonempty. exact (start_date_nonempty _ _ H).
Qed.

(** X4: the frames of a merge of two groups do not depend on which of the
    two is the receiver, as long as their start dates differ; the order key
    is always the receiver's. *)
Theorem FrameGroup_merge_commutes (A B : FrameGroup.t) (a b : datetime) :
  FrameGroup.start_date A = Ok a ->
  FrameGroup.start_date B = Ok b ->
  a <> b ->
  exists G G',
    FrameGroup.merge A B = Ok G
    /\ FrameGroup.merge B A = Ok G'
    /\ FrameGroup.frames G = FrameGroup.frames G'
    /\ FrameGroup.order_key G = FrameGroup.order_key A
    /\ FrameGroup.order_key G' = FrameGroup.order_key B.
Proof.
  intros Ha Hb Hab.
  destruct (start_date_last _ _ Ha) as [la Hla].
  destruct (start_date_last _ _ Hb) as [lb Hlb].
  destruct (Z.lt_ge_cases a b) as [Hlt|Hge].
  - rewrite (merge_earlier A B a b la), (merge_later B A b a la);
      auto; try lia.
    eexists. eexists. repeat split.
  - assert (b < a) by lia.
    rewrite (merge_later A B a b lb), (merge_earlier B A b a lb);
      auto; try lia.
    eexists. eexists. repeat split.
Qed.

Lemma FrameGroup_merge_commutes_witness :
  exists G G',
    FrameGroup.merge group_a group_b = Ok G
    /\ FrameGroup.merge group_b group_a = Ok G'
    /\ FrameGroup.frames G = FrameGroup.frames G'
    /\ FrameGroup.order_key G = FrameGroup.order_key group_a
    /\ FrameGroup.order_key G' = FrameGroup.order_key group_b.
Proof.
  refine (FrameGroup_merge_commutes group_a group_b
            (seconds 0) (seconds 31) _ _ _).
  - reflexivity.
  - reflexivity.
  - vm_compute. discriminate.
Defined.

(** X5: merging three groups that start one after the other gives the same
    group whether the first two or the last two are merged first: the frames
    of the first, then those of the second and of the third numbered on from
    the last number of the first. *)
Theorem FrameGroup_merge_associative_in_temporal_order
  (A B C : FrameGroup.t) (a b c : datetime) (lf : Frame) :
  FrameGroup.start_date A = Ok a ->
  FrameGroup.start_date B = Ok b ->
  FrameGroup.start_date C = Ok c ->
  a < b -> b < c ->
  list_last (FrameGroup.frames A) = Ok lf ->
  let G := FrameGroup.mk
             (FrameGroup.frames A
              ++ renumbered (frame lf)
                   (FrameGroup.frames B ++ FrameGroup.frames C))
             (FrameGroup.order_key A) in
  bind (FrameGroup.merge A B) (fun g => FrameGroup.merge g C) = Ok G
  /\ bind (FrameGroup.merge B C) (fun g => FrameGroup.merge A g) = Ok G.
Proof.
  intros Ha Hb Hc Hab Hbc Hla G. subst G.
  destruct (start_date_last _ _ Hb) as [lb Hlb].
  pose proof (start_date_nonempty _ _ Ha) as HneA.
  pose proof (start_date_nonempty _ _ Hb) as HneB.
  split.
  - rewrite (merge_earlier A B a b lf Ha Hb Hab Hla). cbn [bind].
    rewrite (merge_earlier _ C a c
               (derive_frame_number lb
                  (frame lf + Z.of_nat (List.length (FrameGroup.frames B)))));
      auto; try lia.
    + cbn [FrameGroup.frames FrameGroup.order_key derive_frame_number frame].
      rewrite renumbered_app, app_assoc. reflexivity.
    + unfold FrameGroup.start_date in *. cbn [FrameGroup.frames].
      destruct (FrameGroup.frames A); [discriminate|exact Ha].
    + cbn [FrameGroup.frames]. rewrite list_last_app_nonempty.
      * now apply renumbered_last.
      * intros H. apply (f_equal (@List.length Frame)) in H.
        rewrite renumbered_length in H.
        destruct (FrameGroup.frames B); [congruence|discriminate].
  - rewrite (merge_earlier B C b c lb Hb Hc Hbc Hlb). cbn [bind].
    rewrite (merge_earlier A _ a b lf); auto.
    + cbn [FrameGroup.frames]. rewrite !renumbered_app, renumbered_again.
      reflexivity.
    + unfold FrameGroup.start_date in *. cbn [FrameGroup.frames].
      destruct (FrameGroup.frames B); [discriminate|exact Hb].
Qed.

Lemma FrameGroup_merge_associative_in_temporal_order_witness :
  bind (FrameGroup.merge group_a group_b)
       (fun g => FrameGroup.merge g group_c)
  = bind (FrameGroup.merge group_b group_c)
         (fun g => FrameGroup.merge group_a g).
Proof.
  assert (Hab : seconds 0 < seconds 31) by (vm_compute; reflexivity).
  assert (Hbc : seconds 31 < seconds 62) by (vm_compute; reflexivity).
  destruct (FrameGroup_merge_associative_in_temporal_order
              group_a group_b group_c
              (seconds 0) (seconds 31) (seconds 62)
              (frame_at 2 (seconds 1) "a/1.otdet"%string)
              eq_refl eq_refl eq_refl Hab Hbc eq_refl)
    as (H1 & H2).
  rewrite H1, H2. reflexivity.
Defined.

(** X6: two ranges with different start dates merge to the same range
    whichever is the receiver, and three ranges that start one after the
    other merge to the same range however they are grouped: the files of the
    three in order, from the first start date to the third end date. *)
Theorem FrameRange_merge_commutes_and_associates (ra rb rc : FrameRange.t) :
  FrameRange.start_date ra < FrameRange.start_date rb ->
  FrameRange.start_date rb < FrameRange.start_date rc ->
  FrameRange.merge ra rb = FrameRange.merge rb ra
  /\ FrameRange.merge (FrameRange.merge ra rb) rc
     = FrameRange.merge ra (FrameRange.merge rb rc)
  /\ FrameRange.merge (FrameRange.merge ra rb) rc
     = FrameRange.mk
         (FrameRange.files ra ++ FrameRange.files rb ++ FrameRange.files rc)
         (FrameRange.start_date ra) (FrameRange.end_date rc).
Proof.
  intros Hab Hbc. unfold FrameRange.merge, FrameRange._merge.
  repeat split;
    repeat (match goal with
            | |- context [?x <? ?y] => destruct (Z.ltb_spec x y)
            end; cbn [FrameRange.start_date FrameRange.end_date
                      FrameRange.files] in *); try lia;
    now rewrite ?app_assoc.
Qed.

Lemma FrameRange_merge_commutes_and_associates_witness :
  FrameRange.merge (FrameRange.merge (FrameRange.mk ["a"%string] 0 10)
                                     (FrameRange.mk ["b"%string] 20 30))
                   (FrameRange.mk ["c"%string] 40 50)
  = FrameRange.mk ["a"%string; "b"%string; "c"%string] 0 50.
Proof.
  refine (proj2 (proj2 (FrameRange_merge_commutes_and_associates
                          (FrameRange.mk ["a"%string] 0 10)
                          (FrameRange.mk ["b"%string] 20 30)
                          (FrameRange.mk ["c"%string] 40 50) _ _)));
    simpl; lia.
Defined.

Lemma renumbered_occurrence_last (n : Z) (l : list Frame) (e : datetime) :
  bind (list_last l) (fun f => Ok (occurrence f)) = Ok e ->
  bind (list_last (renumbered n l)) (fun f => Ok (occurrence f)) = Ok e.
Proof.
  destruct (list_last l) as [f|] eqn:E; [|discriminate].
  rewrite (renumbered_last n l f E). exact (fun H => H).
Qed.

(** X7: a merge of two groups with frames starts at the earlier of the two
    start dates and ends at the end date of the group that starts later
    (of the receiver when both start together), whichever ends last: its
    dates are those [FrameRange.merge] gives for the dates of the two
    groups. *)
Theorem FrameGroup_merge_dates
  (A B : FrameGroup.t) (a ea b eb : datetime) :
  FrameGroup.start_date A = Ok a ->
  FrameGroup.end_date A = Ok ea ->
  FrameGroup.start_date B = Ok b ->
  FrameGroup.end_date B = Ok eb ->
  exists G,
    FrameGroup.merge A B = Ok G
    /\ FrameGroup.start_date G = Ok (Z.min a b)
    /\ FrameGroup.end_date G = Ok (if a <? b then eb else ea)
    /\ FrameGroup.start_date G
       = Ok (FrameRange.start_date
               (FrameRange.merge (dates_of a ea) (dates_of b eb)))
    /\ FrameGroup.end_date G
       = Ok (FrameRange.end_date
               (FrameRange.merge (dates_of a ea) (dates_of b eb))).
Proof.
  intros Ha Hea Hb Heb.
  destruct (start_date_last _ _ Ha) as [la Hla].
  destruct (start_date_last _ _ Hb) as [lb Hlb].
  pose proof (start_date_nonempty _ _ Ha) as HneA.
  pose proof (start_date_nonempty _ _ Hb) as HneB.
  assert (Hren : forall n (g : FrameGroup.t),
             FrameGroup.frames g <> [] ->
             renumbered n (FrameGroup.frames g) <> []).
  { intros n g Hg H. apply (f_equal (@List.length Frame)) in H.
    rewrite renumbered_length in H.
    destruct (FrameGroup.frames g); [congruence|discriminate]. }
  unfold FrameRange.merge, dates_of.
  cbn [FrameRange.start_date FrameRange._merge FrameRange.end_date].
  destruct (Z.ltb_spec a b) as [Hlt|Hge].
  - rewrite (merge_earlier A B a b la Ha Hb Hlt Hla). eexists.
    split; [reflexivity|].
    unfold FrameGroup.start_date, FrameGroup.end_date in *.
    cbn [FrameGroup.frames FrameRange.start_date FrameRange.end_date].
    rewrite list_last_app_nonempty by now apply Hren.
    rewrite (renumbered_occurrence_last _ _ _ Heb).
    destruct (FrameGroup.frames A); [congruence|].
    cbn [app list_first bind] in *. rewrite Z.min_l by lia.
    injection Ha as <-. auto.
  - rewrite (merge_later A B a b lb Ha Hb Hge Hlb). eexists.
    split; [reflexivity|].
    unfold FrameGroup.start_date, FrameGroup.end_date in *.
    cbn [FrameGroup.frames FrameRange.start_date FrameRange.end_date].
    rewrite list_last_app_nonempty by now apply Hren.
    rewrite (renumbered_occurrence_last _ _ _ Hea).
    destruct (FrameGroup.frames B); [congruence|].
    cbn [app list_first bind] in *. rewrite Z.min_r by lia.
    injection Hb as <-. auto.
Qed.

Lemma FrameGroup_merge_dates_witness :
  exists G,
    FrameGroup.merge group_b group_a = Ok G
    /\ FrameGroup.start_date G = Ok (Z.min (seconds 31) (seconds 0))
    /\ FrameGroup.end_date G
       = Ok (if seconds 31 <? seconds 0 then seconds 1 else seconds 33).
Proof.
  destruct (FrameGroup_merge_dates group_b group_a
              (seconds 31) (seconds 33) (seconds 0) (seconds 1)
              eq_refl eq_refl eq_refl eq_refl)
    as (G & H1 & H2 & H3 & _).
  exists G. auto.
Defined.

Lemma sorted_numbers_below_last (l : list Z) (m : Z) :
  StronglySorted Z.lt l -> list_last l = Ok m ->
  forall x, In x l -> x <= m.
Proof.
  induction 1 as [|y l Hs IH Hy]; [discriminate|].
  intros Hl x Hx. rewrite Forall_forall in Hy. destruct l as [|z l].
  - injection Hl as <-. destruct Hx as [<-|[]]. lia.
  - change (list_last (z :: l) = Ok m) in Hl. destruct Hx as [<-|Hx].
    + assert (y < m); [|lia]. apply Hy. now apply list_last_In.
    + now apply IH.
Qed.

Lemma StronglySorted_app_lt (l1 l2 : list Z) :
  StronglySorted Z.lt l1 -> StronglySorted Z.lt l2 ->
  (forall x y, In x l1 -> In y l2 -> x < y) ->
  StronglySorted Z.lt (l1 ++ l2).
Proof.
  induction 1 as [|x l1 Hs IH Hx]; intros H2 Hlt; [exact H2|].
  cbn [app]. constructor.
  - apply IH; [exact H2|]. intros a b Ha Hb. apply Hlt; [now right|exact Hb].
  - apply Forall_app. split; [exact Hx|].
    apply Forall_forall. intros y Hy. apply Hlt; [now left|exact Hy].
Qed.

(** Merging two groups whose frame numbers are strictly increasing gives a
    group whose frame numbers are strictly increasing, whichever comes
    first. *)
Lemma merge_numbers_increasing (X Y M : FrameGroup.t) :
  StronglySorted Z.lt (numbers X) ->
  StronglySorted Z.lt (numbers Y) ->
  FrameGroup.merge X Y = Ok M ->
  StronglySorted Z.lt (numbers M).
Proof.
  intros HX HY HM.
  destruct (merge_spec _ _ _ HM)
    as (x & y & first & second & lf & _ & _ & Hfs & Hl & ->).
  unfold numbers in *. cbn [FrameGroup.frames].
  rewrite map_app, renumbered_numbers.
  assert (Hfirst : StronglySorted Z.lt (map frame (FrameGroup.frames first)))
    by (destruct (x <? y); injection Hfs as -> ->; assumption).
  apply StronglySorted_app_lt; [exact Hfirst|apply Zrange_increasing|].
  intros p q Hp Hq. apply Zrange_bounds in Hq.
  assert (p <= frame lf); [|lia].
  apply (sorted_numbers_below_last _ _ Hfirst); [|exact Hp].
  now apply list_last_map.
Qed.

Lemma increasing_NoDup (l : list Z) : StronglySorted Z.lt l -> NoDup l.
Proof.
  induction 1 as [|x l Hs IH Hx]; constructor; [|exact IH].
  intros Hin. rewrite Forall_forall in Hx. specialize (Hx x Hin). lia.
Qed.

(** X8: when the frame numbers of every given group are strictly increasing,
    so are those of every group [Preprocess._merge_groups] returns, in
    whatever order the groups were merged: no two frames of a returned group
    share a number. *)
Theorem merge_groups_numbers_increasing
  (time_without_frames : timedelta) (all_groups out : list FrameGroup.t) :
  (forall g, In g all_groups -> StronglySorted Z.lt (numbers g)) ->
  _merge_groups time_without_frames all_groups = Ok out ->
  forall g, In g out -> StronglySorted Z.lt (numbers g) /\ NoDup (numbers g).
Proof.
  intros Hall Hout.
  assert (Hloop : forall rest merged last res,
             StronglySorted Z.lt (numbers last) ->
             (forall g, In g rest -> StronglySorted Z.lt (numbers g)) ->
             (forall g, In g merged -> StronglySorted Z.lt (numbers g)) ->
             merge_groups_loop time_without_frames merged last rest = Ok res ->
             forall g, In g res -> StronglySorted Z.lt (numbers g)).
  { induction rest as [|cur rest IH]; intros merged last res Hl Hr Hm Hres.
    - injection Hres as <-. intros g Hg. apply in_app_or in Hg.
      destruct Hg as [Hg|[<-|[]]]; auto.
    - cbn [merge_groups_loop] in Hres.
      destruct (FrameGroup.start_date cur) as [s|]; [|discriminate].
      destruct (FrameGroup.end_date last) as [e|]; [|discriminate].
      cbn [bind] in Hres. destruct (s - e <=? time_without_frames).
      + destruct (FrameGroup.merge last cur) as [m|] eqn:Em; [|discriminate].
        cbn [bind] in Hres. apply (IH merged m res); auto.
        * apply (merge_numbers_increasing last cur m); auto. apply Hr. now left.
        * intros g Hg. apply Hr. now right.
      + apply (IH (merged ++ [last]) cur res); auto.
        * apply Hr. now left.
        * intros g Hg. apply Hr. now right.
        * intros g Hg. apply in_app_or in Hg.
          destruct Hg as [Hg|[<-|[]]]; auto. }
  intros g Hg.
  assert (Hs : StronglySorted Z.lt (numbers g)).
  { destruct all_groups as [|last rest]; [discriminate|].
    apply (Hloop rest [] last out); auto.
    - apply Hall. now left.
    - intros g' Hg'. apply Hall. now right.
    - intros g' []. }
  split; [exact Hs|now apply increasing_NoDup].
Qed.

Lemma merge_groups_numbers_increasing_witness :
  exists out,
    _merge_groups (seconds 60) [group_b; group_a; group_c] = Ok out
    /\ forall g, In g out ->
                 StronglySorted Z.lt (numbers g) /\ NoDup (numbers g).
Proof.
  assert (Hs : forall g, In g [group_b; group_a; group_c] ->
                         StronglySorted Z.lt (numbers g)).
  { intros g [<-|[<-|[<-|[]]]]; unfold numbers; simpl;
      repeat (constructor; try lia). }
  eexists. split; [vm_compute; reflexivity|].
  apply (merge_groups_numbers_increasing (seconds 60)
           [group_b; group_a; group_c] _ Hs).
  vm_compute. reflexivity.
Defined.

Section SortedSnoc.

Context {A : Type} (R : A -> A -> Prop).

Lemma Sorted_snoc (l : list A) (y : A) :
  Sorted R l -> (forall x, list_last l = Ok x -> R x y) -> Sorted R (l ++ [y]).
Proof.
  induction 1 as [|x l Hs IH Hd]; intros Hy.
  - constructor; constructor.
  - cbn [app]. constructor.
    + apply IH. intros z Hz. apply Hy. destruct l; [discriminate|exact Hz].
    + destruct l as [|z l]; cbn [app].
      * constructor. now apply Hy.
      * constructor. now inversion Hd.
Qed.

Lemma Sorted_snoc_replace (l : list A) (x x' : A) :
  Sorted R (l ++ [x]) -> (forall z, R z x -> R z x') -> Sorted R (l ++ [x']).
Proof.
  intros Hs Hx. induction l as [|y l IH].
  - constructor; constructor.
  - cbn [app] in *. apply Sorted_inv in Hs. destruct Hs as [Hs Hd].
    constructor; [now apply IH|].
    destruct l as [|z l]; cbn [app] in *.
    + constructor. apply Hx. now inversion Hd.
    + constructor. now inversion Hd.
Qed.

Lemma Sorted_weaken (R' : A -> A -> Prop) (l : list A) :
  (forall a b, R a b -> R' a b) -> Sorted R l -> Sorted R' l.
Proof.
  intros Himp. induction 1 as [|x l Hs IH Hd]; constructor; [exact IH|].
  destruct Hd; constructor. now apply Himp.
Qed.

End SortedSnoc.

Lemma all_files_app (l1 l2 : list FrameRange.t) :
  all_files (l1 ++ l2) = all_files l1 ++ all_files l2.
Proof. unfold all_files. now rewrite map_app, concat_app. Qed.

Lemma FrameRange_merge_sorted (last cur : FrameRange.t) :
  FrameRange.start_date last <= FrameRange.start_date cur ->
  FrameRange.start_date (FrameRange.merge last cur) = FrameRange.start_date last
  /\ Permutation (FrameRange.files (FrameRange.merge last cur))
                 (FrameRange.files last ++ FrameRange.files cur).
Proof.
  intros Hle. unfold FrameRange.merge.
  destruct (Z.ltb_spec (FrameRange.start_date last) (FrameRange.start_date cur));
    cbn [FrameRange._merge FrameRange.start_date FrameRange.files].
  - split; reflexivity.
  - split; [lia|apply Permutation_app_comm].
Qed.

Lemma merge_ranges_loop_spec (time_without_frames : timedelta)
  (rest : list FrameRange.t) :
  forall merged last,
    let R := fun r1 r2 =>
               apart time_without_frames r1 r2
               /\ FrameRange.start_date r1 <= FrameRange.start_date r2 in
    StronglySorted (fun a b => range_start_leb a b = true) (last :: rest) ->
    Sorted R (merged ++ [last]) ->
    let out := merge_ranges_loop time_without_frames merged last rest in
    Sorted R out
    /\ out <> []
    /\ Permutation (all_files out) (all_files (merged ++ last :: rest)).
Proof.
  induction rest as [|cur rest IH]; intros merged last R Hsorted Hm out.
  - subst out. cbn [merge_ranges_loop]. split; [exact Hm|]. split; [|reflexivity].
    intros H. apply app_eq_nil in H. destruct H. discriminate.
  - subst out. cbn [merge_ranges_loop].
    inversion Hsorted as [|? ? Hrest Hlast]; subst.
    inversion Hrest as [|? ? Hrest' Hcur]; subst.
    assert (Hle : FrameRange.start_date last <= FrameRange.start_date cur).
    { inversion Hlast as [|? ? H _]; subst. now apply Z.leb_le. }
    destruct (Z.leb_spec (FrameRange.start_date cur - FrameRange.end_date last)
                         time_without_frames) as [Hgap|Hgap].
    + destruct (FrameRange_merge_sorted last cur Hle) as [Hstart Hfiles].
      destruct (IH merged (FrameRange.merge last cur)) as (H1 & H2 & H3).
      * constructor; [exact Hrest'|].
        apply Forall_forall. intros r Hr. unfold range_start_leb.
        rewrite Hstart. inversion Hlast as [|? ? _ Hall]; subst.
        rewrite Forall_forall in Hall. now apply Hall.
      * apply (Sorted_snoc_replace R merged last); [exact Hm|].
        intros z [Hz1 Hz2].
        split; [unfold apart in *|]; rewrite Hstart; assumption.
      * split; [exact H1|]. split; [exact H2|].
        rewrite H3, !all_files_app. apply Permutation_app_head.
        unfold all_files. cbn [map List.concat]. rewrite Hfiles.
        now rewrite <- app_assoc.
    + destruct (IH (merged ++ [last]) cur) as (H1 & H2 & H3).
      * exact Hrest.
      * apply Sorted_snoc; [exact Hm|].
        intros x Hx. rewrite list_last_app in Hx. injection Hx as <-.
        split; [exact Hgap|exact Hle].
      * split; [exact H1|]. split; [exact H2|].
        rewrite H3, <- app_assoc. reflexivity.
Qed.

(** On dates of one kind: given at least one range,
    [GroupFrameRanges._merge_groups] returns at least one range, every given
    file is in one returned range, and the returned ranges are in the order
    of their start dates and more than [time_without_frames] apart. *)
Lemma merge_ranges_partition
  (time_without_frames : timedelta) (all_ranges : list FrameRange.t) :
  all_ranges <> [] ->
  exists out,
    GroupFrameRanges_merge_groups time_without_frames all_ranges = Ok out
    /\ out <> []
    /\ Permutation (all_files out) (all_files all_ranges)
    /\ Sorted (apart time_without_frames) out
    /\ Sorted (fun r1 r2 =>
                 FrameRange.start_date r1 <= FrameRange.start_date r2) out.
Proof.
  intros Hne. unfold GroupFrameRanges_merge_groups.
  destruct all_ranges as [|r0 rs] eqn:Eall; [congruence|].
  rewrite <- Eall. cbn [List.length].
  replace (1 <=? List.length all_ranges)%nat with true
    by (rewrite Eall; reflexivity).
  pose proof (sorted_by_perm range_start_leb all_ranges) as Hperm.
  assert (Hs : StronglySorted (fun a b => range_start_leb a b = true)
                              (sorted_by range_start_leb all_ranges)).
  { apply sorted_by_sorted; unfold range_start_leb.
    - intros a b. rewrite !Z.leb_le. lia.
    - intros a b c. rewrite !Z.leb_le. lia. }
  destruct (sorted_by range_start_leb all_ranges) as [|last rest] eqn:Es.
  - apply Permutation_length in Hperm. rewrite Eall in Hperm. discriminate.
  - destruct (merge_ranges_loop_spec time_without_frames rest [] last Hs)
      as (H1 & H2 & H3).
    { constructor; constructor. }
    eexists. split; [reflexivity|]. split; [exact H2|]. split; [|split].
    + rewrite H3. cbn [app]. unfold all_files.
      rewrite <- !flat_map_concat_map.
      apply (Permutation_flat_map FrameRange.files Hperm).
    + apply (Sorted_weaken _ _ _ (fun a b H => proj1 H) H1).
    + apply (Sorted_weaken _ _ _ (fun a b H => proj2 H) H1).
Qed.

(** ** Dates with and without a time zone *)

Lemma zoned_lt (kind : bool) (a b : Z) :
  Zoned.lt (Zoned.mkZoned kind a) (Zoned.mkZoned kind b) = Ok (a <? b).
Proof. unfold Zoned.lt. cbn. now rewrite Bool.eqb_reflx. Qed.

Lemma zoned_sub (kind : bool) (a b : Z) :
  Zoned.sub (Zoned.mkZoned kind a) (Zoned.mkZoned kind b) = Ok (a - b).
Proof. unfold Zoned.sub. cbn. now rewrite Bool.eqb_reflx. Qed.

Lemma zoned_insert (kind : bool) (x : FrameRange.t) (l : list FrameRange.t) :
  Zoned.insert_sorted (Zoned.zoned kind x) (map (Zoned.zoned kind) l)
  = Ok (map (Zoned.zoned kind) (insert_sorted range_start_leb x l)).
Proof.
  induction l as [|y l IH]; [reflexivity|].
  cbn [map Zoned.insert_sorted insert_sorted Zoned.zoned
       Zoned.FrameRange.start_date].
  rewrite zoned_lt. cbn [bind]. unfold range_start_leb.
  rewrite Z.ltb_antisym.
  destruct (FrameRange.start_date x <=? FrameRange.start_date y);
    cbn [negb]; [reflexivity|].
  fold (Zoned.zoned kind x). rewrite IH. reflexivity.
Qed.

Lemma zoned_sorted (kind : bool) (l : list FrameRange.t) :
  Zoned.sorted_by_start (map (Zoned.zoned kind) l)
  = Ok (map (Zoned.zoned kind) (sorted_by range_start_leb l)).
Proof.
  induction l as [|x l IH]; [reflexivity|].
  unfold Zoned.sorted_by_start, sorted_by in *. cbn [map fold_right].
  rewrite IH. cbn [bind]. apply zoned_insert.
Qed.

Lemma zoned_merge (kind : bool) (a b : FrameRange.t) :
  Zoned.FrameRange.merge (Zoned.zoned kind a) (Zoned.zoned kind b)
  = Ok (Zoned.zoned kind (FrameRange.merge a b)).
Proof.
  unfold Zoned.FrameRange.merge, FrameRange.merge.
  cbn [Zoned.zoned Zoned.FrameRange.start_date]. rewrite zoned_lt.
  cbn [bind]. destruct (FrameRange.start_date a <? FrameRange.start_date b);
    reflexivity.
Qed.

Lemma zoned_loop (kind : bool) (time_without_frames : timedelta)
  (rest : list FrameRange.t) :
  forall merged last,
    Zoned.merge_ranges_loop time_without_frames (map (Zoned.zoned kind) merged)
                            (Zoned.zoned kind last)
                            (map (Zoned.zoned kind) rest)
    = Ok (map (Zoned.zoned kind)
              (merge_ranges_loop time_without_frames merged last rest)).
Proof.
  induction rest as [|cur rest IH]; intros merged last.
  - cbn [map Zoned.merge_ranges_loop merge_ranges_loop].
    now rewrite map_app.
  - cbn [map Zoned.merge_ranges_loop merge_ranges_loop].
    cbn [Zoned.zoned Zoned.FrameRange.start_date Zoned.FrameRange.end_date].
    rewrite zoned_sub. cbn [bind].
    fold (Zoned.zoned kind last). fold (Zoned.zoned kind cur).
    destruct (FrameRange.start_date cur - FrameRange.end_date last
              <=? time_without_frames).
    + rewrite zoned_merge. cbn [bind]. apply IH.
    + replace (map (Zoned.zoned kind) merged ++ [Zoned.zoned kind last])
        with (map (Zoned.zoned kind) (merged ++ [last]))
        by now rewrite map_app.
      apply IH.
Qed.

Lemma zoned_merge_groups (kind : bool) (time_without_frames : timedelta)
  (l out : list FrameRange.t) :
  GroupFrameRanges_merge_groups time_without_frames l = Ok out ->
  Zoned._merge_groups time_without_frames (map (Zoned.zoned kind) l)
  = Ok (map (Zoned.zoned kind) out).
Proof.
  unfold GroupFrameRanges_merge_groups, Zoned._merge_groups.
  rewrite length_map. destruct (1 <=? List.length l)%nat; [|discriminate].
  rewrite zoned_sorted. cbn [bind].
  destruct (sorted_by range_start_leb l) as [|last rest]; [discriminate|].
  intros H. injection H as <-. cbn [map].
  apply (zoned_loop kind time_without_frames rest [] last).
Qed.

Lemma zoned_erase (kind : bool) (r : Zoned.FrameRange.t) :
  Zoned.aware (Zoned.FrameRange.start_date r) = kind ->
  Zoned.aware (Zoned.FrameRange.end_date r) = kind ->
  Zoned.zoned kind (Zoned.erase r) = r.
Proof.
  destruct r as [fs [ks s] [ke e]]. cbn. intros -> ->. reflexivity.
Qed.

Lemma one_kind_zoned (l : list Zoned.FrameRange.t) :
  Zoned.well_formed l -> Zoned.one_kind l ->
  exists kind, l = map (Zoned.zoned kind) (map Zoned.erase l).
Proof.
  intros Hwf Hone. destruct l as [|r0 l]; [now exists true|].
  exists (Zoned.aware (Zoned.FrameRange.start_date r0)).
  rewrite map_map. symmetry. rewrite <- (map_id (r0 :: l)) at 2.
  apply map_ext_in. intros r Hr. apply zoned_erase.
  - apply Hone; [exact Hr|now left].
  - rewrite (Hwf r Hr). apply Hone; [exact Hr|now left].
Qed.

Lemma Sorted_map {A B : Type} (R : A -> A -> Prop) (R' : B -> B -> Prop)
  (f : A -> B) (l : list A) :
  (forall a b, R a b -> R' (f a) (f b)) ->
  Sorted R l -> Sorted R' (map f l).
Proof.
  intros Himp H. induction H as [|a l Hs IH Hd]; [constructor|].
  cbn [map]. constructor; [exact IH|].
  destruct Hd; constructor. now apply Himp.
Qed.

Lemma zoned_insert_perm (x : Zoned.FrameRange.t) (l s : list Zoned.FrameRange.t) :
  Zoned.insert_sorted x l = Ok s -> Permutation s (x :: l).
Proof.
  revert s. induction l as [|y l IH]; intros s.
  - cbn. intros H. injection H as <-. reflexivity.
  - cbn [Zoned.insert_sorted].
    destruct (Zoned.lt _ _) as [[|]|]; cbn [bind]; [| |discriminate].
    + destruct (Zoned.insert_sorted x l) as [s'|]; [|discriminate].
      cbn [bind]. intros H. injection H as <-.
      rewrite (IH s' eq_refl). apply perm_swap.
    + intros H. injection H as <-. reflexivity.
Qed.

Lemma zoned_sorted_perm (l s : list Zoned.FrameRange.t) :
  Zoned.sorted_by_start l = Ok s -> Permutation s l.
Proof.
  revert s. induction l as [|x l IH]; intros s.
  - cbn. intros H. injection H as <-. reflexivity.
  - unfold Zoned.sorted_by_start in *. cbn [fold_right].
    destruct (fold_right _ _ l) as [s'|]; [|discriminate].
    cbn [bind]. intros H. apply zoned_insert_perm in H.
    rewrite H. constructor. now apply IH.
Qed.

Lemma zoned_insert_raises (x : Zoned.FrameRange.t) (l : list Zoned.FrameRange.t)
  (e : exn) :
  Zoned.insert_sorted x l = Raise e -> e = TypeError.
Proof.
  induction l as [|y l IH]; [discriminate|].
  cbn [Zoned.insert_sorted]. unfold Zoned.lt at 1.
  destruct (Bool.eqb _ _); cbn [bind].
  - destruct (_ <? _); [|discriminate].
    destruct (Zoned.insert_sorted x l) as [s'|e']; [discriminate|].
    cbn [bind]. intros H. injection H as <-. now apply IH.
  - intros H. now injection H as <-.
Qed.

Lemma zoned_sorted_raises (l : list Zoned.FrameRange.t) (e : exn) :
  Zoned.sorted_by_start l = Raise e -> e = TypeError.
Proof.
  induction l as [|x l IH]; [discriminate|].
  unfold Zoned.sorted_by_start in *. cbn [fold_right].
  destruct (fold_right _ _ l) as [s'|e']; cbn [bind].
  - apply zoned_insert_raises.
  - intros H. injection H as <-. now apply IH.
Qed.

(** The sort returns only when the start dates are of one kind. *)
Lemma zoned_sorted_one_kind (l s : list Zoned.FrameRange.t) :
  Zoned.sorted_by_start l = Ok s -> Zoned.one_kind l.
Proof.
  revert s. induction l as [|x l IH]; intros s; [intros _ r r' []|].
  unfold Zoned.sorted_by_start in *. cbn [fold_right].
  destruct (fold_right _ _ l) as [s'|] eqn:Es; [|discriminate].
  cbn [bind]. intros Hins.
  specialize (IH s' eq_refl).
  pose proof (zoned_sorted_perm l s' Es) as Hperm.
  assert (Hx : forall r, In r l ->
                 Zoned.aware (Zoned.FrameRange.start_date r)
                 = Zoned.aware (Zoned.FrameRange.start_date x)).
  { destruct s' as [|y s''].
    - apply Permutation_nil in Hperm. subst l. intros r [].
    - cbn [Zoned.insert_sorted] in Hins. unfold Zoned.lt at 1 in Hins.
      destruct (Bool.eqb (Zoned.aware (Zoned.FrameRange.start_date y))
                         (Zoned.aware (Zoned.FrameRange.start_date x)))
        eqn:Ek; [|discriminate].
      apply Bool.eqb_prop in Ek. intros r Hr. rewrite <- Ek.
      apply IH; [exact Hr|]. apply (Permutation_in _ Hperm). now left. }
  intros r r' [<-|Hr] [<-|Hr'].
  - reflexivity.
  - symmetry. now apply Hx.
  - now apply Hx.
  - now apply IH.
Qed.

(** X9: [GroupFrameRanges._merge_groups] on at least one range, each with an
    end date of the kind of its start date.  When the start dates are all
    with a time zone or all without, it returns at least one range; every
    given file is in exactly one returned range; the returned ranges are in
    the order of their start dates, and each starts more than
    [time_without_frames] after the end date of the one before.  When some
    start date has a time zone and another has none, as for a file without
    a recorded start date beside one with a parsed start date, it raises
    [TypeError]. *)
Theorem group_ranges_partition_files
  (time_without_frames : timedelta) (all_ranges : list Zoned.FrameRange.t) :
  all_ranges <> [] ->
  Zoned.well_formed all_ranges ->
  (Zoned.one_kind all_ranges ->
   exists out,
     Zoned._merge_groups time_without_frames all_ranges = Ok out
     /\ out <> []
     /\ Permutation (Zoned.all_files out) (Zoned.all_files all_ranges)
     /\ Sorted (Zoned.apart time_without_frames) out
     /\ Sorted Zoned.starts_before out)
  /\ (~ Zoned.one_kind all_ranges ->
      Zoned._merge_groups time_without_frames all_ranges = Raise TypeError).
Proof.
  intros Hne Hwf. split.
  - intros Hone. destruct (one_kind_zoned all_ranges Hwf Hone) as (kind & Heq).
    set (zs := map Zoned.erase all_ranges) in *.
    assert (Hzs : zs <> []).
    { intros H. rewrite H in Heq. now apply Hne. }
    destruct (merge_ranges_partition time_without_frames zs Hzs)
      as (out & Hret & Hout & Hperm & Hapart & Hstart).
    exists (map (Zoned.zoned kind) out).
    assert (Hfiles : forall l,
               Zoned.all_files (map (Zoned.zoned kind) l) = all_files l).
    { intros l. unfold Zoned.all_files, all_files. now rewrite map_map. }
    split; [|split; [|split; [|split]]].
    + rewrite Heq. now apply zoned_merge_groups.
    + intros H. apply Hout. now apply map_eq_nil in H.
    + rewrite Heq, !Hfiles. exact Hperm.
    + apply (Sorted_map (apart time_without_frames)); [|exact Hapart].
      intros a b H. exact H.
    + apply (Sorted_map (fun r1 r2 =>
                           FrameRange.start_date r1 <= FrameRange.start_date r2));
        [|exact Hstart].
      intros a b H. exact H.
  - intros Hmixed. unfold Zoned._merge_groups.
    destruct all_ranges as [|r0 rs] eqn:Eall; [congruence|].
    rewrite <- Eall in *. 
    replace (1 <=? List.length all_ranges)%nat with true
      by (rewrite Eall; reflexivity).
    destruct (Zoned.sorted_by_start all_ranges) as [s|e] eqn:Es.
    + exfalso. apply Hmixed. now apply (zoned_sorted_one_kind _ s).
    + cbn [bind]. now rewrite (zoned_sorted_raises _ _ Es).
Qed.

Lemma group_ranges_partition_files_witness :
  Zoned.three_ranges <> []
  /\ Zoned.well_formed Zoned.three_ranges
  /\ Zoned.one_kind Zoned.three_ranges
  /\ (exists out,
        Zoned._merge_groups (seconds 60) Zoned.three_ranges = Ok out
        /\ out <> []
        /\ Permutation (Zoned.all_files out)
                       (Zoned.all_files Zoned.three_ranges)
        /\ Sorted (Zoned.apart (seconds 60)) out
        /\ Sorted Zoned.starts_before out)
  /\ Zoned.naive_and_aware <> []
  /\ Zoned.well_formed Zoned.naive_and_aware
  /\ ~ Zoned.one_kind Zoned.naive_and_aware
  /\ Zoned._merge_groups (seconds 60) Zoned.naive_and_aware = Raise TypeError.
Proof.
  assert (Hne : Zoned.three_ranges <> []) by discriminate.
  assert (Hwf : Zoned.well_formed Zoned.three_ranges).
  { intros r [<-|[<-|[<-|[]]]]; reflexivity. }
  assert (Hone : Zoned.one_kind Zoned.three_ranges).
  { intros r r' [<-|[<-|[<-|[]]]] [<-|[<-|[<-|[]]]]; reflexivity. }
  assert (Hne' : Zoned.naive_and_aware <> []) by discriminate.
  assert (Hwf' : Zoned.well_formed Zoned.naive_and_aware).
  { intros r [<-|[<-|[]]]; reflexivity. }
  assert (Hmixed : ~ Zoned.one_kind Zoned.naive_and_aware).
  { intros H. specialize (H _ _ (or_introl eq_refl) (or_intror (or_introl eq_refl))).
    discriminate H. }
  split; [exact Hne|]. split; [exact Hwf|]. split; [exact Hone|].
  split; [exact (proj1 (group_ranges_partition_files
                          (seconds 60) Zoned.three_ranges Hne Hwf) Hone)|].
  split; [exact Hne'|]. split; [exact Hwf'|]. split; [exact Hmixed|].
  exact (proj2 (group_ranges_partition_files
                  (seconds 60) Zoned.naive_and_aware Hne' Hwf') Hmixed).
Defined.

End GroupingFacts.

(** * Properties of the splitter *)

Section FoldFacts.

Context {S A : Type} (body : S -> A -> S).

(** Invariant rule for a loop without exceptions. *)
Lemma fold_left_invariant (P : list A -> S -> Prop) (whole : list A) :
  (forall pre x post st,
      whole = pre ++ x :: post -> P pre st -> P (pre ++ [x]) (body st x)) ->
  forall st0, P [] st0 -> P whole (fold_left body whole st0).
Proof.
  intros Hstep.
  assert (G : forall post pre st,
             whole = pre ++ post -> P pre st ->
             P whole (fold_left body post st)).
  { induction post as [|x post IH]; intros pre st Hw HP.
    - simpl. rewrite Hw, app_nil_r. exact HP.
    - simpl. apply (IH (pre ++ [x])).
      + rewrite <- app_assoc. exact Hw.
      + apply (Hstep pre x post); auto. }
  intros st0 HP. apply (G whole [] st0); auto.
Qed.

End FoldFacts.

Lemma StronglySorted_app_inv {A : Type} (R : A -> A -> Prop)
  (pre post : list A) (x : A) :
  StronglySorted R (pre ++ x :: post) -> forall d, In d pre -> R d x.
Proof.
  induction pre as [|y pre IH]; intros Hs d Hd; [destruct Hd|].
  cbn [app] in Hs. inversion Hs as [|? ? Hs' Hall]; subst.
  destruct Hd as [<-|Hd].
  - rewrite Forall_forall in Hall. apply Hall. apply in_or_app. right. now left.
  - now apply IH.
Qed.

Section StringOrder.

Local Open Scope string_scope.

Lemma ltb_lt (a b : string) :
  String.ltb a b = true <-> OrderedTypeEx.String_as_OT.lt a b.
Proof.
  rewrite <- OrderedTypeEx.String_as_OT.cmp_lt.
  unfold String.ltb, OrderedTypeEx.String_as_OT.cmp.
  destruct (String.compare a b); split; congruence.
Qed.

Lemma ltb_trans (a b c : string) :
  String.ltb a b = true -> String.ltb b c = true -> String.ltb a c = true.
Proof.
  rewrite !ltb_lt. apply OrderedTypeEx.String_as_OT.lt_trans.
Qed.

Lemma ltb_irrefl (a : string) : String.ltb a a = false.
Proof.
  destruct (String.ltb a a) eqn:E; [|reflexivity].
  apply ltb_lt in E. apply OrderedTypeEx.String_as_OT.lt_not_eq in E.
  exfalso. apply E. reflexivity.
Qed.

Lemma ltb_total (a b : string) :
  a = b \/ String.ltb a b = true \/ String.ltb b a = true.
Proof.
  unfold String.ltb. rewrite (String.compare_antisym b a).
  destruct (String.compare a b) eqn:E; simpl; auto.
  left. now apply String.compare_eq_iff.
Qed.

Lemma ltb_empty (a : string) : String.ltb a "" = false.
Proof. destruct a; reflexivity. Qed.

End StringOrder.

Lemma dict_get_set_string {V : Type} (k k' : string) (v : V)
  (d : list (string * V)) :
  dict_get String.eqb k (dict_set String.eqb k' v d)
  = if String.eqb k' k then Some v else dict_get String.eqb k d.
Proof.
  induction d as [|[k2 v2] d IH]; simpl.
  - reflexivity.
  - destruct (String.eqb_spec k2 k') as [->|Hne]; simpl.
    + destruct (String.eqb_spec k' k); reflexivity.
    + destruct (String.eqb_spec k2 k) as [->|Hne2].
      * destruct (String.eqb_spec k' k); [congruence|reflexivity].
      * exact IH.
Qed.

Module SplitterFacts.
Import Splitter SplitterValues.

Section Facts.

Variable Payload : Type.
Local Abbreviation TD := (TrackedDetection Payload).

Lemma key_leb_path (a b : TD) :
  key_leb a b = true -> path_le (input_file_path a) (input_file_path b).
Proof.
  unfold key_leb, path_le.
  destruct (String.eqb_spec (input_file_path a) (input_file_path b)); auto.
Qed.

Lemma path_le_antisym (a b : string) : path_le a b -> path_le b a -> a = b.
Proof.
  intros [H1|H1] [H2|H2]; auto.
  pose proof (ltb_trans _ _ _ H1 H2) as H. rewrite ltb_irrefl in H. discriminate.
Qed.

Lemma key_leb_total (a b : TD) : key_leb a b = true \/ key_leb b a = true.
Proof.
  unfold key_leb. rewrite (String.eqb_sym (input_file_path b)).
  destruct (String.eqb_spec (input_file_path a) (input_file_path b)) as [E|E].
  - rewrite (Z.eqb_sym (frame b)).
    destruct (Z.eqb_spec (frame a) (frame b)).
    + rewrite !Z.leb_le. lia.
    + rewrite !Z.ltb_lt. lia.
  - destruct (ltb_total (input_file_path a) (input_file_path b))
      as [H|[H|H]]; auto; contradiction.
Qed.

Lemma key_leb_trans (a b c : TD) :
  key_leb a b = true -> key_leb b c = true -> key_leb a c = true.
Proof.
  unfold key_leb.
  destruct (String.eqb_spec (input_file_path a) (input_file_path b)) as [E1|E1],
           (String.eqb_spec (input_file_path b) (input_file_path c)) as [E2|E2].
  - rewrite <- E2, <- E1, String.eqb_refl.
    destruct (Z.eqb_spec (frame a) (frame b)), (Z.eqb_spec (frame b) (frame c)),
             (Z.eqb_spec (frame a) (frame c));
      rewrite ?Z.leb_le, ?Z.ltb_lt; lia.
  - rewrite E1. apply String.eqb_neq in E2. rewrite E2. auto.
  - rewrite <- E2. apply String.eqb_neq in E1. rewrite E1. auto.
  - intros H1 H2. pose proof (ltb_trans _ _ _ H1 H2) as H.
    destruct (String.eqb_spec (input_file_path a) (input_file_path c)) as [E|E];
      [|exact H].
    rewrite E, ltb_irrefl in H. discriminate.
Qed.

Lemma sorted_detections (detections : list TD) :
  StronglySorted (fun a b => key_leb a b = true) (sorted_by key_leb detections).
Proof.
  apply sorted_by_sorted; [apply key_leb_total|apply key_leb_trans].
Qed.

Lemma shift_frame_zero (d : TD) : shift_frame 0 d = d.
Proof. destruct d. unfold shift_frame. simpl. now rewrite Z.sub_0_r. Qed.

Lemma of_file_snoc (p : string) (l : list TD) (x : TD) :
  of_file p (l ++ [x])
  = of_file p l ++ (if String.eqb (input_file_path x) p then [x] else []).
Proof. unfold of_file. rewrite filter_app. reflexivity. Qed.

Lemma of_file_none (p : string) (l : list TD) :
  (forall d, In d l -> input_file_path d <> p) -> of_file p l = [].
Proof.
  intros H. induction l as [|d l IH]; [reflexivity|].
  unfold of_file in *. cbn [filter].
  destruct (String.eqb_spec (input_file_path d) p) as [E|E].
  - exfalso. apply (H d); [now left|exact E].
  - apply IH. intros d' Hd'. apply H. now right.
Qed.

Lemma of_file_all (p : string) (l : list TD) :
  (forall d, In d l -> input_file_path d = p) -> of_file p l = l.
Proof.
  intros H. induction l as [|d l IH]; [reflexivity|].
  unfold of_file in *. cbn [filter].
  rewrite (H d) by now left. rewrite String.eqb_refl. f_equal.
  apply IH. intros d' Hd'. apply H. now right.
Qed.

Lemma of_file_In (p : string) (l : list TD) (d : TD) :
  In d (of_file p l) <-> In d l /\ input_file_path d = p.
Proof. unfold of_file. rewrite filter_In, String.eqb_eq. reflexivity. Qed.

Lemma of_file_snoc_other (p : string) (l : list TD) (x : TD) :
  input_file_path x <> p -> of_file p (l ++ [x]) = of_file p l.
Proof.
  intros H. rewrite of_file_snoc. apply String.eqb_neq in H. rewrite H.
  apply app_nil_r.
Qed.

Lemma of_file_snoc_same (l : list TD) (x : TD) :
  of_file (input_file_path x) (l ++ [x]) = of_file (input_file_path x) l ++ [x].
Proof. rewrite of_file_snoc, String.eqb_refl. reflexivity. Qed.

Lemma expected_group_snoc_other (p : string) (l : list TD) (x : TD) :
  input_file_path x <> p -> expected_group p (l ++ [x]) = expected_group p l.
Proof. intros H. unfold expected_group. now rewrite of_file_snoc_other. Qed.

(** What the loop of [split] has built after the detections [whole], sorted
    by file, frame and track. *)
Lemma split_loop_spec (whole : list TD) :
  StronglySorted (fun a b => key_leb a b = true) whole ->
  let st := fold_left split_body whole (mkSplitState [] EmptyString [] 0) in
  (current_input_path st = EmptyString
   /\ (forall d, In d whole -> input_file_path d = EmptyString)
   /\ groups st = [])
  \/ (current_input_path st <> EmptyString
      /\ expected_group (current_input_path st) whole
         = Some (current_group_detections st)
      /\ dict_get String.eqb (current_input_path st) (groups st) = None
      /\ (forall p, p <> current_input_path st -> p <> EmptyString ->
            dict_get String.eqb p (groups st) = expected_group p whole)
      /\ dict_get String.eqb EmptyString (groups st)
         = match of_file EmptyString whole with
           | [] => None
           | d :: l => Some (d :: l)
           end).
Proof.
  intros Hsorted st.
  pose (P := fun (pre : list TD) (st : SplitState Payload) =>
    (current_input_path st = EmptyString
     /\ (forall d, In d pre -> input_file_path d = EmptyString)
     /\ current_group_detections st = pre
     /\ groups st = []
     /\ frame_offset st = 0)
    \/ (current_input_path st <> EmptyString
        /\ (exists d0 r,
              of_file (current_input_path st) pre = d0 :: r
              /\ frame_offset st = frame d0 - 1
              /\ current_group_detections st
                 = map (shift_frame (frame d0 - 1)) (d0 :: r))
        /\ (forall d, In d pre ->
              path_le (input_file_path d) (current_input_path st))
        /\ dict_get String.eqb (current_input_path st) (groups st) = None
        /\ (forall p, p <> current_input_path st -> p <> EmptyString ->
              dict_get String.eqb p (groups st) = expected_group p pre)
        /\ dict_get String.eqb EmptyString (groups st)
           = match of_file EmptyString pre with
             | [] => None
             | d :: l => Some (d :: l)
             end)).
  assert (HP : P whole st).
  { subst st. apply (fold_left_invariant split_body P whole).
    - intros pre x post s Hwhole HPs.
      assert (Hbefore : forall d, In d pre ->
                 path_le (input_file_path d) (input_file_path x)).
      { intros d Hd. apply key_leb_path. rewrite Hwhole in Hsorted.
        apply (StronglySorted_app_inv _ pre post x Hsorted d Hd). }
      assert (Hall : forall d, In d (pre ++ [x]) ->
                 path_le (input_file_path d) (input_file_path x)).
      { intros d Hd. apply in_app_or in Hd. destruct Hd as [Hd|[<-|[]]];
          [now apply Hbefore|now left]. }
      unfold P in HPs |- *. unfold split_body.
      destruct HPs as [(Hq & Hpre & Hcur & Hg & Hoff)
                      |(Hq & (d0 & r & Hof & Hoff & Hcur) & Hle & Hnone & Hother
                        & Hempty)].
      + rewrite Hq.
        destruct (String.eqb_spec (input_file_path x) EmptyString) as [Ex|Ex];
          cbn [negb current_group_detections current_input_path groups
               frame_offset app].
        * left. rewrite Hoff, shift_frame_zero, Hcur.
          repeat split; auto.
          intros d Hd. apply in_app_or in Hd.
          destruct Hd as [Hd|[<-|[]]]; auto.
        * right. split; [exact Ex|].
          assert (Hnot : forall p, p <> EmptyString -> of_file p pre = []).
          { intros p Hp. apply of_file_none. intros d Hd.
            rewrite (Hpre d Hd). congruence. }
          split.
          { exists x, []. rewrite of_file_snoc_same, (Hnot _ Ex).
            repeat split. }
          split; [exact Hall|].
          assert (Hget : forall p, p <> EmptyString ->
                     dict_get String.eqb p
                       (if (0 <? List.length (current_group_detections s))%nat
                        then dict_set String.eqb EmptyString
                               (current_group_detections s) (groups s)
                        else groups s) = None).
          { intros p Hp. rewrite Hg.
            destruct (0 <? List.length (current_group_detections s))%nat;
              [|reflexivity].
            cbn [dict_set dict_get]. apply not_eq_sym in Hp.
            apply String.eqb_neq in Hp. now rewrite Hp. }
          split; [now apply Hget|]. split.
          { intros p Hp1 Hp2. rewrite (Hget p Hp2).
            unfold expected_group.
            rewrite of_file_snoc_other by congruence. now rewrite (Hnot p Hp2). }
          rewrite of_file_snoc_other by exact Ex.
          rewrite (of_file_all EmptyString pre Hpre), Hg, Hcur.
          destruct pre; reflexivity.
      + destruct (String.eqb_spec (input_file_path x) (current_input_path s))
          as [Ex|Ex];
          cbn [negb current_group_detections current_input_path groups
               frame_offset app].
        * right. split; [exact Hq|]. split.
          { exists d0, (r ++ [x]). rewrite <- Ex, of_file_snoc_same, Ex, Hof.
            split; [reflexivity|]. split; [exact Hoff|].
            rewrite Hcur, Hoff. cbn [map app]. now rewrite map_app. }
          split; [rewrite <- Ex; exact Hall|]. split; [exact Hnone|]. split.
          { intros p Hp1 Hp2. rewrite expected_group_snoc_other by congruence.
            now apply Hother. }
          rewrite of_file_snoc_other by congruence. exact Hempty.
        * assert (Hd0 : In d0 pre /\ input_file_path d0 = current_input_path s).
          { apply of_file_In. rewrite Hof. now left. }
          assert (Hqx : path_le (current_input_path s) (input_file_path x)).
          { destruct Hd0 as [Hin <-]. now apply Hbefore. }
          assert (Hx : input_file_path x <> EmptyString).
          { intros E. rewrite E in Hqx. destruct Hqx as [H|H]; [congruence|].
            rewrite ltb_empty in H. discriminate. }
          assert (Hfresh : of_file (input_file_path x) pre = []).
          { apply of_file_none. intros d Hd E. apply Ex.
            apply path_le_antisym; [|exact Hqx]. rewrite <- E. now apply Hle. }
          right. split; [exact Hx|]. split.
          { exists x, []. rewrite of_file_snoc_same, Hfresh. repeat split. }
          split; [exact Hall|].
          assert (Hlen : (0 <? List.length (current_group_detections s))%nat
                         = true) by (rewrite Hcur; reflexivity).
          rewrite Hlen. split.
          { rewrite dict_get_set_string.
            apply not_eq_sym in Ex. apply String.eqb_neq in Ex. rewrite Ex.
            rewrite (Hother _ (not_eq_sym (proj1 (String.eqb_neq _ _) Ex)) Hx).
            unfold expected_group. now rewrite Hfresh. }
          split.
          { intros p Hp1 Hp2. rewrite dict_get_set_string.
            rewrite expected_group_snoc_other by congruence.
            destruct (String.eqb_spec (current_input_path s) p) as [<-|Hp3].
            - unfold expected_group. now rewrite Hof, Hcur.
            - apply Hother; congruence. }
          rewrite dict_get_set_string.
          apply String.eqb_neq in Hq. rewrite Hq.
          rewrite of_file_snoc_other by exact Hx. exact Hempty.
    - left. repeat split. intros d []. }
  destruct HP as [(Hq & Hpre & _ & Hg & _)
                 |(Hq & (d0 & r & Hof & _ & Hcur) & _ & Hnone & Hother & Hempty)].
  - left. auto.
  - right. split; [exact Hq|]. split.
    { unfold expected_group. now rewrite Hof, Hcur. }
    auto.
Qed.

Lemma flatten_spec {A K1 K2 : Type} (tracks : list (K1 * list (K2 * A))) :
  flatten tracks = values_of tracks.
Proof.
  unfold flatten, values_of.
  assert (Hin : forall (l : list (K2 * A)) acc,
             fold_left (fun ds d => ds ++ [snd d]) l acc = acc ++ map snd l).
  { induction l as [|d l IH]; intros acc; simpl; [now rewrite app_nil_r|].
    rewrite IH, <- app_assoc. reflexivity. }
  assert (Hout : forall (l : list (K1 * list (K2 * A))) acc,
             fold_left (fun ds t => fold_left (fun ds d => ds ++ [snd d])
                                              (snd t) ds) l acc
             = acc ++ List.concat (map (fun t => map snd (snd t)) l)).
  { induction l as [|t l IH]; intros acc; simpl; [now rewrite app_nil_r|].
    rewrite IH, Hin, <- app_assoc. reflexivity. }
  apply (Hout tracks []).
Qed.

Lemma Permutation_of_file (p : string) (l l' : list TD) :
  Permutation l l' -> Permutation (of_file p l) (of_file p l').
Proof.
  unfold of_file. induction 1 as [|x l l' _ IH|x y l|l1 l2 l3 _ IH1 _ IH2];
    cbn [filter].
  - constructor.
  - destruct (String.eqb (input_file_path x) p); [now constructor|exact IH].
  - destruct (String.eqb (input_file_path x) p),
             (String.eqb (input_file_path y) p);
      try reflexivity. apply perm_swap.
  - now transitivity (filter (fun d => String.eqb (input_file_path d) p) l2).
Qed.

Lemma of_file_sorted (p : string) (l : list TD) :
  StronglySorted (fun a b => key_leb a b = true) l ->
  StronglySorted frame_track_le (of_file p l).
Proof.
  unfold of_file. induction 1 as [|x l Hs IH Hx]; cbn [filter]; [constructor|].
  destruct (String.eqb_spec (input_file_path x) p) as [Ex|Ex]; [|exact IH].
  constructor; [exact IH|]. apply Forall_forall. intros d Hd.
  apply filter_In in Hd. destruct Hd as [Hd Hp]. apply String.eqb_eq in Hp.
  rewrite Forall_forall in Hx. specialize (Hx d Hd).
  unfold key_leb in Hx. rewrite Ex, Hp, String.eqb_refl in Hx.
  unfold frame_track_le.
  destruct (Z.eqb_spec (frame x) (frame d));
    [apply Z.leb_le in Hx|apply Z.ltb_lt in Hx]; lia.
Qed.

(** The loop on values: for every non-empty file path, the group under that
    path holds the detections of that file, all of them, ordered by frame
    and then by track, with the frame numbers shifted so that the first has
    frame 1. *)
Lemma split_detections_by_file (dets : list TD) (p : string) :
  p <> EmptyString ->
  dict_get String.eqb p (split_detections dets)
  = expected_group p (sorted_by key_leb dets)
  /\ forall g,
       dict_get String.eqb p (split_detections dets) = Some g ->
       (exists d r, g = d :: r /\ frame d = 1)
       /\ Forall (fun d => input_file_path d = p /\ 1 <= frame d) g
       /\ StronglySorted frame_track_le g
       /\ exists offset,
            Permutation g (map (shift_frame offset) (of_file p dets)).
Proof.
  intros Hp.
  assert (Heq : dict_get String.eqb p (split_detections dets)
                = expected_group p (sorted_by key_leb dets)).
  { unfold split_detections.
    destruct (split_loop_spec _ (sorted_detections dets))
      as [(Hq & Hall & Hg)|(Hq & Hcur & Hnone & Hother & _)].
    - rewrite Hq, Hg. cbn [String.eqb negb dict_get]. unfold expected_group.
      rewrite of_file_none; [reflexivity|].
      intros d Hd. rewrite (Hall d Hd). congruence.
    - apply String.eqb_neq in Hq. rewrite Hq. cbn [negb].
      rewrite dict_get_set_string.
      destruct (String.eqb_spec
                  (current_input_path
                     (fold_left split_body (sorted_by key_leb dets)
                                (mkSplitState [] EmptyString [] 0))) p)
        as [E|E].
      + rewrite <- E. now rewrite Hcur.
      + apply Hother; congruence. }
  split; [exact Heq|]. intros g Hg. rewrite Heq in Hg.
  unfold expected_group in Hg.
  pose proof (of_file_sorted p _ (sorted_detections dets)) as Hsorted.
  pose proof (Permutation_of_file p _ _ (sorted_by_perm key_leb dets)) as Hperm.
  destruct (of_file p (sorted_by key_leb dets)) as [|d0 r] eqn:Eof;
    [discriminate|].
  injection Hg as <-.
  assert (Hpath : forall d, In d (d0 :: r) -> input_file_path d = p).
  { intros d Hd. rewrite <- Eof in Hd. now apply of_file_In in Hd. }
  assert (Hframes : forall d, In d r -> frame_track_le d0 d)
    by (inversion Hsorted as [|? ? _ Hall]; subst;
        now rewrite Forall_forall in Hall).
  split; [|split; [|split]].
  - eexists. eexists. split; [reflexivity|]. cbn [shift_frame frame]. lia.
  - apply Forall_forall. intros d Hd.
    change (In d (map (shift_frame (frame d0 - 1)) (d0 :: r))) in Hd.
    apply in_map_iff in Hd.
    destruct Hd as (d' & <- & Hd'). cbn [shift_frame input_file_path frame].
    split; [now apply Hpath|].
    destruct Hd' as [<-|Hd']; [lia|].
    specialize (Hframes d' Hd'). unfold frame_track_le in Hframes. lia.
  - assert (Hshift : forall k (l : list TD),
               StronglySorted frame_track_le l ->
               StronglySorted frame_track_le (map (shift_frame k) l)).
    { intros k l Hl. induction Hl as [|x l Hs IH Hx]; [constructor|].
      cbn [map]. constructor; [exact IH|].
      rewrite Forall_forall in *. intros d Hd. apply in_map_iff in Hd.
      destruct Hd as (d' & <- & Hd'). specialize (Hx d' Hd').
      unfold frame_track_le in *. cbn [shift_frame frame track_id]. lia. }
    apply (Hshift (frame d0 - 1) (d0 :: r) Hsorted).
  - exists (frame d0 - 1).
    apply (Permutation_map (shift_frame (frame d0 - 1)) Hperm).
Qed.

(** The loop on values: detections whose file path is empty are kept under
    the empty key, unshifted, only if some detection has a non-empty path. *)
Lemma split_detections_empty_path (dets : list TD) :
  if forallb (fun d => String.eqb (input_file_path d) EmptyString) dets
  then split_detections dets = []
  else dict_get String.eqb EmptyString (split_detections dets)
       = match of_file EmptyString (sorted_by key_leb dets) with
         | [] => None
         | d :: l => Some (d :: l)
         end.
Proof.
  unfold split_detections.
  destruct (split_loop_spec _ (sorted_detections dets))
    as [(Hq & Hall & Hg)|(Hq & Hcur & Hnone & Hother & Hempty)].
  - replace (forallb (fun d => String.eqb (input_file_path d) EmptyString) dets)
      with true.
    + rewrite Hq, Hg. reflexivity.
    + symmetry. apply forallb_forall. intros d Hd. apply String.eqb_eq.
      apply Hall. apply (Permutation_in _ (Permutation_sym
                                             (sorted_by_perm key_leb dets)) Hd).
  - replace (forallb (fun d => String.eqb (input_file_path d) EmptyString) dets)
      with false.
    + pose proof Hq as Hq'. apply String.eqb_neq in Hq'. rewrite Hq'.
      cbn [negb]. rewrite dict_get_set_string, Hq'. exact Hempty.
    + symmetry. apply not_true_is_false. intros Hf.
      rewrite forallb_forall in Hf. unfold expected_group in Hcur.
      destruct (of_file _ (sorted_by key_leb dets)) as [|d0 r] eqn:Eof;
        [discriminate|].
      assert (Hd0 : In d0 (of_file
                (current_input_path
                   (fold_left split_body (sorted_by key_leb dets)
                              (mkSplitState [] EmptyString [] 0)))
                (sorted_by key_leb dets))) by (rewrite Eof; now left).
      apply of_file_In in Hd0. destruct Hd0 as [Hin Hpath].
      apply (Permutation_in _ (sorted_by_perm key_leb dets)) in Hin.
      specialize (Hf d0 Hin). apply String.eqb_eq in Hf. congruence.
Qed.

(** ** The loop on the store *)

Local Abbreviation Store := (Splitter.Store Payload).
Local Abbreviation RState := (Splitter.SplitState Payload).
Local Abbreviation initial := (mkSplitState (Payload := Payload) [] EmptyString [] 0).

Lemma contents_dict_set (s : Store) (k : string) (v : list Ref)
  (g : list (string * list Ref)) :
  contents s (dict_set String.eqb k v g)
  = dict_set String.eqb k (map s v) (contents s g).
Proof.
  unfold contents. induction g as [|[k' v'] g IH]; [reflexivity|].
  cbn [dict_set map fst snd]. destruct (String.eqb k' k).
  - reflexivity.
  - cbn [map fst snd]. now rewrite IH.
Qed.

Lemma dict_get_contents (s : Store) (p : string) (g : list (string * list Ref)) :
  dict_get String.eqb p (contents s g)
  = option_map (map s) (dict_get String.eqb p g).
Proof.
  unfold contents. induction g as [|[k' v'] g IH]; [reflexivity|].
  cbn [dict_get map fst snd]. destruct (String.eqb k' p); [reflexivity|exact IH].
Qed.

Lemma dict_set_string_In {V : Type} (k : string) (v : V) (d : list (string * V))
  (e : string * V) :
  In e (dict_set String.eqb k v d) -> e = (k, v) \/ In e d.
Proof.
  induction d as [|[k' v'] d IH]; cbn [dict_set].
  - intros [<-|[]]. now left.
  - destruct (String.eqb k' k).
    + intros [<-|H]; [now left|right; now right].
    + intros [<-|H]; [right; now left|].
      destruct (IH H) as [->|H']; [now left|right; now right].
Qed.

Lemma contents_agree (s s' : Store) (g : list (string * list Ref)) :
  (forall p l r, In (p, l) g -> In r l -> s' r = s r) ->
  contents s' g = contents s g.
Proof.
  intros H. unfold contents. apply map_ext_in. intros [p l] Hin.
  cbn [fst snd]. f_equal. apply map_ext_in. intros r Hr. apply (H p l r Hin Hr).
Qed.

Lemma set_frame_other (s : Store) (r r' : Ref) (v : Z) :
  r' <> r -> set_frame s r v r' = s r'.
Proof. intros H. unfold set_frame. apply Nat.eqb_neq in H. now rewrite H. Qed.

Lemma set_frame_same (s : Store) (r : Ref) (k : Z) :
  set_frame s r (frame (s r) - k) r = shift_frame k (s r).
Proof. unfold set_frame. now rewrite Nat.eqb_refl. Qed.

Lemma split_body_store (st : RState) (r r' : Ref) :
  r' <> r -> store (Splitter.split_body st r) r' = store st r'.
Proof.
  intros H. unfold Splitter.split_body.
  destruct (negb _); cbn [store]; now apply set_frame_other.
Qed.

(** One step on the store shows as one step on the values, when the dict
    taken is in no group yet. *)
Lemma split_body_view (st : RState) (r : Ref) :
  ~ In r (Splitter.current_group_detections st) ->
  (forall p g, In (p, g) (Splitter.groups st) -> ~ In r g) ->
  view (Splitter.split_body st r) = split_body (view st) (store st r).
Proof.
  intros Hcur Hgroups.
  assert (Hmap : forall v l, ~ In r l ->
                   map (set_frame (store st) r v) l = map (store st) l).
  { intros v l Hl. apply map_ext_in. intros r' Hr'. apply set_frame_other.
    intros ->. now apply Hl. }
  assert (Hcont : forall v g,
             (forall p l, In (p, l) g -> ~ In r l) ->
             contents (set_frame (store st) r v) g = contents (store st) g).
  { intros v g Hg. apply contents_agree. intros p l r' Hin Hr'.
    apply set_frame_other. intros ->. apply (Hg p l Hin Hr'). }
  unfold Splitter.split_body, split_body, view.
  cbn [current_input_path current_group_detections groups frame_offset].
  destruct (negb (String.eqb (input_file_path (store st r))
                             (Splitter.current_input_path st))).
  - cbn [store Splitter.current_group_detections Splitter.current_input_path
         Splitter.groups Splitter.frame_offset current_input_path
         current_group_detections groups frame_offset app map].
    rewrite set_frame_same, length_map. f_equal.
    destruct (0 <? List.length (Splitter.current_group_detections st))%nat.
    + rewrite Hcont.
      * apply contents_dict_set.
      * intros p l Hin. apply dict_set_string_In in Hin.
        destruct Hin as [E|Hin]; [|now apply (Hgroups p l)].
        injection E as -> ->. exact Hcur.
    + now apply Hcont.
  - cbn [store Splitter.current_group_detections Splitter.current_input_path
         Splitter.groups Splitter.frame_offset current_input_path
         current_group_detections groups frame_offset].
    rewrite map_app. cbn [map]. rewrite set_frame_same, Hmap by exact Hcur.
    f_equal. now apply Hcont.
Qed.

Lemma StronglySorted_prefix {A : Type} (R : A -> A -> Prop) (pre post : list A) :
  StronglySorted R (pre ++ post) -> StronglySorted R pre.
Proof.
  induction pre as [|x pre IH]; [constructor|].
  cbn [app]. intros H. inversion H as [|? ? Hs Hall]; subst.
  constructor; [now apply IH|].
  rewrite Forall_app in Hall. tauto.
Qed.

Lemma sorted_by_map {A B : Type} (leb : B -> B -> bool) (f : A -> B)
  (l : list A) :
  map f (sorted_by (fun a b => leb (f a) (f b)) l) = sorted_by leb (map f l).
Proof.
  assert (Hins : forall x l0,
             map f (insert_sorted (fun a b => leb (f a) (f b)) x l0)
             = insert_sorted leb (f x) (map f l0)).
  { intros x l0. induction l0 as [|y l0 IH]; [reflexivity|].
    cbn [insert_sorted map]. destruct (leb (f x) (f y)); [reflexivity|].
    cbn [map]. now rewrite IH. }
  induction l as [|x l IH]; [reflexivity|].
  unfold sorted_by in *. cbn [fold_right map]. now rewrite Hins, IH.
Qed.

(** In a state the loop on values reaches, the current path is no key of
    the groups. *)
Lemma current_path_fresh (s0 : Store) (pre : list Ref) (st : RState) :
  StronglySorted (fun a b => key_leb a b = true) (map s0 pre) ->
  view st = fold_left split_body (map s0 pre) initial ->
  Splitter.current_input_path st <> EmptyString ->
  dict_get String.eqb (Splitter.current_input_path st) (Splitter.groups st)
  = None.
Proof.
  intros Hsorted Hview Hp.
  pose proof (split_loop_spec _ Hsorted) as H. cbv zeta in H.
  rewrite <- Hview in H. cbn [view current_input_path groups] in H.
  destruct H as [(Hq & _)|(_ & _ & Hnone & _)]; [congruence|].
  rewrite dict_get_contents in Hnone.
  destruct (dict_get String.eqb _ (Splitter.groups st)); [discriminate|].
  reflexivity.
Qed.

(** What the loop of [split] has done after the dicts [pre], none of them
    taken twice, in the order of their keys. *)
Lemma split_loop_store (s0 : Store) (whole : list Ref) :
  NoDup whole ->
  StronglySorted (fun a b => key_leb a b = true) (map s0 whole) ->
  let st := fold_left Splitter.split_body whole
                      (Splitter.mkSplitState s0 [] EmptyString [] 0) in
  view st = fold_left split_body (map s0 whole) initial
  /\ (forall r, ~ In r whole -> store st r = s0 r)
  /\ (forall r, In r whole -> input_file_path (s0 r) = EmptyString ->
        store st r = s0 r)
  /\ (forall r, In r whole -> input_file_path (s0 r) <> EmptyString ->
        (input_file_path (s0 r) = Splitter.current_input_path st
         /\ In r (Splitter.current_group_detections st))
        \/ exists g,
             dict_get String.eqb (input_file_path (s0 r)) (Splitter.groups st)
             = Some g /\ In r g).
Proof.
  intros Hnodup Hsorted st.
  pose (P := fun (pre : list Ref) (st : RState) =>
    view st = fold_left split_body (map s0 pre) initial
    /\ (forall r, ~ In r pre -> store st r = s0 r)
    /\ (forall r, In r (Splitter.current_group_detections st) -> In r pre)
    /\ (forall p g r, In (p, g) (Splitter.groups st) -> In r g -> In r pre)
    /\ (Splitter.current_input_path st = EmptyString ->
        Splitter.frame_offset st = 0)
    /\ (Splitter.current_input_path st <> EmptyString ->
        exists r, In r pre
                  /\ input_file_path (s0 r) = Splitter.current_input_path st)
    /\ (forall r, In r pre -> input_file_path (s0 r) = EmptyString ->
          store st r = s0 r)
    /\ (forall r, In r pre -> input_file_path (s0 r) <> EmptyString ->
          (input_file_path (s0 r) = Splitter.current_input_path st
           /\ In r (Splitter.current_group_detections st))
          \/ exists g,
               dict_get String.eqb (input_file_path (s0 r))
                        (Splitter.groups st) = Some g /\ In r g)).
  assert (HP : P whole st).
  { apply (fold_left_invariant Splitter.split_body P whole).
    - intros pre x post st0 Hwhole
             (Hview & Hout & Hcur & Hgr & Hoff & Hlast & Hempty & Hin).
      assert (Hx : ~ In x pre).
      { rewrite Hwhole in Hnodup. apply NoDup_remove_2 in Hnodup.
        intros H. apply Hnodup. apply in_or_app. now left. }
      assert (Hsx : store st0 x = s0 x) by now apply Hout.
      assert (Hpre : StronglySorted (fun a b => key_leb a b = true)
                                    (map s0 pre)).
      { rewrite Hwhole, map_app in Hsorted.
        now apply StronglySorted_prefix in Hsorted. }
      assert (Hle : forall r, In r pre ->
                      path_le (input_file_path (s0 r))
                              (input_file_path (s0 x))).
      { intros r Hr. apply key_leb_path.
        rewrite Hwhole, map_app in Hsorted. cbn [map] in Hsorted.
        apply (StronglySorted_app_inv _ _ _ _ Hsorted). now apply in_map. }
      assert (Hnonempty : Splitter.current_input_path st0 <> EmptyString ->
                          input_file_path (s0 x) <> EmptyString).
      { intros Hq Hex. destruct (Hlast Hq) as (r & Hr & Hpr).
        destruct (Hle r Hr) as [E|E].
        - congruence.
        - rewrite Hex, ltb_empty in E. discriminate. }
      assert (Hfresh : Splitter.current_input_path st0 <> EmptyString ->
                dict_get String.eqb (Splitter.current_input_path st0)
                         (Splitter.groups st0) = None)
        by (apply (current_path_fresh s0 pre); assumption).
      unfold P. split; [|split; [|split; [|split; [|split; [|split; [|split]]]]]].
      + rewrite split_body_view.
        * rewrite Hview, Hsx, map_app, fold_left_app. reflexivity.
        * intros H. apply Hx. now apply Hcur.
        * intros p g Hg H. apply Hx. now apply (Hgr p g).
      + intros r Hr. rewrite split_body_store.
        * apply Hout. intros H. apply Hr. apply in_or_app. now left.
        * intros ->. apply Hr. apply in_or_app. right. now left.
      + intros r. unfold Splitter.split_body.
        destruct (negb _); cbn [Splitter.current_group_detections];
          intros Hr; apply in_app_or in Hr; apply in_or_app;
          destruct Hr as [Hr|Hr]; auto; destruct Hr.
      + intros p g r. unfold Splitter.split_body.
        destruct (negb _); cbn [Splitter.groups]; intros Hg Hr;
          apply in_or_app; left; [|now apply (Hgr p g)].
        destruct (0 <? _)%nat; [|now apply (Hgr p g)].
        apply dict_set_string_In in Hg. destruct Hg as [E|Hg]; [|now apply (Hgr p g)].
        injection E as -> ->. now apply Hcur.
      + unfold Splitter.split_body.
        destruct (negb (String.eqb _ _)) eqn:Etest;
          cbn [Splitter.current_input_path Splitter.frame_offset]; [|exact Hoff].
        intros Hex. rewrite Hsx in Hex, Etest.
        destruct (String.eqb_spec (Splitter.current_input_path st0) EmptyString)
          as [Hq|Hq].
        * rewrite Hq, Hex in Etest. discriminate.
        * now apply Hnonempty in Hq.
      + unfold Splitter.split_body.
        destruct (negb (String.eqb _ _)) eqn:Etest;
          cbn [Splitter.current_input_path].
        * intros _. exists x. split; [apply in_or_app; right; now left|].
          now rewrite Hsx.
        * intros Hq. destruct (Hlast Hq) as (r & Hr & Hpr). exists r.
          split; [apply in_or_app; now left|exact Hpr].
      + intros r Hr Hex. apply in_app_or in Hr. destruct Hr as [Hr|[<-|[]]].
        * rewrite split_body_store; [now apply Hempty|].
          intros ->. now apply Hx.
        * unfold Splitter.split_body.
          destruct (negb (String.eqb _ _)) eqn:Etest.
          -- exfalso. rewrite Hsx, Hex in Etest.
             destruct (String.eqb_spec (Splitter.current_input_path st0)
                                       EmptyString) as [Hq|Hq].
             ++ rewrite Hq in Etest. discriminate.
             ++ now apply Hnonempty in Hq.
          -- cbn [store Splitter.frame_offset]. rewrite set_frame_same.
             apply Bool.negb_false_iff, String.eqb_eq in Etest.
             rewrite Hsx, Hex in Etest. rewrite Hoff by congruence.
             rewrite Hsx. apply shift_frame_zero.
      + intros r Hr Hne. apply in_app_or in Hr.
        unfold Splitter.split_body.
        destruct (negb (String.eqb _ _)) eqn:Etest;
          cbn [Splitter.current_input_path Splitter.current_group_detections
               Splitter.groups].
        * destruct Hr as [Hr|[<-|[]]];
            [|left; split; [now rewrite Hsx|now left]].
          right. destruct (Hin r Hr Hne) as [(Hp & Hc)|(g & Hg & Hrg)].
          -- exists (Splitter.current_group_detections st0).
             split; [|exact Hc].
             destruct (Splitter.current_group_detections st0) as [|c cs];
               [destruct Hc|].
             cbn [List.length Nat.ltb Nat.leb]. rewrite Hp.
             rewrite dict_get_set_string, String.eqb_refl. reflexivity.
          -- exists g. split; [|exact Hrg].
             destruct (0 <? _)%nat; [|exact Hg].
             rewrite dict_get_set_string.
             destruct (String.eqb_spec (Splitter.current_input_path st0)
                                       (input_file_path (s0 r))) as [E|E];
               [|exact Hg].
             rewrite <- E in Hg, Hne. rewrite Hfresh in Hg by exact Hne.
             discriminate.
        * apply Bool.negb_false_iff, String.eqb_eq in Etest.
          destruct Hr as [Hr|[<-|[]]].
          -- destruct (Hin r Hr Hne) as [(Hp & Hc)|H]; [left|now right].
             split; [exact Hp|]. apply in_or_app. now left.
          -- left. split; [now rewrite <- Hsx|].
             apply in_or_app. right. now left.
    - unfold P. cbn. repeat split; auto; try tauto; try congruence. }
  destruct HP as (Hview & Hout & _ & _ & _ & _ & Hempty & Hin).
  auto.
Qed.

(** When no dict is held twice, what [split] returns shows, read after the
    call, what the loop on values gives for the values before the call. *)
Lemma split_shows {K1 K2 : Type} (store0 : Store)
  (tracks : list (K1 * list (K2 * Ref))) :
  NoDup (values_of tracks) ->
  contents (fst (split store0 tracks)) (snd (split store0 tracks))
  = split_detections (map store0 (values_of tracks)).
Proof.
  intros Hnodup. unfold split, split_detections. rewrite flatten_spec.
  cbn [fst snd].
  set (whole := sorted_by (fun a b => key_leb (store0 a) (store0 b))
                          (values_of tracks)).
  assert (Hsorted : StronglySorted (fun a b => key_leb a b = true)
                                   (map store0 whole)).
  { unfold whole. rewrite sorted_by_map. apply sorted_detections. }
  assert (Hnd : NoDup whole).
  { apply (Permutation_NoDup (Permutation_sym (sorted_by_perm _ _)) Hnodup). }
  destruct (split_loop_store store0 whole Hnd Hsorted) as (Hview & _).
  rewrite <- sorted_by_map. fold whole. rewrite <- Hview.
  cbn [view current_input_path current_group_detections groups].
  destruct (negb _); [apply contents_dict_set|reflexivity].
Qed.

(** X10: when [tracks] holds no dict twice, then for every non-empty file
    path the group [split] returns under that path shows the detections of
    that file, all of them, ordered by frame and then by track, with the
    frame numbers shifted so that the first detection has frame 1; a path
    that no detection carries is no key of the result. *)
Theorem split_groups_by_file {K1 K2 : Type} (store0 : Store)
  (tracks : list (K1 * list (K2 * Ref))) (p : string) :
  NoDup (values_of tracks) ->
  p <> EmptyString ->
  let shown := contents (fst (split store0 tracks)) (snd (split store0 tracks)) in
  let before := map store0 (values_of tracks) in
  dict_get String.eqb p shown = expected_group p (sorted_by key_leb before)
  /\ forall g,
       dict_get String.eqb p shown = Some g ->
       (exists d r, g = d :: r /\ frame d = 1)
       /\ Forall (fun d => input_file_path d = p /\ 1 <= frame d) g
       /\ StronglySorted frame_track_le g
       /\ exists offset,
            Permutation g (map (shift_frame offset) (of_file p before)).
Proof.
  intros Hnodup Hp shown before. unfold shown.
  rewrite (split_shows store0 tracks Hnodup).
  apply (split_detections_by_file before p Hp).
Qed.

(** X11: when [tracks] holds no dict twice, the detections whose file path
    is empty are kept under the empty key, with their frame numbers
    unchanged, only if some detection has a non-empty path; when every
    detection has an empty path, [split] returns an empty dict and all of
    them are lost. *)
Theorem split_empty_path {K1 K2 : Type} (store0 : Store)
  (tracks : list (K1 * list (K2 * Ref))) :
  NoDup (values_of tracks) ->
  let before := map store0 (values_of tracks) in
  if forallb (fun d => String.eqb (input_file_path d) EmptyString) before
  then snd (split store0 tracks) = []
  else dict_get String.eqb EmptyString
         (contents (fst (split store0 tracks)) (snd (split store0 tracks)))
       = match of_file EmptyString (sorted_by key_leb before) with
         | [] => None
         | d :: l => Some (d :: l)
         end.
Proof.
  intros Hnodup before. subst before.
  pose proof (split_detections_empty_path (map store0 (values_of tracks)))
    as H.
  rewrite <- (split_shows store0 tracks Hnodup) in H.
  destruct (forallb _ (map store0 (values_of tracks))); [|exact H].
  destruct (snd (split store0 tracks)); [reflexivity|discriminate].
Qed.

(** X12: [split] changes the dicts of its argument.  When [tracks] holds no
    dict twice, every dict of [tracks] with a non-empty path is, after the
    call, in the group returned for its path, where it shows its new frame
    number; a dict with an empty path and a dict that [tracks] does not
    hold are left as they were. *)
Theorem split_changes_the_dicts_of_tracks {K1 K2 : Type} (store0 : Store)
  (tracks : list (K1 * list (K2 * Ref))) :
  NoDup (values_of tracks) ->
  (forall r, ~ In r (values_of tracks) ->
     fst (split store0 tracks) r = store0 r)
  /\ (forall r, In r (values_of tracks) ->
        input_file_path (store0 r) = EmptyString ->
        fst (split store0 tracks) r = store0 r)
  /\ (forall r, In r (values_of tracks) ->
        input_file_path (store0 r) <> EmptyString ->
        exists g,
          dict_get String.eqb (input_file_path (store0 r))
                   (snd (split store0 tracks)) = Some g
          /\ In r g).
Proof.
  intros Hnodup. unfold split. rewrite flatten_spec. cbn [fst snd].
  set (whole := sorted_by (fun a b => key_leb (store0 a) (store0 b))
                          (values_of tracks)).
  assert (Hsorted : StronglySorted (fun a b => key_leb a b = true)
                                   (map store0 whole)).
  { unfold whole. rewrite sorted_by_map. apply sorted_detections. }
  assert (Hperm : Permutation whole (values_of tracks))
    by apply sorted_by_perm.
  assert (Hnd : NoDup whole)
    by apply (Permutation_NoDup (Permutation_sym Hperm) Hnodup).
  destruct (split_loop_store store0 whole Hnd Hsorted)
    as (Hview & Hout & Hempty & Hin).
  split; [|split].
  - intros r Hr. apply Hout. intros H. apply Hr.
    apply (Permutation_in _ Hperm H).
  - intros r Hr. apply Hempty.
    apply (Permutation_in _ (Permutation_sym Hperm) Hr).
  - intros r Hr Hne.
    apply (Permutation_in _ (Permutation_sym Hperm)) in Hr.
    destruct (Hin r Hr Hne) as [(Hp & Hc)|(g & Hg & Hrg)].
    + exists (Splitter.current_group_detections
                (fold_left Splitter.split_body whole
                   (Splitter.mkSplitState store0 [] EmptyString [] 0))).
      split; [|exact Hc].
      rewrite <- Hp. apply String.eqb_neq in Hne. rewrite Hne. cbn [negb].
      rewrite dict_get_set_string, String.eqb_refl. reflexivity.
    + exists g. split; [|exact Hrg].
      destruct (negb _) eqn:Etest; [|exact Hg].
      rewrite dict_get_set_string.
      destruct (String.eqb_spec
                  (Splitter.current_input_path
                     (fold_left Splitter.split_body whole
                        (Splitter.mkSplitState store0 [] EmptyString [] 0)))
                  (input_file_path (store0 r))) as [E|E]; [|exact Hg].
      rewrite <- E in Hg, Hne.
      rewrite (current_path_fresh store0 whole _ Hsorted Hview Hne) in Hg.
      discriminate.
Qed.

End Facts.

Lemma split_groups_by_file_witness :
  NoDup (values_of sample_tracks)
  /\ "a.otdet"%string <> EmptyString
  /\ dict_get String.eqb "a.otdet"%string
       (contents (fst (split sample_store sample_tracks))
                 (snd (split sample_store sample_tracks)))
     = Some [mkTracked "a.otdet"%string 1 1 tt;
             mkTracked "a.otdet"%string 1 2 tt;
             mkTracked "a.otdet"%string 3 1 tt].
Proof.
  assert (Hnodup : NoDup (values_of sample_tracks))
    by (vm_compute; repeat constructor; simpl; intuition discriminate).
  assert (Hp : "a.otdet"%string <> EmptyString) by discriminate.
  split; [exact Hnodup|]. split; [exact Hp|].
  rewrite (proj1 (split_groups_by_file unit sample_store sample_tracks
                    "a.otdet"%string Hnodup Hp)).
  vm_compute. reflexivity.
Defined.

Lemma split_empty_path_witness :
  NoDup (values_of sample_tracks)
  /\ dict_get String.eqb EmptyString
       (contents (fst (split sample_store sample_tracks))
                 (snd (split sample_store sample_tracks)))
     = None.
Proof.
  assert (Hnodup : NoDup (values_of sample_tracks))
    by (vm_compute; repeat constructor; simpl; intuition discriminate).
  split; [exact Hnodup|].
  exact (split_empty_path unit sample_store sample_tracks Hnodup).
Defined.

Lemma split_changes_the_dicts_of_tracks_witness :
  NoDup (values_of sample_tracks)
  /\ exists g,
       dict_get String.eqb "a.otdet"%string
                (snd (split sample_store sample_tracks)) = Some g
       /\ In 3%nat g.
Proof.
  assert (Hnodup : NoDup (values_of sample_tracks))
    by (vm_compute; repeat constructor; simpl; intuition discriminate).
  split; [exact Hnodup|].
  apply (proj2 (proj2 (split_changes_the_dicts_of_tracks
                         unit sample_store sample_tracks Hnodup)) 3%nat).
  - vm_compute. auto.
  - discriminate.
Defined.

End SplitterFacts.

(** * Properties of the serialization *)

Module SerializeFacts.
Import Preprocess PreprocessSamples GroupingSpec Serialize.

Lemma find_app {A : Type} (p : A -> bool) (l1 l2 : list A) :
  find p (l1 ++ l2)
  = match find p l1 with Some x => Some x | None => find p l2 end.
Proof.
  induction l1 as [|x l1 IH]; [reflexivity|].
  simpl. destruct (p x); [reflexivity|exact IH].
Qed.

Section ToDictFacts.

Variable timestamp : datetime -> Q.

Local Abbreviation entry :=
  (fun f : Frame => (frame f, Frame_to_dict timestamp f)).
Local Abbreviation step :=
  (fun (d : list (Z * FrameDict)) (f : Frame) =>
     dict_set Z.eqb (frame f) (Frame_to_dict timestamp f) d).

Lemma to_dict_fold_get (frames : list Frame) (n : Z) :
  forall d,
    dict_get Z.eqb n (fold_left step frames d)
    = match last_with_number n frames with
      | Some f => Some (Frame_to_dict timestamp f)
      | None => dict_get Z.eqb n d
      end.
Proof.
  unfold last_with_number.
  induction frames as [|f frames IH]; intros d; [reflexivity|].
  cbn [fold_left rev]. rewrite IH, find_app. cbn [find].
  destruct (find (fun f0 => frame f0 =? n) (rev frames)); [reflexivity|].
  rewrite dict_get_set. destruct (frame f =? n); reflexivity.
Qed.

Lemma to_dict_fold_fresh (frames : list Frame) :
  forall d,
    NoDup (map fst d ++ map frame frames) ->
    fold_left step frames d = d ++ map entry frames.
Proof.
  induction frames as [|f frames IH]; intros d Hnd;
    [simpl; now rewrite app_nil_r|].
  cbn [fold_left map]. rewrite dict_set_fresh.
  - rewrite IH.
    + rewrite <- app_assoc. reflexivity.
    + rewrite map_app. cbn [map fst]. rewrite <- app_assoc. exact Hnd.
  - cbn [map] in Hnd. apply NoDup_remove_2 in Hnd. intros H. apply Hnd.
    apply in_or_app. now left.
Qed.

(** X13: in the dict [FrameGroup.to_dict] builds, the entry of a frame
    number is the dict of the last frame of the group with that number:
    a frame that shares its number with a later frame is not in the dict,
    and a number no frame has is no key. *)
Theorem to_dict_keeps_last_frame_of_a_number (g : FrameGroup.t) (n : Z) :
  dict_get Z.eqb n (FrameGroup_to_dict timestamp g)
  = option_map (Frame_to_dict timestamp)
               (last_with_number n (FrameGroup.frames g)).
Proof.
  unfold FrameGroup_to_dict. rewrite to_dict_fold_get.
  destruct (last_with_number n (FrameGroup.frames g)); reflexivity.
Qed.

(** X14: when the frame numbers of a group are distinct, the dict
    [FrameGroup.to_dict] builds has one entry per frame, in the order of the
    frames, each under the number of its frame. *)
Theorem to_dict_one_entry_per_frame (g : FrameGroup.t) :
  NoDup (numbers g) ->
  FrameGroup_to_dict timestamp g = map entry (FrameGroup.frames g)
  /\ List.length (FrameGroup_to_dict timestamp g)
     = List.length (FrameGroup.frames g)
  /\ map fst (FrameGroup_to_dict timestamp g) = numbers g.
Proof.
  intros Hnd. unfold FrameGroup_to_dict.
  rewrite to_dict_fold_fresh by exact Hnd. cbn [app].
  split; [reflexivity|]. split; [apply length_map|].
  unfold numbers. rewrite map_map. reflexivity.
Qed.

End ToDictFacts.

Lemma to_dict_one_entry_per_frame_witness :
  NoDup (numbers group_b)
  /\ map fst (FrameGroup_to_dict timestamp_seconds group_b) = [1; 2; 3].
Proof.
  assert (H : NoDup (numbers group_b)).
  { unfold numbers. simpl. repeat constructor; simpl; intuition lia. }
  split; [exact H|].
  exact (proj2 (proj2 (to_dict_one_entry_per_frame timestamp_seconds group_b H))).
Defined.

Section ReadBackFacts.

Variable RawValue : Type.
Variable float : RawValue -> result Q.
Variable of_float : Q -> RawValue.

(** X15: reading back with [DetectionParser.convert] the dicts
    [Detection.to_otdet] writes gives the detections again, as long as
    [float] returns a float unchanged. *)
Theorem convert_to_otdet_round_trip (detections : list Detection) :
  (forall q, float (of_float q) = Ok q) ->
  DetectionParser_convert RawValue float
    (map (fun d => raw_of_otdet RawValue of_float (to_otdet d)) detections)
  = Ok detections.
Proof.
  intros Hfloat. unfold DetectionParser_convert.
  induction detections as [|d detections IH]; [reflexivity|].
  cbn [map map_result]. rewrite IH.
  unfold convert_detection, raw_of_otdet, to_otdet.
  cbn [raw_confidence raw_x raw_y raw_w raw_h raw_class otdet_class
       otdet_confidence otdet_x otdet_y otdet_w otdet_h].
  rewrite !Hfloat. cbn [bind]. destruct d. reflexivity.
Qed.

End ReadBackFacts.

Lemma convert_to_otdet_round_trip_witness :
  DetectionParser_convert Q (fun q => Ok q)
    (map (fun d => raw_of_otdet Q (fun q => q) (to_otdet d))
         [mkDetection "car"%string (9 # 10) 1 2 3 4])
  = Ok [mkDetection "car"%string (9 # 10) 1 2 3 4].
Proof.
  apply (convert_to_otdet_round_trip Q (fun q => Ok q) (fun q => q)).
  reflexivity.
Defined.

End SerializeFacts.

(** * Further properties of track/iou.py *)

Module IouMoreFacts.
Import Iou IouSpec IouMoreSpec IouFacts IouSamples.
Local Open Scope Z_scope.

Section MoreTrackerFacts.

Variable iou : BBox -> BBox -> Q.
Variables sigma_l sigma_h sigma_iou : Q.
Variables t_min t_miss_max : Z.

Local Abbreviation track_body :=
  (Iou.track_body iou sigma_h sigma_iou t_min t_miss_max).
Local Abbreviation frame_body :=
  (Iou.frame_body iou sigma_l sigma_h sigma_iou t_min t_miss_max).
Local Abbreviation run_frames :=
  (Iou.run_frames iou sigma_l sigma_h sigma_iou t_min t_miss_max).
Local Abbreviation track_iou :=
  (Iou.track_iou iou sigma_l sigma_h sigma_iou t_min t_miss_max).
Local Abbreviation outcome := (IouSpec.outcome sigma_h t_min t_miss_max).
Local Abbreviation qualifies := (IouSpec.qualifies sigma_h t_min).

Local Abbreviation cases :=
  (IouFacts.track_body_cases iou sigma_h sigma_iou t_min t_miss_max).
Local Abbreviation step_pool :=
  (IouFacts.frame_step_pool iou sigma_l sigma_h sigma_iou t_min t_miss_max).
Local Abbreviation body_inv :=
  (IouFacts.frame_body_inv iou sigma_l sigma_h sigma_iou t_min t_miss_max).
Local Abbreviation reach_inv :=
  (IouFacts.run_frames_pool_inv iou sigma_l sigma_h sigma_iou t_min t_miss_max).
Local Abbreviation result_inv :=
  (IouFacts.track_iou_inv iou sigma_l sigma_h sigma_iou t_min t_miss_max).

(** The features a frame adds carry distinct identifiers, all of tracks of
    the pool. *)
Lemma loop_feature_ids (frame_num : Z) (detections_frame : list Det.t)
  (st : State) (loc : Locals) :
  NoDup (ids (tracks_active st)) ->
  for_each (track_body frame_num) (start_locals sigma_l st detections_frame)
           (tracks_active st) = Ok loc ->
  exists nf,
    geojson loc = tracks_geojson st ++ nf
    /\ incl (map Feature.ID nf) (ids (tracks_active st))
    /\ NoDup (map Feature.ID nf).
Proof.
  intros Hnd Hrun.
  refine (for_each_invariant (track_body frame_num)
            (fun pre l => exists nf,
                 geojson l = tracks_geojson st ++ nf
                 /\ incl (map Feature.ID nf) (ids pre)
                 /\ NoDup (map Feature.ID nf))
            (tracks_active st) _ _ loc _ Hrun).
  - intros pre x post l l' Hwhole (nf & Hg & Hincl & Hnf) Hbody.
    assert (Hx : ~ In (Track.vehID x) (ids pre)).
    { rewrite Hwhole in Hnd. unfold ids in Hnd. rewrite map_app in Hnd.
      simpl in Hnd. apply NoDup_remove_2 in Hnd. intros H. apply Hnd.
      apply in_or_app. now left. }
    assert (Hmono : incl (map Feature.ID nf) (ids (pre ++ [x]))).
    { intros i Hi. rewrite ids_app. apply in_or_app. left. now apply Hincl. }
    destruct (cases _ _ _ _ Hbody)
      as [best dets' Hbest Hdel|Hage|feature Hage Hc Hmk|Hage Hc];
      cbn [geojson bind_loop_track]; try solve [exists nf; auto].
    exists (nf ++ [feature]). split; [rewrite Hg; symmetry; apply app_assoc|].
    rewrite map_app. cbn [map]. rewrite (make_feature_ID _ _ Hmk). split.
    + intros i Hi. apply in_app_or in Hi. destruct Hi as [Hi|[<-|[]]];
        [now apply Hmono|].
      rewrite ids_app. apply in_or_app. right. now left.
    + apply NoDup_app; [exact Hnf|constructor; [intros []|constructor]|].
      intros i Hi [<-|[]]. apply Hx, Hincl, Hi.
  - exists []. rewrite app_nil_r. repeat split; [intros i []|constructor].
Qed.

Lemma run_feature_ids (l : list (Z * list Det.t)) :
  forall st st',
    pool_inv st ->
    NoDup (map Feature.ID (tracks_geojson st)) ->
    for_each frame_body st l = Ok st' ->
    NoDup (map Feature.ID (tracks_geojson st')).
Proof.
  induction l as [|[frame_num df] l IH]; intros st st' Hinv Hnd Hrun.
  - injection Hrun as <-. exact Hnd.
  - cbn [for_each] in Hrun.
    destruct (frame_body st (frame_num, df)) as [st1|] eqn:E; [|discriminate].
    cbn [bind] in Hrun.
    destruct (step_pool _ _ _ Hinv E) as (Hinv1 & _).
    apply (IH st1 st' Hinv1); [|exact Hrun].
    destruct (body_inv _ _ _ _ E) as (loc & Hloop & ->).
    cbn [tracks_geojson].
    destruct Hinv as (_ & Hpool & _ & Hfeat).
    destruct (loop_feature_ids _ _ _ _ Hpool Hloop) as (nf & -> & Hincl & Hnf).
    rewrite map_app. apply NoDup_app; [exact Hnd|exact Hnf|].
    intros i Hi Hi'. apply in_map_iff in Hi. destruct Hi as (f & <- & Hf).
    destruct (Hfeat f Hf) as [_ Hn]. apply Hn, Hincl, Hi'.
Qed.

Lemma remaining_features_ids (tracks : list Track.t) (rest : list Feature.t) :
  remaining_features sigma_h t_min tracks = Ok rest ->
  NoDup (ids tracks) ->
  NoDup (map Feature.ID rest) /\ incl (map Feature.ID rest) (ids tracks).
Proof.
  revert rest. induction tracks as [|trk tracks IH]; intros rest Hrest Hnd.
  - injection Hrest as <-. split; [constructor|intros i []].
  - cbn [remaining_features] in Hrest. inversion Hnd as [|? ? Hnotin Hnd']; subst.
    destruct (finish_condition sigma_h t_min trk) as [[|]|];
      cbn [bind] in Hrest; [| |discriminate].
    + destruct (make_feature trk) as [f|] eqn:Emk; cbn [bind] in Hrest;
        [|discriminate].
      destruct (remaining_features sigma_h t_min tracks) as [fs|];
        cbn [bind] in Hrest; [|discriminate].
      injection Hrest as <-. destruct (IH fs eq_refl Hnd') as [H1 H2].
      cbn [map]. rewrite (make_feature_ID _ _ Emk). split.
      * constructor; [|exact H1]. intros Hi. apply Hnotin, H2, Hi.
      * intros i [<-|Hi]; [now left|right; now apply H2].
    + destruct (IH rest Hrest Hnd') as [H1 H2]. split; [exact H1|].
      intros i Hi. right. now apply H2.
Qed.

Lemma set_max_class_ids (trk : option Track.t) (fs fs' : list Feature.t) :
  Forall2 (fun f f' => set_max_class trk f = Ok f') fs fs' ->
  map Feature.ID fs' = map Feature.ID fs.
Proof.
  induction 1 as [|f f' fs fs' Hf _ IH]; [reflexivity|].
  cbn [map]. rewrite IH. f_equal.
  now destruct (set_max_class_keeps _ _ _ Hf).
Qed.

(** X16: the features [track_iou] returns carry pairwise distinct track
    identifiers: no track is emitted twice. *)
Theorem features_have_distinct_ids
  (detections : list (Z * list Det.t))
  (nd : list (Z * list (Z * Annotated.t))) (features : list Feature.t)
  (fin : list Z) :
  track_iou detections = Ok (nd, features, fin) ->
  NoDup (map Feature.ID features).
Proof.
  intros Hret.
  destruct (result_inv _ _ _ _ Hret) as (st & rest & Hrun & Hrest & Hmap & _).
  rewrite (set_max_class_ids _ _ _ Hmap), map_app.
  pose proof (reach_inv _ _ Hrun) as Hinv.
  assert (Hold : NoDup (map Feature.ID (tracks_geojson st))).
  { apply (run_feature_ids detections initial_state st);
      [apply initial_pool_inv|constructor|exact Hrun]. }
  destruct Hinv as (_ & Hpool & _ & Hfeat).
  destruct (remaining_features_ids _ _ Hrest Hpool) as [Hnew Hincl].
  apply NoDup_app; [exact Hold|exact Hnew|].
  intros i Hi Hi'. apply in_map_iff in Hi. destruct Hi as (f & <- & Hf).
  destruct (Hfeat f Hf) as [_ Hn]. apply Hn, Hincl, Hi'.
Qed.



Lemma no_eligible_filter (item : Z * list Det.t) :
  filter (fun det => Qge_bool (Det.conf det) sigma_l) (snd item) = []
  <-> no_eligible sigma_l item.
Proof.
  unfold no_eligible. induction (snd item) as [|d l IH]; cbn [filter].
  - split; [intros _ d []|reflexivity].
  - unfold Qge_bool at 1. destruct (Qle_bool sigma_l (Det.conf d)) eqn:E.
    + split; [discriminate|]. intros H. exfalso.
      apply Qle_bool_iff in E. apply (Qlt_not_le _ _ (H d (or_introl eq_refl)) E).
    + rewrite IH. split.
      * intros H d' [<-|Hd']; [|now apply H].
        apply Qnot_le_lt. intros Hle. apply Qle_bool_iff in Hle. congruence.
      * intros H d' Hd'. apply H. now right.
Qed.

Lemma loop_binds_track (frame_num : Z) (tracks : list Track.t)
  (loc loc' : Locals) :
  for_each (track_body frame_num) loc tracks = Ok loc' ->
  tracks <> [] \/ loop_track loc <> None ->
  loop_track loc' <> None.
Proof.
  intros Hrun.
  refine (for_each_invariant (track_body frame_num)
            (fun pre l => pre <> [] \/ loop_track loc <> None ->
                          loop_track l <> None)
            tracks _ loc loc' _ Hrun).
  - intros pre x post l l' _ _ Hbody _.
    destruct (cases _ _ _ _ Hbody)
      as [best dets' Hbest Hdel|Hage|feature Hage Hc Hmk|Hage Hc];
      cbn [loop_track bind_loop_track]; discriminate.
  - intros [H|H]; [congruence|exact H].
Qed.

Lemma frame_empty_pool (st st' : State) (frame_num : Z) (df : list Det.t) :
  tracks_active st = [] ->
  frame_body st (frame_num, df) = Ok st' ->
  tracks_active st'
  = fresh_tracks frame_num (vehID st)
      (filter (fun det => Qge_bool (Det.conf det) sigma_l) df)
  /\ tracks_geojson st' = tracks_geojson st
  /\ track st' = track st.
Proof.
  intros Hpool Hbody. destruct (body_inv _ _ _ _ Hbody) as (loc & Hloop & ->).
  rewrite Hpool in Hloop. injection Hloop as <-.
  cbn [tracks_active tracks_geojson track start_locals updated_tracks
       saved_tracks dets geojson loop_track app]. auto.
Qed.

Lemma frame_track_bound (st st' : State) (item : Z * list Det.t) :
  frame_body st item = Ok st' ->
  tracks_active st <> [] \/ track st <> None ->
  track st' <> None.
Proof.
  intros Hbody H. destruct item as [frame_num df].
  destruct (body_inv _ _ _ _ Hbody) as (loc & Hloop & ->). cbn [track].
  apply (loop_binds_track _ _ _ _ Hloop). exact H.
Qed.

Lemma run_track_bound (l : list (Z * list Det.t)) :
  forall st st',
    for_each frame_body st l = Ok st' -> track st <> None -> track st' <> None.
Proof.
  induction l as [|item l IH]; intros st st' Hrun Hb.
  - now injection Hrun as <-.
  - simpl in Hrun. destruct (frame_body st item) as [s1|] eqn:E; [|discriminate].
    cbn [bind] in Hrun. apply (IH s1 st' Hrun).
    apply (frame_track_bound _ _ _ E). now right.
Qed.

Lemma fresh_tracks_nil (frame_num id : Z) (ds : list Det.t) :
  fresh_tracks frame_num id ds = [] <-> ds = [].
Proof. destruct ds; simpl; split; congruence. Qed.

Lemma fresh_tracks_of (frame_num : Z) (ds : list Det.t) (d : Det.t) :
  forall id, In d ds ->
             exists i, In (new_track frame_num i d) (fresh_tracks frame_num id ds).
Proof.
  induction ds as [|d' ds IH]; intros id Hd; [destruct Hd|].
  destruct Hd as [->|Hd].
  - exists (id + 1). now left.
  - destruct (IH (id + 1) Hd) as [i Hi]. exists i. now right.
Qed.

(** Until a frame starts with a track in the pool, the loop variable [track]
    stays unbound and no feature is added. *)
Lemma run_unbound (l : list (Z * list Det.t)) :
  forall st st',
    tracks_active st = [] -> track st = None -> tracks_geojson st = [] ->
    for_each frame_body st l = Ok st' ->
    (track st' = None <->
     forall item, In item (removelast l) -> no_eligible sigma_l item)
    /\ (track st' = None ->
        tracks_geojson st' = []
        /\ (l = [] /\ tracks_active st' = []
            \/ exists pre frame_num df id,
                 l = pre ++ [(frame_num, df)]
                 /\ tracks_active st'
                    = fresh_tracks frame_num id
                        (filter (fun det => Qge_bool (Det.conf det) sigma_l)
                                df))).
Proof.
  induction l as [|[frame_num df] l IH]; intros st st' Hpool Htr Hg Hrun.
  - injection Hrun as <-. split; [split; [intros _ item []|auto]|auto].
  - cbn [for_each] in Hrun.
    destruct (frame_body st (frame_num, df)) as [s1|] eqn:E; [|discriminate].
    cbn [bind] in Hrun.
    destruct (frame_empty_pool _ _ _ _ Hpool E) as (Hp1 & Hg1 & Ht1).
    rewrite Hg in Hg1. rewrite Htr in Ht1.
    destruct l as [|item2 l].
    + injection Hrun as <-. split; [split; [intros _ item []|auto]|].
      intros _. split; [exact Hg1|]. right.
      exists [], frame_num, df, (vehID st). auto.
    + change (removelast ((frame_num, df) :: item2 :: l))
        with ((frame_num, df) :: removelast (item2 :: l)).
      destruct (filter (fun det => Qge_bool (Det.conf det) sigma_l) df)
        as [|d0 ds] eqn:Ef.
      * cbn [fresh_tracks] in Hp1.
        destruct (IH s1 st' Hp1 Ht1 Hg1 Hrun) as [[H1 H2] H3].
        split; [split|].
        -- intros Hnone item [<-|Hi]; [now apply no_eligible_filter|].
           now apply H1.
        -- intros H. apply H2. intros item Hi. apply H. now right.
        -- intros Hnone. destruct (H3 Hnone) as [Hgf Hcase].
           split; [exact Hgf|]. right.
           destruct Hcase as [[Hnil _]|(pre & fn & df' & id & Hl & Hact)];
             [discriminate|].
           exists ((frame_num, df) :: pre), fn, df', id. rewrite Hl. auto.
      * assert (Hbound : track st' <> None).
        { cbn [for_each] in Hrun.
          destruct (frame_body s1 item2) as [s2|] eqn:E2; [|discriminate].
          cbn [bind] in Hrun. apply (run_track_bound _ _ _ Hrun).
          apply (frame_track_bound _ _ _ E2). left. rewrite Hp1. discriminate. }
        split; [split|]; try (intros H; contradiction).
        intros H. exfalso.
        assert (Hno : no_eligible sigma_l (frame_num, df))
          by (apply H; now left).
        apply no_eligible_filter in Hno. cbn [snd] in Hno. congruence.
Qed.

(** X19: [track_iou] raises [UnboundLocalError] exactly when no frame before
    the last has an eligible detection (one with confidence at least
    [sigma_l]), the last frame has one with confidence at least [sigma_h],
    and [t_min <= 0]: the loop over the active tracks never ran and a track
    started in the last frame is to be emitted.  For every other input it
    returns. *)
Theorem track_iou_raises_exactly_when (detections : list (Z * list Det.t)) :
  (track_iou detections = Raise UnboundLocalError <->
   exists pre frame_num df d,
     detections = pre ++ [(frame_num, df)]
     /\ (forall item, In item pre -> no_eligible sigma_l item)
     /\ In d df
     /\ (sigma_l <= Det.conf d)%Q
     /\ (sigma_h <= Det.conf d)%Q
     /\ t_min <= 0)
  /\ ((exists r, track_iou detections = Ok r)
      \/ track_iou detections = Raise UnboundLocalError).
Proof.
  split;
    [|apply (track_iou_returns_or_unbound iou sigma_l sigma_h sigma_iou
               t_min t_miss_max)].
  destruct (run_frames_total iou sigma_l sigma_h sigma_iou t_min t_miss_max
              detections) as [st Hrun].
  pose proof (reach_inv _ _ Hrun) as (Hwf & _).
  destruct (remaining_features_total sigma_h t_min _ Hwf) as [rest Hrest].
  destruct (remaining_features_spec sigma_h t_min _ _ Hrest) as [Hr1 Hr2].
  destruct (run_unbound detections initial_state st eq_refl eq_refl eq_refl Hrun)
    as [[Hu1 Hu2] Hu3].
  assert (Hcall : track_iou detections
                  = bind (map_result (set_max_class (track st))
                                     (tracks_geojson st ++ rest))
                         (fun features =>
                            Ok (annotate (vehIDs_finished st)
                                         (new_detections st),
                                features, vehIDs_finished st))).
  { unfold Iou.track_iou. rewrite Hrun. cbn [bind]. rewrite Hrest.
    reflexivity. }
  split.
  - intros Hraise. rewrite Hcall in Hraise.
    destruct (track st) as [tr|] eqn:Etr.
    + exfalso.
      destruct (run_total iou sigma_l sigma_h sigma_iou t_min t_miss_max
                  detections initial_state initial_pool_inv)
        as (st2 & Hrun2 & Hwf2); [discriminate|].
      assert (st2 = st) as -> by (unfold Iou.run_frames in Hrun; congruence).
      pose proof (set_max_class_all (Some tr) (tracks_geojson st ++ rest)) as H.
      cbn beta iota in H. destruct (H (Hwf2 tr Etr)) as [fs Hfs].
      rewrite Hfs in Hraise. discriminate.
    + destruct (Hu3 eq_refl) as [Hg Hcase]. rewrite Hg in Hraise.
      cbn [app] in Hraise.
      destruct rest as [|f rest']; [discriminate|].
      destruct (Hr1 f (or_introl eq_refl)) as (t & Ht & _ & Hq).
      destruct Hcase as [[_ Hnil]|(pre & fn & df & id & Hl & Hact)];
        [rewrite Hnil in Ht; destruct Ht|].
      rewrite Hact in Ht. apply fresh_tracks_In in Ht.
      destruct Ht as (i & d & Hd & ->). apply filter_sigma_l in Hd.
      destruct Hd as [Hd1 Hd2]. destruct Hq as [Hq1 Hq2].
      unfold frame_span in Hq2. cbn in Hq1, Hq2.
      exists pre, fn, df, d. split; [exact Hl|]. split.
      { intros item Hi. apply Hu1; [reflexivity|].
        rewrite Hl, removelast_last. exact Hi. }
      repeat split; auto. lia.
  - intros (pre & fn & df & d & Hl & Hpre & Hd & Hsl & Hsh & Ht).
    assert (Hnone : track st = None).
    { apply Hu2. intros item Hi. apply Hpre.
      rewrite Hl, removelast_last in Hi. exact Hi. }
    destruct (Hu3 Hnone) as [Hg Hcase].
    destruct Hcase as [[Hnil _]|(pre' & fn' & df' & id & Hl' & Hact)].
    { rewrite Hnil in Hl. destruct pre; discriminate. }
    rewrite Hl in Hl'. apply app_inj_tail in Hl'.
    destruct Hl' as [<- Heq]. injection Heq as <- <-.
    assert (Hin : In d (filter (fun det => Qge_bool (Det.conf det) sigma_l) df)).
    { apply filter_In. split; [exact Hd|]. now apply Qle_bool_iff. }
    destruct (fresh_tracks_of fn _ d id Hin) as [i Hi].
    rewrite <- Hact in Hi.
    destruct (Hr2 _ Hi) as (f & Hf & _).
    { split; [exact Hsh|]. unfold frame_span. cbn. lia. }
    rewrite Hcall, Hnone, Hg. cbn [app].
    destruct rest as [|f0 rest']; [destruct Hf|]. reflexivity.
Qed.

(** X20: with [t_min > 0], [track_iou] returns for every input. *)
Theorem track_iou_returns_when_t_min_positive
  (detections : list (Z * list Det.t)) :
  0 < t_min -> exists r, track_iou detections = Ok r.
Proof.
  intros Hpos.
  destruct (track_iou_raises_exactly_when detections) as [Hiff [Hok|Hraise]];
    [exact Hok|].
  apply Hiff in Hraise. destruct Hraise as (_ & _ & _ & _ & _ & _ & _ & _ & _ & H).
  lia.
Qed.

Lemma Qgt_bool_true (a b : Q) : Qgt_bool a b = true -> (b < a)%Q.
Proof.
  unfold Qgt_bool. intros H. apply negb_true_iff in H.
  apply Qnot_le_lt. intros Hle. apply Qle_bool_iff in Hle. congruence.
Qed.

Lemma Qgt_bool_false (a b : Q) : Qgt_bool a b = false -> (a <= b)%Q.
Proof.
  unfold Qgt_bool. intros H. apply negb_false_iff in H. now apply Qle_bool_iff.
Qed.

Lemma max_by_max {A : Type} (key : A -> Q) (l : list A) :
  forall best x, In x (best :: l) -> (key x <= key (max_by key best l))%Q.
Proof.
  induction l as [|y l IH]; intros best x Hx.
  - destruct Hx as [<-|[]]. apply Qle_refl.
  - cbn [max_by].
    assert (Hb : (key best <= key (if Qgt_bool (key y) (key best) then y
                                    else best))%Q
                 /\ (key y <= key (if Qgt_bool (key y) (key best) then y
                                   else best))%Q).
    { destruct (Qgt_bool (key y) (key best)) eqn:E.
      - split; [apply Qlt_le_weak; now apply Qgt_bool_true|apply Qle_refl].
      - split; [apply Qle_refl|now apply Qgt_bool_false]. }
    destruct Hb as [Hb1 Hb2].
    destruct Hx as [<-|[<-|Hx]].
    + eapply Qle_trans; [exact Hb1|]. apply IH. now left.
    + eapply Qle_trans; [exact Hb2|]. apply IH. now left.
    + apply IH. now right.
Qed.

Lemma age_or_finish_keeps (l l2 : Locals) (trk t2 : Track.t) :
  age_or_finish sigma_h t_min t_miss_max l trk = Ok (t2, l2) ->
  dets l2 = dets l /\ updated_tracks l2 = updated_tracks l /\ out l2 = out l.
Proof.
  unfold age_or_finish. destruct (Track.age trk <? t_miss_max).
  - intros [= <- <-]. auto.
  - destruct (finish_condition sigma_h t_min trk) as [[|]|]; cbn [bind];
      [| |discriminate].
    + destruct (make_feature trk); cbn [bind]; [|discriminate].
      intros [= <- <-]. auto.
    + intros [= <- <-]. auto.
Qed.

(** X21: in its iteration a track either takes a detection or takes none.
    It takes one exactly when some detection still unmatched overlaps its
    last box with an IoU of at least [sigma_iou]; the one it takes has the
    highest IoU of all unmatched detections and leaves the unmatched
    detections; the track appended to [updated_tracks] has the frame
    number and the box, centre, confidence and class of that detection at
    the end of its histories, the larger of the two confidences as
    [max_conf], age 0 and its other keys unchanged; and the detection is
    put in the output of the frame under the identifier of the track.
    Otherwise every unmatched detection has an IoU below [sigma_iou], and
    the unmatched detections, the updated tracks and the output of the
    frame stay as they are. *)
Theorem track_takes_best_overlap
  (frame_num : Z) (loc loc' : Locals) (trk : Track.t) (last_bbox : BBox) :
  track_body frame_num loc trk = Ok loc' ->
  list_last (Track.bboxes trk) = Ok last_bbox ->
  (exists best_match dets',
      In best_match (dets loc)
      /\ (forall d, In d (dets loc) ->
            (iou last_bbox (make_bbox d)
             <= iou last_bbox (make_bbox best_match))%Q)
      /\ (sigma_iou <= iou last_bbox (make_bbox best_match))%Q
      /\ Permutation (dets loc) (best_match :: dets')
      /\ dets loc' = dets'
      /\ (exists trk',
            updated_tracks loc' = updated_tracks loc ++ [trk']
            /\ records frame_num best_match trk trk')
      /\ out loc'
         = dict_set Z.eqb (Track.vehID trk) (best_match, false) (out loc))
  \/ ((forall d, In d (dets loc) ->
         (iou last_bbox (make_bbox d) < sigma_iou)%Q)
      /\ dets loc' = dets loc
      /\ updated_tracks loc' = updated_tracks loc
      /\ out loc' = out loc).
Proof.
  intros Hbody Hbb. unfold Iou.track_body, try_match, best_match_of in Hbody.
  assert (Hrest : forall l,
             bind (age_or_finish sigma_h t_min t_miss_max l trk)
                  (fun x => let '(trk2, loc2) := x in
                            Ok (bind_loop_track trk2 loc2)) = Ok loc' ->
             dets loc' = dets l /\ updated_tracks loc' = updated_tracks l
             /\ out loc' = out l).
  { intros l H.
    destruct (age_or_finish sigma_h t_min t_miss_max l trk) as [[t2 l2]|] eqn:E;
      [|discriminate].
    cbn [bind] in H. injection H as <-.
    destruct (age_or_finish_keeps _ _ _ _ E) as (H1 & H2 & H3). auto. }
  destruct (dets loc) as [|d0 ds] eqn:Ed.
  - right. cbn [bind] in Hbody. destruct (Hrest loc Hbody) as (H1 & H2 & H3).
    rewrite Ed in H1. split; [intros d []|auto].
  - rewrite <- Ed in Hbody. rewrite Hbb in Hbody. cbn [bind] in Hbody.
    pose proof (max_by_max (fun x => iou last_bbox (make_bbox x)) ds d0) as Hmax.
    pose proof (max_by_In (fun x => iou last_bbox (make_bbox x)) ds d0) as Hin.
    set (best := max_by (fun x => iou last_bbox (make_bbox x)) d0 ds) in *.
    destruct (Qge_bool (iou last_bbox (make_bbox best)) sigma_iou) eqn:Eq.
    + left. destruct (del_first best (dets loc)) as [dets'|] eqn:Edel;
        cbn [bind] in Hbody; [|discriminate].
      injection Hbody as <-. exists best, dets'.
      cbn [dets updated_tracks out bind_loop_track].
      split; [exact Hin|]. split; [exact Hmax|].
      split; [now apply Qle_bool_iff|].
      split; [rewrite <- Ed; now apply del_first_perm|].
      split; [reflexivity|]. split; [|reflexivity].
      exists (update_track frame_num trk best).
      split; [reflexivity|apply update_track_records].
    + right. cbn [bind] in Hbody. destruct (Hrest loc Hbody) as (H1 & H2 & H3).
      rewrite Ed in H1. split; [|auto]. intros d Hd.
      eapply Qle_lt_trans; [apply (Hmax d Hd)|].
      apply Qnot_le_lt. intros Hle. apply Qle_bool_iff in Hle.
      unfold Qge_bool in Eq. congruence.
Qed.


Lemma py_max_spec (a b : Q) :
  (py_max a b = a \/ py_max a b = b)
  /\ (a <= py_max a b)%Q /\ (b <= py_max a b)%Q.
Proof.
  unfold py_max. destruct (Qgt_bool b a) eqn:E.
  - split; [now right|]. split; [|apply Qle_refl].
    apply Qlt_le_weak. now apply Qgt_bool_true.
  - split; [now left|]. split; [apply Qle_refl|]. now apply Qgt_bool_false.
Qed.

Lemma hd_error_app_nonempty {A : Type} (l1 l2 : list A) (x : A) :
  List.hd_error l1 = Some x -> List.hd_error (l1 ++ l2) = Some x.
Proof. destruct l1; [discriminate|exact (fun H => H)]. Qed.

(** X23: after any number of frames, every track of the active pool has one
    box, one centre, one confidence and one class per recorded frame; its
    [max_conf] is one of its recorded confidences and none is larger; its
    [start_frame] is its first recorded frame and its [max_class] the class
    of its first detection. *)
Theorem active_tracks_are_consistent
  (detections : list (Z * list Det.t)) (st : State) :
  run_frames detections = Ok st ->
  forall t, In t (tracks_active st) -> consistent t.
Proof.
  intros Hrun.
  assert (H : Forall consistent (tracks_active st)
              /\ Forall (fun fo => Forall (fun e => True) (snd fo))
                        (new_detections st)).
  { apply (run_forall iou sigma_l sigma_h sigma_iou t_min t_miss_max
             consistent (fun _ => True))
      with (detections := detections) (st := initial_state).
    - intros frame_num t d (H1 & H2 & H3 & H4 & H5 & H6 & H7 & H8) _.
      unfold consistent. cbn [update_track Track.frames Track.bboxes
        Track.center Track.conf Track.class Track.max_conf Track.start_frame
        Track.max_class].
      rewrite !length_app. cbn [List.length].
      destruct (py_max_spec (Track.max_conf t) (Det.conf d))
        as ([Hm|Hm] & Hm1 & Hm2); rewrite ?Hm in *;
        (repeat split; try lia;
         [apply in_or_app; auto; right; now left
         |apply Forall_app; split;
          [apply Forall_forall; intros c Hc; rewrite Forall_forall in H6;
           eapply Qle_trans; [apply (H6 c Hc)|exact Hm1 || apply Qle_refl]
          |constructor; [exact Hm2 || apply Qle_refl|constructor]]
         |now apply hd_error_app_nonempty
         |now apply hd_error_app_nonempty]).
    - intros t Ht _. exact Ht.
    - intros frame_num id d _. unfold consistent. simpl.
      repeat split; auto. constructor; [apply Qle_refl|constructor].
    - auto.
    - constructor.
    - constructor.
    - exact Hrun. }
  destruct H as [H _]. intros t Ht. rewrite Forall_forall in H. apply (H t Ht).
Qed.

(** X24: when the frame numbers of the input are strictly increasing, the
    frames a track of the active pool has recorded are strictly increasing
    frame numbers of the input handled so far, so that its last frame number
    minus its first is never negative. *)
Theorem track_frames_increase
  (detections : list (Z * list Det.t)) (st : State) :
  StronglySorted Z.lt (map fst detections) ->
  run_frames detections = Ok st ->
  forall t, In t (tracks_active st) ->
    StronglySorted Z.lt (Track.frames t)
    /\ incl (Track.frames t) (map fst detections)
    /\ 0 <= frame_span t.
Proof.
  intros Hkeys Hrun.
  assert (H : forall t, In t (tracks_active st) ->
                StronglySorted Z.lt (Track.frames t)
                /\ incl (Track.frames t) (map fst detections)).
  { refine (for_each_invariant frame_body
              (fun pre s => forall t, In t (tracks_active s) ->
                   StronglySorted Z.lt (Track.frames t)
                   /\ incl (Track.frames t) (map fst pre))
              detections _ initial_state st _ Hrun); [|intros t []].
    intros pre [frame_num df] post s s' Hwhole HP Hbody.
    assert (Hnew : forall n, In n (map fst pre) -> n < frame_num).
    { intros n Hn. rewrite Hwhole, map_app in Hkeys. cbn [map fst] in Hkeys.
      apply (StronglySorted_app_inv _ (map fst pre) (map fst post) frame_num
               Hkeys n Hn). }
    assert (Hgrow : forall l, incl l (map fst pre) ->
                              incl l (map fst (pre ++ [(frame_num, df)]))).
    { intros l Hl n Hn. rewrite map_app. apply in_or_app. left. now apply Hl. }
    destruct (body_inv _ _ _ _ Hbody) as (loc & Hloop & ->).
    cbn [tracks_active].
    assert (Hkept : Forall
              (fun t => StronglySorted Z.lt (Track.frames t)
                        /\ incl (Track.frames t)
                                (map fst (pre ++ [(frame_num, df)])))
              (updated_tracks loc ++ saved_tracks loc)).
    { refine (for_each_invariant (track_body frame_num)
                (fun _ l => Forall _ (updated_tracks l ++ saved_tracks l))
                (tracks_active s) _ _ loc _ Hloop); [|constructor].
      intros tpre x tpost l l' Hw HF Hb.
      assert (Hx : In x (tracks_active s))
        by (rewrite Hw; apply in_or_app; right; now left).
      destruct (HP x Hx) as [Hxs Hxi].
      rewrite Forall_app in HF. destruct HF as [HFu HFs].
      destruct (cases _ _ _ _ Hb)
        as [best dets' Hbest Hdel|Hage|feature Hage Hc Hmk|Hage Hc];
        cbn [updated_tracks saved_tracks bind_loop_track];
        rewrite ?Forall_app; repeat split; auto;
        try solve [constructor; [|constructor];
                   cbn [increment_age Track.frames];
                   split; [exact Hxs|exact (Hgrow _ Hxi)]].
      constructor; [|constructor]. cbn [update_track Track.frames]. split.
      - clear - Hxs Hxi Hnew. induction Hxs as [|n l Hs IH Hn].
        + constructor; constructor.
        + cbn [app]. constructor.
          * apply IH. intros m Hm. apply Hxi. now right.
          * apply Forall_app. split; [exact Hn|].
            constructor; [|constructor]. apply Hnew, Hxi. now left.
      - intros n Hn. apply in_app_or in Hn. destruct Hn as [Hn|[<-|[]]].
        + exact (Hgrow _ Hxi n Hn).
        + rewrite map_app. apply in_or_app. right. now left. }
    intros t Ht. rewrite app_assoc in Ht. apply in_app_or in Ht.
    destruct Ht as [Ht|Ht].
    - rewrite Forall_forall in Hkept. now apply Hkept.
    - apply fresh_tracks_In in Ht. destruct Ht as (i & d & _ & ->).
      cbn [new_track Track.frames]. split.
      + constructor; constructor.
      + intros n [<-|[]]. rewrite map_app. apply in_or_app. right. now left. }
  intros t Ht. destruct (H t Ht) as [Hs Hi]. split; [exact Hs|].
  split; [exact Hi|]. unfold frame_span. clear - Hs.
  destruct (Track.frames t) as [|n l]; [simpl; lia|].
  cbn [List.hd]. inversion Hs as [|? ? Hs' Hn]; subst.
  destruct l as [|m l]; [simpl; lia|].
  assert (Hlast : In (List.last (n :: m :: l) 0) (m :: l)).
  { change (List.last (n :: m :: l) 0) with (List.last (m :: l) 0).
    clear. revert m. induction l as [|k l IH]; intros m; [now left|].
    right. apply IH. }
  rewrite Forall_forall in Hn. specialize (Hn _ Hlast). lia.
Qed.

End MoreTrackerFacts.

Lemma features_have_distinct_ids_witness :
  track_iou_sample car_and_truck
  = Ok ([(1, [(1, Annotated.mk car true false);
              (2, Annotated.mk truck true false)]);
         (2, [(1, Annotated.mk car false false);
              (2, Annotated.mk truck false false)])],
        [car_feature "truck"; truck_feature "truck"],
        [])
  /\ NoDup (map Feature.ID [car_feature "truck"; truck_feature "truck"]).
Proof.
  assert (H : track_iou_sample car_and_truck
              = Ok ([(1, [(1, Annotated.mk car true false);
                          (2, Annotated.mk truck true false)]);
                     (2, [(1, Annotated.mk car false false);
                          (2, Annotated.mk truck false false)])],
                    [car_feature "truck"; truck_feature "truck"],
                    [])) by (vm_compute; reflexivity).
  split; [exact H|].
  exact (features_have_distinct_ids Iou.iou (1 # 10) (1 # 2) (3 # 10) 1 1
           car_and_truck _ _ _ H).
Defined.



Lemma track_iou_returns_when_t_min_positive_witness :
  exists r, track_iou_sample [(1, [car])] = Ok r.
Proof.
  apply (track_iou_returns_when_t_min_positive
           Iou.iou (1 # 10) (1 # 2) (3 # 10) 1 1 [(1, [car])]).
  lia.
Defined.

Lemma track_takes_best_overlap_witness :
  exists loc',
    Iou.track_body Iou.iou (1 # 2) (3 # 10) 1 1 2 locals_with_car
                   (new_track 1 1 car) = Ok loc'
    /\ dets loc' = []
    /\ updated_tracks loc' = [car_track].
Proof.
  eexists. split; [vm_compute; reflexivity|].
  destruct (track_takes_best_overlap Iou.iou (1 # 2) (3 # 10) 1 1 2
              locals_with_car
              (mkLocals [] [car_track] [] [(1, (car, false))] [] []
                        (Some car_track))
              (new_track 1 1 car) (make_bbox car))
    as [(b & ds & _)|(Hlow & _)].
  - vm_compute. reflexivity.
  - vm_compute. reflexivity.
  - split; reflexivity.
  - exfalso. specialize (Hlow car (or_introl eq_refl)).
    vm_compute in Hlow. discriminate.
Defined.


Lemma active_tracks_are_consistent_witness :
  run_frames_sample [(1, [car; faint])] = Ok after_car_and_faint
  /\ consistent (new_track 1 1 car).
Proof.
  assert (Hpre : run_frames_sample [(1, [car; faint])] = Ok after_car_and_faint)
    by (vm_compute; reflexivity).
  split; [exact Hpre|].
  apply (active_tracks_are_consistent Iou.iou (1 # 10) (1 # 2) (3 # 10) 1 1
           [(1, [car; faint])] after_car_and_faint Hpre).
  now left.
Defined.

Lemma track_frames_increase_witness :
  StronglySorted Z.lt (map fst [(1, [car; faint])])
  /\ run_frames_sample [(1, [car; faint])] = Ok after_car_and_faint
  /\ 0 <= frame_span (new_track 1 1 car).
Proof.
  assert (Hkeys : StronglySorted Z.lt (map fst [(1, [car; faint])]))
    by (simpl; repeat constructor).
  assert (Hpre : run_frames_sample [(1, [car; faint])] = Ok after_car_and_faint)
    by (vm_compute; reflexivity).
  split; [exact Hkeys|]. split; [exact Hpre|].
  apply (track_frames_increase Iou.iou (1 # 10) (1 # 2) (3 # 10) 1 1
           [(1, [car; faint])] after_car_and_faint Hkeys Hpre).
  now left.
Defined.

End IouMoreFacts.
